(** * lwgrp: ring operations ([src/lwgrp_ring_ops.c])

    A shallow embedding of [lwgrp_ring_split_bin] and
    [lwgrp_ring_alltoallv_linear].  Both routines are collective: every
    member of a ring calls them, and what one process computes depends on
    the messages the others send.  Each routine is therefore embedded
    twice over:

    - the code one process runs, cut at its [MPI_Waitall] into the part
      that posts the nonblocking operations of a round and the part that
      consumes what was received;
    - a lockstep execution of all callers against a model of the
      transport (tagged nonblocking point-to-point messages, matched in
      posting order). *)

From Stdlib Require Import ZArith Lia Bool.
From stdpp Require Import base tactics option list numbers.

Local Open Scope Z_scope.

(** ** C [int] arithmetic *)

Definition INT_MAX : Z := 2 ^ 31 - 1.
Definition INT_MIN : Z := - 2 ^ 31.

(** The value of an [int] expression whose mathematical result is [z]:
    two's complement wrap-around. *)
Definition wrap (z : Z) : Z := (z + 2 ^ 31) `mod` 2 ^ 32 - 2 ^ 31.

(** ** Outcomes of a run *)

Inductive error : Type :=
  | MemFault    (* access outside the allocated block, or through NULL *)
  | Stuck       (* the transport cannot complete a posted operation *)
  | Truncated   (* a message is longer than the posted receive *)
  | OutOfFuel.  (* the model's step bound was reached *)

Inductive res (A : Type) : Type :=
  | Ok (a : A)
  | Err (e : error).
Arguments Ok {A} a.
Arguments Err {A} e.

Global Instance res_ret : MRet res := λ A a, Ok a.
Global Instance res_bind : MBind res := λ A B f m,
  match m with Ok a => f a | Err e => Err e end.

(** ** Memory: one block of [int]s

    A pointer into the scratch block is an offset; [None] is the NULL
    pointer.  Every access is bounds-checked. *)

Definition block : Type := option (list Z).

Definition zlookup (l : list Z) (i : Z) : option Z :=
  if decide (0 ≤ i) then l !! Z.to_nat i else None.

Definition load (m : block) (i : Z) : res Z :=
  match m with
  | None => Err MemFault
  | Some l => match zlookup l i with Some v => Ok v | None => Err MemFault end
  end.

Definition store (m : block) (i v : Z) : res block :=
  match m with
  | None => Err MemFault
  | Some l =>
      if decide (0 ≤ i < Z.of_nat (length l))
      then Ok (Some (<[Z.to_nat i := v]> l))
      else Err MemFault
  end.

(** [n] consecutive ints starting at offset [i] (the buffer of a send). *)
Definition load_range (m : block) (i n : Z) : res (list Z) :=
  match m with
  | None => Err MemFault
  | Some l =>
      if decide (0 ≤ i ∧ 0 ≤ n)
      then match sublist_lookup (Z.to_nat i) (Z.to_nat n) l with
           | Some k => Ok k
           | None => Err MemFault
           end
      else Err MemFault
  end.

(** The buffer of a completed receive of at most [n] ints at offset [i]:
    a longer message is an error, a shorter one leaves the rest of the
    buffer as it was, and [None] (nothing was received, the source was
    [MPI_PROC_NULL]) leaves all of it. *)
Definition recv_into (m : block) (i n : Z) (msg : option (list Z)) : res block :=
  match msg with
  | None => Ok m
  | Some k =>
      if decide (Z.of_nat (length k) ≤ n) then
        match m with
        | None => Err MemFault
        | Some l =>
            if decide (0 ≤ i ∧ i + Z.of_nat (length k) ≤ Z.of_nat (length l))
            then Ok (Some (list_inserts (Z.to_nat i) k l))
            else Err MemFault
        end
      else Err Truncated
  end.

(** [for (i = start; i < bound; i += 2) body], with a step bound. *)
Fixpoint for_step2 {St : Type} (fuel : nat) (i bound : Z)
    (body : Z → St → res St) (s : St) : res St :=
  if decide (i < bound) then
    match fuel with
    | O => Err OutOfFuel
    | S fuel' => s' ← body i s; for_step2 fuel' (wrap (i + 2)) bound body s'
    end
  else Ok s.

(** ** The transport

    One round of one process is a list of nonblocking operations, in
    program order, closed by a wait-all.  All operations of the library
    use one tag on one communicator, so a message is matched by source
    and destination alone, and messages between the same two processes
    are matched in the order they were posted. *)

Section transport.
Variable MPI_PROC_NULL : Z.
Context {M : Type}.

Inductive op : Type :=
  | Irecv (src : Z)
  | Isend (msg : M) (dst : Z).

(** What every process posted in one round, by transport rank. *)
Local Abbreviation board := (list (Z * list op)).

Definition sends_to (ops : list op) (dst : Z) : list M :=
  omap (λ o, match o with
             | Isend m d => if decide (d = dst) then Some m else None
             | Irecv _ => None
             end) ops.

Definition is_recv_from (src : Z) (o : op) : bool :=
  match o with
  | Irecv s => bool_decide (s = src)
  | Isend _ _ => false
  end.

Definition recvs_from (ops : list op) (src : Z) : nat :=
  length (List.filter (is_recv_from src) ops).

Definition ops_of (b : board) (r : Z) : option (list op) :=
  snd <$> (snd <$> list_find (λ e, e.1 = r) b).

(** The message that completes the [k]-th operation of process [me],
    a receive from [src]: the [j]-th message [src] sent to [me], where
    [j] counts the receives from [src] that [me] posted before.  A
    receive from [MPI_PROC_NULL] completes with nothing. *)
Definition wait_recv (b : board) (me : Z) (ops : list op) (k : nat)
  : res (option M) :=
  match ops !! k with
  | Some (Irecv src) =>
      if decide (src = MPI_PROC_NULL) then Ok None
      else match ops_of b src with
           | None => Err Stuck
           | Some sops =>
               match sends_to sops me !! recvs_from (take k ops) src with
               | Some m => Ok (Some m)
               | None => Err Stuck
               end
           end
  | _ => Err Stuck
  end.

(** A wait-all returns only if everything posted is matched: between
    every two processes as many messages are sent as are received, and
    nothing is addressed to (or expected from) a rank that is neither a
    process nor [MPI_PROC_NULL]. *)
Definition peer_ok (b : board) (r : Z) : bool :=
  bool_decide (r = MPI_PROC_NULL) || bool_decide (is_Some (ops_of b r)).

Definition op_peer (o : op) : Z :=
  match o with Irecv s => s | Isend _ d => d end.

Definition pair_ok (snd_ rcv : Z * list op) : bool :=
  bool_decide (length (sends_to snd_.2 rcv.1) = recvs_from rcv.2 snd_.1).

Definition waitall_ok (b : board) : bool :=
  forallb (λ e, forallb (λ o, peer_ok b (op_peer o)) e.2) b
  && forallb (λ s, forallb (λ r, pair_ok s r) b) b.
End transport.

Arguments op M : clear implicits.
Abbreviation board M := (list (Z * list (op M))).

(** ** Lockstep execution of a collective

    The callers run in lockstep: in a round, every process whose loop
    condition holds posts its operations, the transport matches them, and
    every such process runs the rest of its loop body on what its
    receives completed with.  A process that has left its loop posts
    nothing. *)

Section lockstep.
Variable MPI_PROC_NULL : Z.
Context {V M : Type}.
Variable rank_of : V → Z.
Variable cond : V → bool.
Variable post : V → res (V * list (op M)).
Variable wait : V → (nat → res (option M)) → res V.

Definition posts (v : V) : res (V * list (op M)) :=
  if cond v then post v else Ok (v, []).

Definition to_board (posted : list (V * list (op M))) : board M :=
  (λ e, (rank_of e.1, e.2)) <$> posted.

Definition waits (b : board M) (e : V * list (op M)) : res V :=
  if cond e.1 then wait e.1 (wait_recv MPI_PROC_NULL b (rank_of e.1) e.2)
  else Ok e.1.

Definition round (sys : list V) : res (list V) :=
  posted ← mapM posts sys;
  if waitall_ok MPI_PROC_NULL (to_board posted)
  then mapM (waits (to_board posted)) posted
  else Err Stuck.

Fixpoint run (fuel : nat) (sys : list V) : res (list V) :=
  if forallb (λ v, negb (cond v)) sys then Ok sys
  else match fuel with
       | O => Err OutOfFuel
       | S fuel' => sys' ← round sys; run fuel' sys'
       end.
End lockstep.

Section lwgrp.
(** [mpi.h] is not part of the sources: the sentinel rank is a
    parameter. *)
Variable MPI_PROC_NULL : Z.

(** Modelled from the spec: [lwgrp.h] is not under src/; the result
    value of a call that reports no error. *)
Definition LWGRP_SUCCESS : Z := 0.

(** [enum bin_values] *)
Definition INDEX_COUNT : Z := 0.
Definition INDEX_CLOSEST : Z := 1.

(** The descriptor, with the fields the code reads and writes. *)
Record lwgrp_ring : Type := {
  comm : Z;         (* handle of the communicator *)
  comm_rank : Z;    (* rank of this process in the communicator *)
  comm_left : Z;    (* rank of the process one less than this one *)
  comm_right : Z;   (* rank of the process one more than this one *)
  group_rank : Z;   (* rank of this process within the group *)
  group_size : Z    (* number of processes in the group *)
}.

(** Modelled from the spec: [lwgrp_ring_set_null] is defined outside
    src/.  The null chain has chain size 0 and both neighbors NONE; its
    other fields are unspecified and are left as they were. *)
Definition lwgrp_ring_set_null (out : lwgrp_ring) : lwgrp_ring :=
  {| comm := comm out; comm_rank := comm_rank out;
     comm_left := MPI_PROC_NULL; comm_right := MPI_PROC_NULL;
     group_rank := group_rank out; group_size := 0 |}.

(** What [lwgrp_malloc] answers to a request for [n] ints: NULL, or a
    fresh block whose contents [junk] are whatever was there. *)
Definition lwgrp_malloc (answer : option (nat → Z)) (n : Z) : block :=
  (λ junk, junk <$> seq 0 (Z.to_nat n)) <$> answer.

(** *** [lwgrp_ring_split_bin], one process *)

(** The arguments of a call, with what the allocator will answer. *)
Record split_bin_call : Type := {
  arg_num_bins : Z;
  arg_my_bin : Z;
  arg_in : lwgrp_ring;
  arg_out : lwgrp_ring;              (* [*out] before the call *)
  arg_malloc : option (nat → Z)
}.

(** The variables of the function during the loop. *)
Record split_bin_vars : Type := {
  num_bins : Z;
  my_bin : Z;
  ring_in : lwgrp_ring;
  ring_out : lwgrp_ring;
  bins : block;
  left_rank : Z;
  right_rank : Z;
  my_left : Z;
  my_right : Z;
  dist : Z;
  waitalls : nat                     (* ghost: completed [MPI_Waitall]s *)
}.

Definition my_bin_index (v : split_bin_vars) : Z := wrap (2 * my_bin v).
Definition rank_index (v : split_bin_vars) : Z := wrap (2 * num_bins v).
Definition elements (v : split_bin_vars) : Z := wrap (2 * num_bins v + 1).
Definition send_left_bins (v : split_bin_vars) : Z := wrap (0 * elements v).
Definition recv_left_bins (v : split_bin_vars) : Z := wrap (1 * elements v).
Definition send_right_bins (v : split_bin_vars) : Z := wrap (2 * elements v).
Definition recv_right_bins (v : split_bin_vars) : Z := wrap (3 * elements v).
Definition rank (v : split_bin_vars) : Z := group_rank (ring_in v).
Definition ranks (v : split_bin_vars) : Z := group_size (ring_in v).

Definition set_bins (v : split_bin_vars) (m : block) : split_bin_vars :=
  {| num_bins := num_bins v; my_bin := my_bin v; ring_in := ring_in v;
     ring_out := ring_out v; bins := m;
     left_rank := left_rank v; right_rank := right_rank v;
     my_left := my_left v; my_right := my_right v;
     dist := dist v; waitalls := waitalls v |}.

(** Lines 69-74: one iteration of the loop that clears the send
    buffers.  [i] is even, so [i + INDEX_CLOSEST] does not overflow. *)
Definition clear_cell (v : split_bin_vars) (i : Z) (m : block) : res block :=
  m ← store m (send_left_bins v + (i + INDEX_COUNT)) 0;
  m ← store m (send_right_bins v + (i + INDEX_COUNT)) 0;
  m ← store m (send_left_bins v + (i + INDEX_CLOSEST)) MPI_PROC_NULL;
  store m (send_right_bins v + (i + INDEX_CLOSEST)) MPI_PROC_NULL.

(** Lines 44-96: up to the first test of the loop condition. *)
Definition split_bin_init (c : split_bin_call) : res split_bin_vars :=
  let v0 :=
    {| num_bins := arg_num_bins c; my_bin := arg_my_bin c;
       ring_in := arg_in c; ring_out := arg_out c; bins := None;
       left_rank := comm_left (arg_in c);
       right_rank := comm_right (arg_in c);
       my_left := MPI_PROC_NULL; my_right := MPI_PROC_NULL;
       dist := 1; waitalls := O |} in
  (* if (my_bin >= num_bins) { TODO: fail } *)
  let m := lwgrp_malloc (arg_malloc c) (wrap (4 * elements v0)) in
  (* if (bins == NULL) { TODO: fail } *)
  m ← for_step2 (Z.to_nat (num_bins v0)) 0 (wrap (2 * num_bins v0))
        (clear_cell v0) m;
  m ← (if decide (0 ≤ my_bin v0) then
         m ← store m (send_left_bins v0 + (my_bin_index v0 + INDEX_COUNT)) 1;
         m ← store m (send_right_bins v0 + (my_bin_index v0 + INDEX_COUNT)) 1;
         m ← store m (send_left_bins v0 + (my_bin_index v0 + INDEX_CLOSEST))
               (comm_rank (ring_in v0));
         store m (send_right_bins v0 + (my_bin_index v0 + INDEX_CLOSEST))
               (comm_rank (ring_in v0))
       else Ok m);
  Ok (set_bins v0 m).

(** Line 97: [while (dist < ranks)]. *)
Definition split_bin_cond (v : split_bin_vars) : bool :=
  bool_decide (dist v < ranks v).

(** Lines 101-110: the four operations of a round, in posting order.
    A send carries the [elements] ints of its buffer. *)
Definition split_bin_post (v : split_bin_vars)
  : res (split_bin_vars * list (op (list Z))) :=
  m ← store (bins v) (send_right_bins v + rank_index v) (left_rank v);
  to_right ← load_range m (send_right_bins v) (elements v);
  m ← store m (send_left_bins v + rank_index v) (right_rank v);
  to_left ← load_range m (send_left_bins v) (elements v);
  Ok (set_bins v m,
      [ Irecv (left_rank v); Isend to_right (right_rank v);
        Irecv (right_rank v); Isend to_left (left_rank v) ]).

(** Lines 128-139, one iteration. *)
Definition merge_left (v : split_bin_vars) (i : Z) (m : block) : res block :=
  m ← (if decide (0 ≤ wrap (rank v - dist v)) then
         a ← load m (send_right_bins v + (i + INDEX_COUNT));
         b ← load m (recv_left_bins v + (i + INDEX_COUNT));
         store m (send_right_bins v + (i + INDEX_COUNT)) (wrap (a + b))
       else Ok m);
  c ← load m (send_right_bins v + (i + INDEX_CLOSEST));
  if decide (c = MPI_PROC_NULL) then
    r ← load m (recv_left_bins v + (i + INDEX_CLOSEST));
    store m (send_right_bins v + (i + INDEX_CLOSEST)) r
  else Ok m.

(** Lines 142-153, one iteration. *)
Definition merge_right (v : split_bin_vars) (i : Z) (m : block) : res block :=
  m ← (if decide (wrap (rank v + dist v) < ranks v) then
         a ← load m (send_left_bins v + (i + INDEX_COUNT));
         b ← load m (recv_right_bins v + (i + INDEX_COUNT));
         store m (send_left_bins v + (i + INDEX_COUNT)) (wrap (a + b))
       else Ok m);
  c ← load m (send_left_bins v + (i + INDEX_CLOSEST));
  if decide (c = MPI_PROC_NULL) then
    r ← load m (recv_right_bins v + (i + INDEX_CLOSEST));
    store m (send_left_bins v + (i + INDEX_CLOSEST)) r
  else Ok m.

(** Lines 113-158: from the return of [MPI_Waitall] to the end of the
    loop body.  [from_left] and [from_right] are what the two receives
    completed with. *)
Definition split_bin_wait (v : split_bin_vars)
    (from_left from_right : option (list Z)) : res split_bin_vars :=
  m ← recv_into (bins v) (recv_left_bins v) (elements v) from_left;
  m ← recv_into m (recv_right_bins v) (elements v) from_right;
  my_left' ←
    (if decide (my_left v = MPI_PROC_NULL ∧ 0 ≤ my_bin v)
     then load m (recv_left_bins v + (my_bin_index v + INDEX_CLOSEST))
     else Ok (my_left v));
  my_right' ←
    (if decide (my_right v = MPI_PROC_NULL ∧ 0 ≤ my_bin v)
     then load m (recv_right_bins v + (my_bin_index v + INDEX_CLOSEST))
     else Ok (my_right v));
  m ← for_step2 (Z.to_nat (num_bins v)) 0 (wrap (2 * num_bins v))
        (merge_left v) m;
  m ← for_step2 (Z.to_nat (num_bins v)) 0 (wrap (2 * num_bins v))
        (merge_right v) m;
  left_rank' ← load m (recv_left_bins v + rank_index v);
  right_rank' ← load m (recv_right_bins v + rank_index v);
  Ok {| num_bins := num_bins v; my_bin := my_bin v; ring_in := ring_in v;
        ring_out := ring_out v; bins := m;
        left_rank := left_rank'; right_rank := right_rank';
        my_left := my_left'; my_right := my_right';
        dist := wrap (Z.shiftl (dist v) 1);
        waitalls := S (waitalls v) |}.

(** Lines 161-189: after the loop.  The result is the returned value
    and [*out]. *)
Definition split_bin_finish (v : split_bin_vars) : res (Z * lwgrp_ring) :=
  let my_left' :=
    if decide (ranks v = 1) then comm_rank (ring_in v) else my_left v in
  let my_right' :=
    if decide (ranks v = 1) then comm_rank (ring_in v) else my_right v in
  out ← (if decide (0 ≤ my_bin v) then
           a ← load (bins v) (send_right_bins v + (my_bin_index v + INDEX_COUNT));
           b ← load (bins v) (send_left_bins v + (my_bin_index v + INDEX_COUNT));
           let count_left := wrap (a - 1) in
           let count_right := wrap (b - 1) in
           Ok {| comm := comm (ring_in v);
                 comm_rank := comm_rank (ring_in v);
                 comm_left := my_left';
                 comm_right := my_right';
                 group_rank := count_left;
                 group_size := wrap (wrap (count_left + count_right) + 1) |}
         else Ok (lwgrp_ring_set_null (ring_out v)));
  (* lwgrp_free(&bins) *)
  Ok (LWGRP_SUCCESS, out).

(** *** [lwgrp_ring_split_bin], all callers *)

(** The two receives of a round are its operations 0 and 2. *)
Definition split_bin_waitall (v : split_bin_vars)
    (completed : nat → res (option (list Z))) : res split_bin_vars :=
  from_left ← completed 0%nat;
  from_right ← completed 2%nat;
  split_bin_wait v from_left from_right.

Definition split_bin_round : list split_bin_vars → res (list split_bin_vars) :=
  round MPI_PROC_NULL (λ v, comm_rank (ring_in v))
    split_bin_cond split_bin_post split_bin_waitall.

Definition split_bin_loop : nat → list split_bin_vars → res (list split_bin_vars) :=
  run MPI_PROC_NULL (λ v, comm_rank (ring_in v))
    split_bin_cond split_bin_post split_bin_waitall.

(** The collective call: for each caller, in the order given, the
    value it returns and [*out] after the call, with the variables it
    ended with. *)
Definition lwgrp_ring_split_bin (fuel : nat) (calls : list split_bin_call)
  : res (list (Z * lwgrp_ring * split_bin_vars)) :=
  sys ← mapM split_bin_init calls;
  sys ← split_bin_loop fuel sys;
  mapM (λ v, r ← split_bin_finish v; Ok (r, v)) sys.

(** *** [lwgrp_ring_alltoallv_linear], one process

    Modelled from the spec: [lwgrp_type_dtbuf_from_dtbuf] is defined
    outside src/; a buffer is the list of its elements of the given
    datatype and a displacement counts elements. *)

Context {T : Type}.

Inductive payload : Type :=
  | Data (l : list T)    (* [count] elements of the datatype *)
  | Addr (r : Z).        (* one [MPI_INT] *)

Record alltoallv_call : Type := {
  sendbuf : list T;
  sendcounts : list Z;
  senddispls : list Z;
  recvbuf : list T;
  recvcounts : list Z;
  recvdispls : list Z;
  group : lwgrp_ring;
  junk_src_next : Z;     (* [src_next], [dst_next] are not initialized *)
  junk_dst_next : Z
}.

Record alltoallv_vars : Type := {
  call : alltoallv_call;
  cur_recvbuf : list T;
  a_dist : Z;
  src : Z;
  dst : Z;
  src_next : Z;
  dst_next : Z;
  a_waitalls : nat       (* ghost: completed [MPI_Waitall]s *)
}.

Definition array_get (a : list Z) (i : Z) : res Z :=
  match zlookup a i with Some v => Ok v | None => Err MemFault end.

(** Lines 208-218. *)
Definition alltoallv_init (c : alltoallv_call) : alltoallv_vars :=
  {| call := c; cur_recvbuf := recvbuf c; a_dist := 0;
     src := comm_left (group c); dst := comm_right (group c);
     src_next := junk_src_next c; dst_next := junk_dst_next c;
     a_waitalls := O |}.

(** Line 219: [while (dist < ranks)]. *)
Definition alltoallv_cond (v : alltoallv_vars) : bool :=
  bool_decide (a_dist v < group_size (group (call v))).

(** The elements a send of [count] elements at displacement [displ]
    reads; nothing is read for a send to [MPI_PROC_NULL]. *)
Definition send_data (buf : list T) (displ count peer : Z) : res (list T) :=
  if decide (peer = MPI_PROC_NULL) then Ok []
  else if decide (0 ≤ displ ∧ 0 ≤ count) then
    match sublist_lookup (Z.to_nat displ) (Z.to_nat count) buf with
    | Some k => Ok k
    | None => Err MemFault
    end
  else Err MemFault.

(** Lines 221-234: the six operations of a round, in posting order. *)
Definition alltoallv_post (v : alltoallv_vars)
  : res (alltoallv_vars * list (op payload)) :=
  _ ← array_get (recvdispls (call v)) (src v);
  _ ← array_get (recvcounts (call v)) (src v);
  send_displ ← array_get (senddispls (call v)) (dst v);
  send_count ← array_get (sendcounts (call v)) (dst v);
  data ← send_data (sendbuf (call v)) send_displ send_count (dst v);
  Ok (v, [ Irecv (src v); Isend (Data data) (dst v);
           Irecv (src v); Irecv (dst v);
           Isend (Addr (src v)) (dst v); Isend (Addr (dst v)) (src v) ]).

(** The receive buffer after the receive of at most [count] elements
    at displacement [displ] has completed with [msg]. *)
Definition recv_data (buf : list T) (displ count : Z)
    (msg : option payload) : res (list T) :=
  match msg with
  | None => Ok buf
  | Some (Addr _) => Err Stuck
  | Some (Data k) =>
      if decide (Z.of_nat (length k) ≤ count) then
        if decide (0 ≤ displ ∧ displ + Z.of_nat (length k) ≤ Z.of_nat (length buf))
        then Ok (list_inserts (Z.to_nat displ) k buf)
        else Err MemFault
      else Err Truncated
  end.

(** An [int] after the receive of one [MPI_INT] into it. *)
Definition recv_int (old : Z) (msg : option payload) : res Z :=
  match msg with
  | None => Ok old
  | Some (Addr r) => Ok r
  | Some (Data _) => Err Stuck
  end.

(** Lines 237-244.  The receives are operations 0, 2 and 3. *)
Definition alltoallv_waitall (v : alltoallv_vars)
    (completed : nat → res (option payload)) : res alltoallv_vars :=
  recv_displ ← array_get (recvdispls (call v)) (src v);
  recv_count ← array_get (recvcounts (call v)) (src v);
  m0 ← completed 0%nat;
  m2 ← completed 2%nat;
  m3 ← completed 3%nat;
  buf ← recv_data (cur_recvbuf v) recv_displ recv_count m0;
  src_next' ← recv_int (src_next v) m2;
  dst_next' ← recv_int (dst_next v) m3;
  Ok {| call := call v; cur_recvbuf := buf;
        a_dist := wrap (a_dist v + 1);
        src := src_next'; dst := dst_next';
        src_next := src_next'; dst_next := dst_next';
        a_waitalls := S (a_waitalls v) |}.

(** *** [lwgrp_ring_alltoallv_linear], all callers *)

Definition alltoallv_round : list alltoallv_vars → res (list alltoallv_vars) :=
  round MPI_PROC_NULL (λ v, comm_rank (group (call v)))
    alltoallv_cond alltoallv_post alltoallv_waitall.

Definition alltoallv_loop : nat → list alltoallv_vars → res (list alltoallv_vars) :=
  run MPI_PROC_NULL (λ v, comm_rank (group (call v)))
    alltoallv_cond alltoallv_post alltoallv_waitall.

(** The collective call: for each caller the value it returns (line
    247) and the variables it ended with, the receive buffer among
    them. *)
Definition lwgrp_ring_alltoallv_linear (fuel : nat)
    (calls : list alltoallv_call) : res (list (Z * alltoallv_vars)) :=
  sys ← alltoallv_loop fuel (alltoallv_init <$> calls);
  Ok ((λ v, (0, v)) <$> (sys : list alltoallv_vars)).
End lwgrp.

(** ** Rings of callers

    The descriptors a ring of [length tr] processes holds, the process at
    position [i] having transport rank [tr !! i]: positions are counted
    modulo the size, so the head's left neighbor is the tail. *)

Definition ring_at (tr : list Z) (j : Z) : Z :=
  default 0 (tr !! Z.to_nat (j `mod` Z.of_nat (length tr))).

Definition ring_member (c : Z) (tr : list Z) (i : nat) : lwgrp_ring :=
  {| comm := c;
     comm_rank := ring_at tr (Z.of_nat i);
     comm_left := ring_at tr (Z.of_nat i - 1);
     comm_right := ring_at tr (Z.of_nat i + 1);
     group_rank := Z.of_nat i;
     group_size := Z.of_nat (length tr) |}.

Definition ring_members (c : Z) (tr : list Z) : list lwgrp_ring :=
  ring_member c tr <$> seq 0 (length tr).

(** The bin declared at position [j] of a ring, positions taken modulo
    the size. *)
Definition ring_bin (mbs : list Z) (j : Z) : option Z :=
  zlookup mbs (j `mod` Z.of_nat (length mbs)).

(** How many of the [n] positions [lo], [lo + 1], ... lie on the chain
    (between its head 0 and its tail) and declare bin [b]. *)
Fixpoint count_from (mbs : list Z) (b lo : Z) (n : nat) : Z :=
  match n with
  | O => 0
  | S n' =>
      (if decide (zlookup mbs lo = Some b) then 1 else 0)
      + count_from mbs b (lo + 1) n'
  end.

(** The transport rank of the first of the [n] ring positions [j],
    [j + step], [j + 2 step], ... that declares bin [b], or [none]. *)
Fixpoint nearest (none : Z) (tr mbs : list Z) (b step j : Z) (n : nat) : Z :=
  match n with
  | O => none
  | S n' =>
      if decide (ring_bin mbs j = Some b) then ring_at tr j
      else nearest none tr mbs b step (j + step) n'
  end.

(** The system after [k] rounds. *)
Fixpoint rounds {V : Type} (round : list V → res (list V)) (k : nat)
    (sys : list V) : res (list V) :=
  match k with
  | O => Ok sys
  | S k' => sys' ← round sys; rounds round k' sys'
  end.

(** The calls of the members of a ring: position [i] declares
    [mbs !! i]; [outs] and [mallocs] give, by position, [*out] before the
    call and the allocator's answer. *)
Definition ring_calls (c nb : Z) (tr mbs : list Z)
    (outs : nat → lwgrp_ring) (mallocs : nat → option (nat → Z))
  : list split_bin_call :=
  (λ i, {| arg_num_bins := nb;
           arg_my_bin := default (-1) (mbs !! i);
           arg_in := ring_member c tr i;
           arg_out := outs i;
           arg_malloc := mallocs i |}) <$> seq 0 (length tr).

(** Modelled from the spec: the chain descriptor of section 3.1 of the
    specification, whose constructors are not under src/.  The head of a
    chain has NONE as its left neighbor and the tail has NONE as its right
    neighbor; a ring closes them into a cycle instead. *)
Definition chain_member (none c : Z) (tr : list Z) (i : nat) : lwgrp_ring :=
  {| comm := c;
     comm_rank := ring_at tr (Z.of_nat i);
     comm_left :=
       if decide (i = O) then none else ring_at tr (Z.of_nat i - 1);
     comm_right :=
       if decide (S i = length tr) then none else ring_at tr (Z.of_nat i + 1);
     group_rank := Z.of_nat i;
     group_size := Z.of_nat (length tr) |}.

(** The calls of the members of such a chain. *)
Definition chain_calls (none c nb : Z) (tr mbs : list Z)
    (outs : nat → lwgrp_ring) (mallocs : nat → option (nat → Z))
  : list split_bin_call :=
  (λ i, {| arg_num_bins := nb;
           arg_my_bin := default (-1) (mbs !! i);
           arg_in := chain_member none c tr i;
           arg_out := outs i;
           arg_malloc := mallocs i |}) <$> seq 0 (length tr).

(** How many entries of [l] declare bin [b]. *)
Definition same_bin (b : Z) (l : list Z) : nat :=
  length (filter (λ x, x = b) l).

(** The chain ranks the members of bin [b] end up with, in the order of
    the input chain. *)
Definition bin_ranks (b : Z) (res : list (Z * lwgrp_ring * split_bin_vars))
  : list Z :=
  omap (λ x, if decide (my_bin x.2 = b) then Some (group_rank x.1.2) else None)
       res.

(** The callers' variables after [k] rounds of the collective call. *)
Definition split_bin_after (PN : Z) (k : nat) (calls : list split_bin_call)
  : res (list split_bin_vars) :=
  sys ← mapM (split_bin_init PN) calls;
  rounds (split_bin_round PN) k sys.

(** A field of the cell of bin [b] in the buffer at [buf]. *)
Definition cell (v : split_bin_vars) (buf b field : Z) : option Z :=
  l ← bins v; zlookup l (buf + (2 * b + field)).

(** What the theorems ask of the callers: they form a ring of at most
    [2 ^ 30] processes with distinct transport ranks, none of them the
    sentinel, every bin is in [[-1, num_bins)], and the scratch block of
    [4 * (2 * num_bins + 1)] ints has a size an [int] can hold. *)
Definition ring_wf (PN nb : Z) (tr mbs : list Z) : Prop :=
  NoDup tr ∧ (0 < length tr)%nat ∧ PN ∉ tr ∧
  Z.of_nat (length tr) ≤ 2 ^ 30 ∧
  length mbs = length tr ∧ Forall (λ b, -1 ≤ b < nb) mbs ∧
  0 ≤ nb ∧ 4 * (2 * nb + 1) ≤ INT_MAX.

Definition mallocs_succeed (n : nat) (mallocs : nat → option (nat → Z)) : Prop :=
  ∀ i, (i < n)%nat → is_Some (mallocs i).

(** [ceil (log2 (max 1 n))] *)
Definition log2_rounds (n : nat) : nat :=
  Z.to_nat (Z.log2_up (Z.max 1 (Z.of_nat n))).

(** What the callers see of a collective call: the value returned and
    [*out]. *)
Definition returned (r : res (list (Z * lwgrp_ring * split_bin_vars)))
  : res (list (Z * lwgrp_ring)) :=
  match r with
  | Ok l => Ok (fst <$> l)
  | Err e => Err e
  end.

(** The sentence of the specification on the ends of a chain: NONE on
    the left iff chain rank 0, on the right iff chain rank size - 1. *)
Definition chain_ends (PN : Z) (out : lwgrp_ring) : Prop :=
  (comm_left out = PN ↔ group_rank out = 0) ∧
  (comm_right out = PN ↔ group_rank out = group_size out - 1).

(** The variables of a process whose scratch block was allocated with
    the size the code asks for, and whose bin is one of the [num_bins] or
    none. *)
Definition vars_wf (v : split_bin_vars) : Prop :=
  0 ≤ num_bins v ∧ 4 * (2 * num_bins v + 1) ≤ INT_MAX ∧
  -1 ≤ my_bin v < num_bins v ∧
  ∃ l, bins v = Some l ∧ Z.of_nat (length l) = 4 * (2 * num_bins v + 1).

(** * Properties *)

(** ** Machine integers *)

Lemma wrap_id z : INT_MIN ≤ z ≤ INT_MAX → wrap z = z.
Proof.
  unfold wrap, INT_MIN, INT_MAX. intros H.
  rewrite Z.mod_small by lia. lia.
Qed.

(** ** The outcome monad *)

Lemma mapM_Ok_Forall2 {A B} (f : A → res B) l k :
  Forall2 (λ x y, f x = Ok y) l k → mapM f l = Ok k.
Proof.
  induction 1 as [|x y l k Hxy _ IH]; [done|].
  cbn. rewrite Hxy. cbn. rewrite IH. done.
Qed.

Lemma mapM_Ok_inv {A B} (f : A → res B) l k :
  mapM f l = Ok k → Forall2 (λ x y, f x = Ok y) l k.
Proof.
  revert k. induction l as [|x l IH]; intros k; cbn.
  - intros [= <-]. constructor.
  - destruct (f x) as [y|] eqn:Hy; cbn; [|done].
    destruct (mapM f l) as [k'|] eqn:Hk; cbn; [|done].
    intros [= <-]. constructor; auto.
Qed.

Lemma mapM_Ok_fmap {A B} (f : A → B) (l : list A) :
  mapM (λ x, Ok (f x)) l = Ok (f <$> l).
Proof. apply mapM_Ok_Forall2. induction l; constructor; auto. Qed.

(** ** Memory *)

Definition gz (l : list Z) (i : Z) : Z := default 0 (zlookup l i).

Lemma zlookup_nat l (i : nat) : zlookup l (Z.of_nat i) = l !! i.
Proof. unfold zlookup. case_decide; [|lia]. by rewrite Nat2Z.id. Qed.

Lemma zlookup_Some l i :
  0 ≤ i < Z.of_nat (length l) → zlookup l i = Some (gz l i).
Proof.
  intros H. unfold gz, zlookup. case_decide; [|lia].
  destruct (l !! Z.to_nat i) eqn:E; [done|].
  apply lookup_ge_None in E. lia.
Qed.

Lemma zlookup_None l i :
  ¬ (0 ≤ i < Z.of_nat (length l)) → zlookup l i = None.
Proof.
  intros H. unfold zlookup. case_decide; [|done].
  apply lookup_ge_None. lia.
Qed.

Lemma zlookup_is_Some l i v :
  zlookup l i = Some v → 0 ≤ i < Z.of_nat (length l) ∧ gz l i = v.
Proof.
  intros H. unfold gz. rewrite H. split; [|done].
  unfold zlookup in H. case_decide; [|done].
  apply lookup_lt_Some in H. lia.
Qed.

Lemma load_ok l i :
  0 ≤ i < Z.of_nat (length l) → load (Some l) i = Ok (gz l i).
Proof. intros H. unfold load. by rewrite zlookup_Some. Qed.

Lemma store_ok l i v :
  0 ≤ i < Z.of_nat (length l) →
  store (Some l) i v = Ok (Some (<[Z.to_nat i := v]> l)).
Proof. intros H. unfold store. case_decide; [done|lia]. Qed.

Lemma gz_insert l i v j :
  0 ≤ i < Z.of_nat (length l) →
  gz (<[Z.to_nat i := v]> l) j = if decide (j = i) then v else gz l j.
Proof.
  intros H. unfold gz, zlookup. destruct (decide (j = i)) as [->|Hj].
  - case_decide; [|lia].
    rewrite list_lookup_insert_eq by lia. done.
  - case_decide; [|done].
    rewrite list_lookup_insert_ne by lia. done.
Qed.

Lemma gz_inserts l i k j :
  0 ≤ i → i + Z.of_nat (length k) ≤ Z.of_nat (length l) →
  gz (list_inserts (Z.to_nat i) k l) j =
    if decide (i ≤ j < i + Z.of_nat (length k)) then gz k (j - i) else gz l j.
Proof.
  intros Hi Hk. unfold gz, zlookup.
  destruct (decide (i ≤ j < i + Z.of_nat (length k))) as [Hj|Hj].
  - repeat (case_decide; [|lia]).
    rewrite list_lookup_inserts by lia.
    by replace (Z.to_nat j - Z.to_nat i)%nat with (Z.to_nat (j - i)) by lia.
  - case_decide; [|done].
    destruct (decide (j < i)).
    + rewrite list_lookup_inserts_lt by lia. done.
    + rewrite list_lookup_inserts_ge by lia. done.
Qed.

Lemma load_range_ok l i n :
  0 ≤ i → 0 ≤ n → i + n ≤ Z.of_nat (length l) →
  load_range (Some l) i n = Ok (take (Z.to_nat n) (drop (Z.to_nat i) l)).
Proof.
  intros. unfold load_range. case_decide; [|lia].
  rewrite sublist_lookup_Some by lia. done.
Qed.

Lemma gz_take_drop l i n j :
  0 ≤ i → 0 ≤ j < n →
  gz (take (Z.to_nat n) (drop (Z.to_nat i) l)) j = gz l (i + j).
Proof.
  intros Hi Hj. unfold gz, zlookup. repeat (case_decide; [|lia]).
  rewrite lookup_take_lt by lia. rewrite lookup_drop.
  by replace (Z.to_nat i + Z.to_nat j)%nat with (Z.to_nat (i + j)) by lia.
Qed.

Lemma length_take_drop (l : list Z) i n :
  0 ≤ i → 0 ≤ n → i + n ≤ Z.of_nat (length l) →
  Z.of_nat (length (take (Z.to_nat n) (drop (Z.to_nat i) l))) = n.
Proof. intros. rewrite length_take, length_drop. lia. Qed.

Lemma recv_into_ok l i n k :
  Z.of_nat (length k) ≤ n → 0 ≤ i →
  i + Z.of_nat (length k) ≤ Z.of_nat (length l) →
  recv_into (Some l) i n (Some k) = Ok (Some (list_inserts (Z.to_nat i) k l)).
Proof. intros. unfold recv_into. repeat (case_decide; [|lia]). done. Qed.

Lemma bind_Ok {A B} (a : A) (f : A → res B) : (Ok a ≫= f) = f a.
Proof. done. Qed.

Lemma for_step2_rule {St} (Q : nat → St → Prop) (body : Z → St → res St)
    (n : nat) (s0 : St) :
  2 * Z.of_nat n ≤ INT_MAX →
  Q O s0 →
  (∀ j s, (j < n)%nat → Q j s →
     ∃ s', body (2 * Z.of_nat j) s = Ok s' ∧ Q (S j) s') →
  ∃ s', for_step2 n 0 (2 * Z.of_nat n) body s0 = Ok s' ∧ Q n s'.
Proof.
  intros Hn H0 Hstep.
  assert (G : ∀ m j s, (j + m = n)%nat → Q j s →
    ∃ s', for_step2 m (2 * Z.of_nat j) (2 * Z.of_nat n) body s = Ok s' ∧ Q n s').
  { induction m as [|m IH]; intros j s Hj HQ.
    - assert (j = n) as -> by lia. exists s. cbn.
      case_decide; [lia|done].
    - cbn. case_decide; [|lia].
      destruct (Hstep j s) as (s' & -> & HQ'); [lia|done|].
      rewrite bind_Ok. rewrite wrap_id by (unfold INT_MIN, INT_MAX in *; lia).
      replace (2 * Z.of_nat j + 2) with (2 * Z.of_nat (S j)) by lia.
      apply IH; [lia|done]. }
  apply (G n O s0); [lia|done].
Qed.

(** ** [lwgrp_ring_split_bin]: one process *)

Section split_bin_process.
Variable PN : Z.
Variable nb : Z.
Hypothesis nb_range : 0 ≤ nb ∧ 4 * (2 * nb + 1) ≤ INT_MAX.

Local Abbreviation e := (2 * nb + 1).

Lemma wrap_small z : 0 ≤ z ≤ 4 * e → wrap z = z.
Proof. intros. apply wrap_id. unfold INT_MIN, INT_MAX in *. lia. Qed.

Lemma offsets v :
  num_bins v = nb →
  elements v = e ∧ rank_index v = 2 * nb ∧ send_left_bins v = 0 ∧
  recv_left_bins v = e ∧ send_right_bins v = 2 * e ∧
  recv_right_bins v = 3 * e ∧ wrap (2 * num_bins v) = 2 * nb.
Proof.
  intros Hv.
  unfold send_left_bins, recv_left_bins, send_right_bins, recv_right_bins,
    rank_index, elements.
  rewrite Hv. rewrite !(wrap_small e) by lia.
  rewrite !wrap_small by lia. lia.
Qed.

Lemma my_bin_index_eq v :
  -1 ≤ my_bin v < nb → my_bin_index v = 2 * my_bin v.
Proof.
  intros. unfold my_bin_index. apply wrap_id.
  unfold INT_MIN, INT_MAX in *. lia.
Qed.

Ltac side :=
  rewrite ?length_insert, ?length_inserts; lia.
Ltac exec :=
  repeat first
    [ rewrite bind_Ok
    | rewrite store_ok by side
    | rewrite load_ok by side ].

(** The seeds: a process counts itself in its own bin, in both
    directions, and knows no other process. *)
Definition seed_count (mb b : Z) : Z := if decide (b = mb) then 1 else 0.
Definition seed_closest (mb me b : Z) : Z := if decide (b = mb) then me else PN.

Lemma split_bin_init_ok c junk :
  arg_num_bins c = nb → -1 ≤ arg_my_bin c < nb →
  arg_malloc c = Some junk →
  ∃ l,
    split_bin_init PN c =
      Ok {| num_bins := arg_num_bins c; my_bin := arg_my_bin c;
            ring_in := arg_in c;
            ring_out := arg_out c; bins := Some l;
            left_rank := comm_left (arg_in c);
            right_rank := comm_right (arg_in c);
            my_left := PN; my_right := PN; dist := 1; waitalls := O |}
    ∧ Z.of_nat (length l) = 4 * e
    ∧ ∀ b, 0 ≤ b < nb →
        gz l (2 * b) = seed_count (arg_my_bin c) b
        ∧ gz l (2 * b + 1) =
            seed_closest (arg_my_bin c) (comm_rank (arg_in c)) b
        ∧ gz l (2 * e + 2 * b) = seed_count (arg_my_bin c) b
        ∧ gz l (2 * e + 2 * b + 1) =
            seed_closest (arg_my_bin c) (comm_rank (arg_in c)) b.
Proof.
  intros Hnb Hmb Hjunk. unfold split_bin_init.
  set (v0 := {| num_bins := arg_num_bins c |}).
  assert (Hv0 : num_bins v0 = nb) by done.
  destruct (offsets v0 Hv0) as (He & Hri & Hsl & Hrl & Hsr & Hrr & Hw).
  rewrite Hw, He, Hv0, Hjunk. rewrite (wrap_small (4 * e)) by lia.
  cbn [lwgrp_malloc fmap option_fmap option_map].
  set (l0 := junk <$> seq 0 (Z.to_nat (4 * e))).
  assert (Hl0 : Z.of_nat (length l0) = 4 * e).
  { unfold l0. rewrite length_fmap, length_seq. lia. }
  pose (Q := λ (j : nat) (m : block), ∃ l, m = Some l ∧
    Z.of_nat (length l) = 4 * e ∧
    ∀ b, 0 ≤ b < Z.of_nat j →
      gz l (2 * b) = 0 ∧ gz l (2 * b + 1) = PN ∧
      gz l (2 * e + 2 * b) = 0 ∧ gz l (2 * e + 2 * b + 1) = PN).
  destruct (for_step2_rule Q (clear_cell PN v0) (Z.to_nat nb) (Some l0))
    as (m1 & Hloop & l1 & -> & Hl1 & Hcells).
  { lia. }
  { exists l0. split; [done|]. split; [done|]. intros; lia. }
  { intros j m Hj (l & -> & Hl & Hc). unfold clear_cell.
    rewrite Hsl, Hsr. unfold INDEX_COUNT, INDEX_CLOSEST.
    exec. eexists. split; [done|]. eexists. split; [done|].
    split; [side|]. intros b Hb.
    rewrite !gz_insert by side.
    destruct (decide (b = Z.of_nat j)) as [->|Hne].
    - repeat case_decide; lia.
    - destruct (Hc b) as (? & ? & ? & ?); [lia|].
      repeat case_decide; lia. }
  rewrite Z2Nat.id in Hloop, Hcells by lia.
  rewrite Hloop, bind_Ok.
  rewrite Hsl, Hsr. unfold INDEX_COUNT, INDEX_CLOSEST.
  case_decide as Hsign; change (my_bin v0) with (arg_my_bin c) in Hsign.
  - rewrite (my_bin_index_eq v0) by done.
    change (my_bin v0) with (arg_my_bin c). change (ring_in v0) with (arg_in c).
    exec. eexists. split; [reflexivity|]. split; [side|].
    intros b Hb. rewrite !gz_insert by side.
    unfold seed_count, seed_closest.
    destruct (Hcells b) as (? & ? & ? & ?); [lia|].
    destruct (decide (b = arg_my_bin c)) as [->|Hne];
      repeat case_decide; lia.
  - rewrite bind_Ok. eexists. split; [reflexivity|]. split; [done|].
    intros b Hb. unfold seed_count, seed_closest.
    destruct (Hcells b) as (? & ? & ? & ?); [lia|].
    repeat case_decide; lia.
Qed.

Lemma split_bin_post_ok v l :
  num_bins v = nb → bins v = Some l → Z.of_nat (length l) = 4 * e →
  ∃ l' to_right to_left,
    split_bin_post v =
      Ok (set_bins v (Some l'),
          [ Irecv (left_rank v); Isend to_right (right_rank v);
            Irecv (right_rank v); Isend to_left (left_rank v) ])
    ∧ Z.of_nat (length l') = 4 * e
    ∧ Z.of_nat (length to_right) = e
    ∧ Z.of_nat (length to_left) = e
    ∧ gz to_right (2 * nb) = left_rank v
    ∧ gz to_left (2 * nb) = right_rank v
    ∧ ∀ j, 0 ≤ j < 2 * nb →
        gz l' j = gz l j ∧ gz l' (2 * e + j) = gz l (2 * e + j)
        ∧ gz to_left j = gz l j ∧ gz to_right j = gz l (2 * e + j).
Proof.
  intros Hv Hb Hl. unfold split_bin_post.
  destruct (offsets v Hv) as (He & Hri & Hsl & Hrl & Hsr & Hrr & Hw).
  rewrite Hb, He, Hri, Hsl, Hsr. exec.
  rewrite load_range_ok by side. exec.
  rewrite load_range_ok by side. exec.
  do 3 eexists. split; [reflexivity|].
  split; [side|].
  split; [rewrite length_take_drop by side; done|].
  split; [rewrite length_take_drop by side; done|].
  split; [rewrite gz_take_drop, !gz_insert by side;
          repeat case_decide; lia|].
  split; [rewrite gz_take_drop, !gz_insert by side;
          repeat case_decide; lia|].
  intros j Hj. rewrite !gz_take_drop, !gz_insert by side.
  repeat case_decide; try lia. by rewrite Z.add_0_l.
Qed.

(** The shape shared by the two merge loops: destination buffer at
    [D], received buffer at [R], counts added when [P] holds. *)
Definition merge_cell (D R : Z) (P : Prop) `{!Decision P}
    (i : Z) (m : block) : res block :=
  m ← (if decide P then
         a ← load m (D + (i + INDEX_COUNT));
         b ← load m (R + (i + INDEX_COUNT));
         store m (D + (i + INDEX_COUNT)) (wrap (a + b))
       else Ok m);
  c ← load m (D + (i + INDEX_CLOSEST));
  if decide (c = PN) then
    r ← load m (R + (i + INDEX_CLOSEST));
    store m (D + (i + INDEX_CLOSEST)) r
  else Ok m.

Lemma merge_cell_ok (D R : Z) (P : Prop) `{!Decision P} l j :
  0 ≤ D → 0 ≤ R → 0 ≤ j < nb →
  D + 2 * nb ≤ Z.of_nat (length l) → R + 2 * nb ≤ Z.of_nat (length l) →
  D + 2 * nb ≤ R ∨ R + 2 * nb ≤ D →
  ∃ l',
    merge_cell D R P (2 * j) (Some l) = Ok (Some l')
    ∧ length l' = length l
    ∧ (∀ i, i ≠ D + 2 * j → i ≠ D + 2 * j + 1 → gz l' i = gz l i)
    ∧ gz l' (D + 2 * j) =
        (if decide P then wrap (gz l (D + 2 * j) + gz l (R + 2 * j))
         else gz l (D + 2 * j))
    ∧ gz l' (D + 2 * j + 1) =
        (if decide (gz l (D + 2 * j + 1) = PN) then gz l (R + 2 * j + 1)
         else gz l (D + 2 * j + 1)).
Proof.
  intros HD HR Hj HDl HRl Hdisj. unfold merge_cell.
  unfold INDEX_COUNT, INDEX_CLOSEST.
  rewrite !Z.add_0_r, !Z.add_assoc.
  destruct (decide P) as [HP|HP]; exec;
    rewrite ?gz_insert by side; repeat case_decide; try lia;
    (eexists; split; [reflexivity|]; split; [by rewrite ?length_insert|];
     split;
     [ intros i ? ?; rewrite ?gz_insert by side; repeat case_decide; lia
     | split; rewrite ?gz_insert by side; repeat case_decide; lia ]).
Qed.

Lemma merge_loop_ok (D R : Z) (P : Prop) `{!Decision P} l :
  0 ≤ D → 0 ≤ R →
  D + 2 * nb ≤ Z.of_nat (length l) → R + 2 * nb ≤ Z.of_nat (length l) →
  D + 2 * nb ≤ R ∨ R + 2 * nb ≤ D →
  ∃ l',
    for_step2 (Z.to_nat nb) 0 (2 * nb) (merge_cell D R P) (Some l) =
      Ok (Some l')
    ∧ length l' = length l
    ∧ (∀ i, ¬ (D ≤ i < D + 2 * nb) → gz l' i = gz l i)
    ∧ ∀ b, 0 ≤ b < nb →
        gz l' (D + 2 * b) =
          (if decide P then wrap (gz l (D + 2 * b) + gz l (R + 2 * b))
           else gz l (D + 2 * b))
        ∧ gz l' (D + 2 * b + 1) =
            (if decide (gz l (D + 2 * b + 1) = PN) then gz l (R + 2 * b + 1)
             else gz l (D + 2 * b + 1)).
Proof.
  intros HD HR HDl HRl Hdisj.
  pose (Q := λ (j : nat) (m : block), ∃ l', m = Some l' ∧
    length l' = length l ∧
    (∀ i, ¬ (D ≤ i < D + 2 * Z.of_nat j) → gz l' i = gz l i) ∧
    ∀ b, 0 ≤ b < Z.of_nat j →
      gz l' (D + 2 * b) =
        (if decide P then wrap (gz l (D + 2 * b) + gz l (R + 2 * b))
         else gz l (D + 2 * b))
      ∧ gz l' (D + 2 * b + 1) =
          (if decide (gz l (D + 2 * b + 1) = PN) then gz l (R + 2 * b + 1)
           else gz l (D + 2 * b + 1))).
  destruct (for_step2_rule Q (merge_cell D R P) (Z.to_nat nb) (Some l))
    as (m1 & Hloop & l1 & -> & Hl1 & Hout & Hcells).
  { lia. }
  { exists l. split; [done|]. split; [done|]. split; [done|]. intros; lia. }
  { intros j m Hj (l' & -> & Hl' & Ho & Hc).
    destruct (merge_cell_ok D R P l' (Z.of_nat j))
      as (l2 & Hm & Hl2 & Ho2 & Hcnt & Hclo); try lia.
    exists (Some l2). split; [done|]. exists l2. split; [done|].
    split; [congruence|]. split.
    - intros i Hi. rewrite Ho2 by lia. apply Ho. lia.
    - intros b Hb. destruct (decide (b = Z.of_nat j)) as [->|Hne].
      + rewrite Hcnt, Hclo. rewrite !Ho by lia. done.
      + rewrite !Ho2 by lia. apply Hc. lia. }
  rewrite Z2Nat.id in Hloop, Hout, Hcells by lia.
  exists l1. done.
Qed.

Lemma split_bin_wait_ok v l from_left from_right :
  num_bins v = nb → -1 ≤ my_bin v < nb →
  bins v = Some l → Z.of_nat (length l) = 4 * e →
  Z.of_nat (length from_left) = e → Z.of_nat (length from_right) = e →
  ∃ l',
    split_bin_wait PN v (Some from_left) (Some from_right) =
      Ok {| num_bins := nb; my_bin := my_bin v;
            ring_in := ring_in v; ring_out := ring_out v;
            bins := Some l';
            left_rank := gz from_left (2 * nb);
            right_rank := gz from_right (2 * nb);
            my_left :=
              (if decide (my_left v = PN ∧ 0 ≤ my_bin v)
               then gz from_left (2 * my_bin v + 1) else my_left v);
            my_right :=
              (if decide (my_right v = PN ∧ 0 ≤ my_bin v)
               then gz from_right (2 * my_bin v + 1) else my_right v);
            dist := wrap (Z.shiftl (dist v) 1);
            waitalls := S (waitalls v) |}
    ∧ Z.of_nat (length l') = 4 * e
    ∧ ∀ b, 0 ≤ b < nb →
        gz l' (2 * e + 2 * b) =
          (if decide (0 ≤ wrap (rank v - dist v))
           then wrap (gz l (2 * e + 2 * b) + gz from_left (2 * b))
           else gz l (2 * e + 2 * b))
        ∧ gz l' (2 * e + 2 * b + 1) =
            (if decide (gz l (2 * e + 2 * b + 1) = PN)
             then gz from_left (2 * b + 1)
             else gz l (2 * e + 2 * b + 1))
        ∧ gz l' (2 * b) =
            (if decide (wrap (rank v + dist v) < ranks v)
             then wrap (gz l (2 * b) + gz from_right (2 * b))
             else gz l (2 * b))
        ∧ gz l' (2 * b + 1) =
            (if decide (gz l (2 * b + 1) = PN)
             then gz from_right (2 * b + 1)
             else gz l (2 * b + 1)).
Proof.
  intros Hv Hmb Hb Hl HA HB. unfold split_bin_wait.
  change (merge_left PN v) with
    (merge_cell (send_right_bins v) (recv_left_bins v)
       (0 ≤ wrap (rank v - dist v))).
  change (merge_right PN v) with
    (merge_cell (send_left_bins v) (recv_right_bins v)
       (wrap (rank v + dist v) < ranks v)).
  destruct (offsets v Hv) as (He & Hri & Hsl & Hrl & Hsr & Hrr & Hw).
  rewrite Hb, He, Hri, Hsl, Hsr, Hrl, Hrr, Hw, Hv.
  rewrite (my_bin_index_eq v) by done. unfold INDEX_CLOSEST.
  rewrite recv_into_ok by lia. exec.
  rewrite recv_into_ok by side. exec.
  set (l1 := list_inserts (Z.to_nat e) from_left l).
  set (l2 := list_inserts (Z.to_nat (3 * e)) from_right l1).
  assert (Hl1 : Z.of_nat (length l1) = 4 * e) by (unfold l1; side).
  assert (Hl2 : Z.of_nat (length l2) = 4 * e) by (unfold l2; side).
  assert (G2 : ∀ i, gz l2 i =
    if decide (3 * e ≤ i < 4 * e) then gz from_right (i - 3 * e)
    else if decide (e ≤ i < 2 * e) then gz from_left (i - e)
    else gz l i).
  { intros i. unfold l2, l1. rewrite !gz_inserts by side.
    rewrite HA, HB. repeat case_decide; try lia; done. }
  assert (EL :
    (if decide (my_left v = PN ∧ 0 ≤ my_bin v)
     then Ok (gz l2 (e + (2 * my_bin v + 1))) else Ok (my_left v)) =
    Ok (if decide (my_left v = PN ∧ 0 ≤ my_bin v)
        then gz from_left (2 * my_bin v + 1) else my_left v)).
  { destruct (decide (my_left v = PN ∧ 0 ≤ my_bin v)); [|done]. rewrite G2.
    rewrite decide_False, decide_True by lia. f_equal. f_equal. lia. }
  assert (ER :
    (if decide (my_right v = PN ∧ 0 ≤ my_bin v)
     then Ok (gz l2 (3 * e + (2 * my_bin v + 1))) else Ok (my_right v)) =
    Ok (if decide (my_right v = PN ∧ 0 ≤ my_bin v)
        then gz from_right (2 * my_bin v + 1) else my_right v)).
  { destruct (decide (my_right v = PN ∧ 0 ≤ my_bin v)); [|done]. rewrite G2.
    rewrite decide_True by lia. f_equal. f_equal. lia. }
  rewrite EL, ER. clear EL ER. exec.
  destruct (merge_loop_ok (2 * e) e (0 ≤ wrap (rank v - dist v)) l2)
    as (l3 & -> & Hl3 & Ho3 & Hc3); try lia.
  exec.
  destruct (merge_loop_ok 0 (3 * e) (wrap (rank v + dist v) < ranks v) l3)
    as (l4 & -> & Hl4 & Ho4 & Hc4); try lia.
  exec. rewrite !Ho4, !Ho3, !G2 by lia.
  eexists. split.
  { f_equal. f_equal.
    - rewrite decide_False, decide_True by lia. f_equal. lia.
    - rewrite decide_True by lia. f_equal. lia. }
  split; [lia|]. intros b Hbb.
  destruct (Hc3 b Hbb) as [C3 D3]. destruct (Hc4 b Hbb) as [C4 D4].
  rewrite !Z.add_0_l in C4, D4.
  rewrite C4, D4. rewrite !Ho4 by lia. rewrite C3, D3.
  rewrite !Ho3 by lia. rewrite !G2.
  repeat split; repeat case_decide; try lia; repeat f_equal; lia.
Qed.

Lemma split_bin_finish_ok v l :
  num_bins v = nb → -1 ≤ my_bin v < nb →
  bins v = Some l → Z.of_nat (length l) = 4 * e →
  split_bin_finish PN v =
    Ok (LWGRP_SUCCESS,
        if decide (0 ≤ my_bin v) then
          {| comm := comm (ring_in v);
             comm_rank := comm_rank (ring_in v);
             comm_left :=
               (if decide (ranks v = 1) then comm_rank (ring_in v)
                else my_left v);
             comm_right :=
               (if decide (ranks v = 1) then comm_rank (ring_in v)
                else my_right v);
             group_rank := wrap (gz l (2 * e + 2 * my_bin v) - 1);
             group_size :=
               wrap (wrap (wrap (gz l (2 * e + 2 * my_bin v) - 1)
                           + wrap (gz l (2 * my_bin v) - 1)) + 1) |}
        else lwgrp_ring_set_null PN (ring_out v)).
Proof.
  intros Hv Hmb Hb Hl. unfold split_bin_finish.
  destruct (offsets v Hv) as (He & Hri & Hsl & Hrl & Hsr & Hrr & Hw).
  rewrite Hb, Hsl, Hsr. rewrite (my_bin_index_eq v) by done.
  unfold INDEX_COUNT. rewrite !Z.add_0_r, Z.add_0_l.
  case_decide; exec; done.
Qed.
End split_bin_process.

Lemma mapM_Ok_lookup {A B} (f : A → res B) (l : list A) :
  (∀ i x, l !! i = Some x → ∃ y, f x = Ok y) →
  ∃ k, mapM f l = Ok k ∧ length k = length l ∧
       ∀ i x, l !! i = Some x → ∃ y, k !! i = Some y ∧ f x = Ok y.
Proof.
  induction l as [|x l IH]; intros H.
  - exists []. split; [done|]. split; [done|]. intros i x; by rewrite lookup_nil.
  - destruct (H O x eq_refl) as [y Hy].
    destruct IH as (k & Hk & Hlen & Hlk).
    { intros i x' Hi. apply (H (S i)). done. }
    exists (y :: k). split; [|split].
    + cbn. rewrite Hy. cbn. rewrite Hk. done.
    + cbn. by rewrite Hlen.
    + intros [|i] x' Hi; cbn in *.
      * injection Hi as <-. eauto.
      * apply Hlk. done.
Qed.

(** ** Rings *)

Section ring_facts.
Variable tr : list Z.
Hypothesis tr_nodup : NoDup tr.
Hypothesis tr_nonempty : (0 < length tr)%nat.

Local Abbreviation N := (Z.of_nat (length tr)).

Lemma ring_at_mod a : ring_at tr (a `mod` N) = ring_at tr a.
Proof. unfold ring_at. by rewrite Z.mod_mod by lia. Qed.

Lemma ring_at_lookup a : tr !! Z.to_nat (a `mod` N) = Some (ring_at tr a).
Proof.
  unfold ring_at. destruct (tr !! _) eqn:E; [done|].
  apply lookup_ge_None in E. pose proof (Z.mod_pos_bound a N). lia.
Qed.

Lemma ring_at_elem a : ring_at tr a ∈ tr.
Proof. eapply list_elem_of_lookup_2, ring_at_lookup. Qed.

Lemma ring_at_inj a b : ring_at tr a = ring_at tr b → a `mod` N = b `mod` N.
Proof.
  intros H. pose proof (ring_at_lookup a) as Ha.
  pose proof (ring_at_lookup b) as Hb. rewrite H in Ha.
  pose proof (NoDup_lookup _ _ _ _ tr_nodup Ha Hb).
  pose proof (Z.mod_pos_bound a N). pose proof (Z.mod_pos_bound b N). lia.
Qed.

Lemma ring_at_congr a b : a `mod` N = b `mod` N → ring_at tr a = ring_at tr b.
Proof. unfold ring_at. by intros ->. Qed.

Lemma mod_shift a b d :
  (a + d) `mod` N = b `mod` N ↔ a `mod` N = (b - d) `mod` N.
Proof.
  split; intros H.
  - replace a with (a + d - d) at 1 by lia.
    rewrite <- Zminus_mod_idemp_l, H, Zminus_mod_idemp_l. done.
  - replace b with (b - d + d) at 1 by lia.
    rewrite <- Zplus_mod_idemp_l, H, Zplus_mod_idemp_l. done.
Qed.

Lemma ring_at_shift a b d :
  ring_at tr (a + d) = ring_at tr b ↔ ring_at tr a = ring_at tr (b - d).
Proof.
  split; intros H%ring_at_inj; apply ring_at_congr; by apply mod_shift.
Qed.

Context {M : Type}.

(** A board on which position [i] is taken by rank [ring_at tr i]. *)
Definition on_ring (b : board M) : Prop :=
  length b = length tr ∧
  ∀ i e, b !! i = Some e → e.1 = ring_at tr (Z.of_nat i).

Lemma ops_of_ring (b : board M) a ops :
  on_ring b →
  b !! Z.to_nat (a `mod` N) = Some (ring_at tr a, ops) →
  ops_of b (ring_at tr a) = Some ops.
Proof.
  intros [Hlen Hrk] Ha. unfold ops_of.
  assert (list_find (λ e : Z * list (op M), e.1 = ring_at tr a) b =
          Some (Z.to_nat (a `mod` N), (ring_at tr a, ops))) as ->; [|done].
  apply list_find_Some. split; [done|]. split; [done|].
  intros j y Hj Hlt Heq. rewrite (Hrk j y Hj) in Heq.
  apply ring_at_inj in Heq. rewrite Z.mod_small in Heq; [lia|].
  apply lookup_lt_Some in Hj. lia.
Qed.

Lemma on_ring_lookup (b : board M) a :
  on_ring b → ∃ ops, b !! Z.to_nat (a `mod` N) = Some (ring_at tr a, ops).
Proof.
  intros [Hlen Hrk]. pose proof (Z.mod_pos_bound a N).
  destruct (b !! Z.to_nat (a `mod` N)) as [[r ops]|] eqn:E.
  - exists ops. pose proof (Hrk _ _ E) as Hr. cbn in Hr.
    rewrite Z2Nat.id, ring_at_mod in Hr by lia. by subst.
  - apply lookup_ge_None in E. lia.
Qed.
End ring_facts.

(** ** The exchange of a round of [lwgrp_ring_split_bin] on a ring

    Every process receives from the process [d] positions to its left,
    sends to the one [d] positions to its right, and the same the other
    way round. *)

Section exchange.
Variable PN : Z.
Variable tr : list Z.
Hypothesis tr_nodup : NoDup tr.
Hypothesis tr_nonempty : (0 < length tr)%nat.
Hypothesis tr_not_none : PN ∉ tr.
Context {M : Type}.
Variable d : Z.

Local Abbreviation N := (Z.of_nat (length tr)).

Definition exch_ops (a : Z) (to_right to_left : M) : list (op M) :=
  [ Irecv (ring_at tr (a - d)); Isend to_right (ring_at tr (a + d));
    Irecv (ring_at tr (a + d)); Isend to_left (ring_at tr (a - d)) ].

Definition exch_board (b : board M) : Prop :=
  on_ring tr b ∧
  ∀ a, ∃ to_right to_left,
    b !! Z.to_nat (a `mod` N) =
      Some (ring_at tr a, exch_ops a to_right to_left).

Lemma ring_at_not_none a : ring_at tr a ≠ PN.
Proof. intros E. apply tr_not_none. rewrite <- E. by apply ring_at_elem. Qed.

Lemma exch_wait_left b a x y to_right to_left :
  exch_board b →
  b !! Z.to_nat ((a - d) `mod` N) =
    Some (ring_at tr (a - d), exch_ops (a - d) to_right to_left) →
  wait_recv PN b (ring_at tr a) (exch_ops a x y) 0 = Ok (Some to_right).
Proof.
  intros [Hring _] Hb. unfold wait_recv. cbn [exch_ops lookup list_lookup].
  rewrite decide_False by apply ring_at_not_none.
  rewrite (ops_of_ring tr tr_nodup tr_nonempty b (a - d) _ Hring Hb).
  cbn. rewrite decide_True; [done|]. f_equal. lia.
Qed.

Lemma exch_wait_right b a x y to_right to_left :
  exch_board b →
  b !! Z.to_nat ((a + d) `mod` N) =
    Some (ring_at tr (a + d), exch_ops (a + d) to_right to_left) →
  wait_recv PN b (ring_at tr a) (exch_ops a x y) 2 = Ok (Some to_left).
Proof.
  intros [Hring _] Hb. unfold wait_recv. cbn [exch_ops lookup list_lookup].
  rewrite decide_False by apply ring_at_not_none.
  rewrite (ops_of_ring tr tr_nodup tr_nonempty b (a + d) _ Hring Hb).
  cbn. replace (a + d - d) with a by lia.
  rewrite (decide_True (P := ring_at tr a = ring_at tr a)) by done.
  destruct (decide (ring_at tr (a + d + d) = ring_at tr a)) as [E|E].
  - rewrite bool_decide_eq_true_2; [done|].
    symmetry.
    by apply (proj1 (ring_at_shift tr tr_nodup tr_nonempty (a + d) a d)).
  - rewrite bool_decide_eq_false_2; [done|].
    intros E'. apply E. symmetry in E'.
    by apply (proj2 (ring_at_shift tr tr_nodup tr_nonempty (a + d) a d)).
Qed.

Lemma exch_waitall_ok b : exch_board b → waitall_ok PN b = true.
Proof.
  intros [Hring Hb]. unfold waitall_ok. apply andb_true_intro.
  assert (Hent : ∀ x, In x b → ∃ a to_right to_left,
             x = (ring_at tr a, exch_ops a to_right to_left)).
  { intros x [i Hi]%list_elem_of_In%list_elem_of_lookup.
    destruct (Hb (Z.of_nat i)) as (r & l & Hx).
    rewrite Z.mod_small, Nat2Z.id in Hx.
    2:{ apply lookup_lt_Some in Hi. destruct Hring as [Hl _]. lia. }
    exists (Z.of_nat i), r, l. rewrite Hi in Hx. by injection Hx. }
  assert (Hpeer : ∀ a, peer_ok PN b (ring_at tr a) = true).
  { intros a. unfold peer_ok. apply orb_true_intro. right.
    apply bool_decide_eq_true_2.
    destruct (on_ring_lookup tr tr_nonempty b a Hring) as [ops Hops].
    rewrite (ops_of_ring tr tr_nodup tr_nonempty b a _ Hring Hops). eauto. }
  split.
  - apply forallb_forall. intros x (a & r & l & ->)%Hent.
    cbn. by rewrite !Hpeer.
  - apply forallb_forall. intros x (a & r & l & ->)%Hent.
    apply forallb_forall. intros x' (a' & r' & l' & ->)%Hent.
    unfold pair_ok. apply bool_decide_eq_true_2. cbn.
    assert (E1 : ring_at tr (a + d) = ring_at tr a' ↔
                 ring_at tr (a' - d) = ring_at tr a).
    { rewrite ring_at_shift by done. split; congruence. }
    assert (E2 : ring_at tr (a - d) = ring_at tr a' ↔
                 ring_at tr (a' + d) = ring_at tr a).
    { rewrite (ring_at_shift tr tr_nodup tr_nonempty a' a d).
      split; congruence. }
    repeat case_decide; repeat case_bool_decide; cbn; tauto || done.
Qed.
End exchange.

(** ** Counting and searching along a ring *)

Section scans.
Variable none : Z.
Variables tr mbs : list Z.
Hypothesis tr_nodup : NoDup tr.
Hypothesis tr_nonempty : (0 < length tr)%nat.
Hypothesis tr_not_none : none ∉ tr.
Hypothesis mbs_length : length mbs = length tr.

Local Abbreviation N := (Z.of_nat (length tr)).

Lemma count_from_app b lo n m :
  count_from mbs b lo (n + m) =
  count_from mbs b lo n + count_from mbs b (lo + Z.of_nat n) m.
Proof.
  revert lo. induction n as [|n IH]; intros lo; cbn [count_from Nat.add].
  - by rewrite Z.add_0_r.
  - rewrite IH. replace (lo + 1 + Z.of_nat n) with (lo + Z.of_nat (S n)) by lia.
    lia.
Qed.

Lemma count_from_outside b lo n :
  lo + Z.of_nat n ≤ 0 ∨ N ≤ lo → count_from mbs b lo n = 0.
Proof.
  revert lo. induction n as [|n IH]; intros lo H; cbn [count_from]; [done|].
  rewrite IH by lia. rewrite zlookup_None by lia.
  rewrite decide_False by done. done.
Qed.

Lemma count_from_bounds b lo n : 0 ≤ count_from mbs b lo n ≤ Z.of_nat n.
Proof.
  revert lo. induction n as [|n IH]; intros lo; cbn [count_from]; [lia|].
  specialize (IH (lo + 1)). case_decide; lia.
Qed.

Lemma count_from_take_drop b lo n :
  count_from mbs b (Z.of_nat lo) n =
  Z.of_nat (length (filter (λ x, x = b) (take n (drop lo mbs)))).
Proof.
  revert lo. induction n as [|n IH]; intros lo; cbn [count_from]; [done|].
  replace (Z.of_nat lo + 1) with (Z.of_nat (S lo)) by lia. rewrite IH.
  rewrite zlookup_nat.
  destruct (mbs !! lo) as [x|] eqn:E.
  - rewrite (drop_S _ x _ E). cbn [take]. rewrite filter_cons.
    destruct (decide (x = b)) as [->|Hne].
    + rewrite decide_True by done. cbn [length]. lia.
    + rewrite decide_False by congruence. lia.
  - apply lookup_ge_None in E. rewrite !drop_ge by lia.
    rewrite decide_False by done. by rewrite !take_nil.
Qed.

(** The two windows of a process at position [i], once they reach the
    ends of the chain: everything up to [i], and everything from [i]. *)
Lemma count_from_left b i n :
  0 ≤ i < N → i + 1 ≤ Z.of_nat n →
  count_from mbs b (i - Z.of_nat n + 1) n =
  Z.of_nat (length (filter (λ x, x = b) (take (Z.to_nat (i + 1)) mbs))).
Proof.
  intros Hi Hn.
  replace n with ((n - Z.to_nat (i + 1)) + Z.to_nat (i + 1))%nat at 2 by lia.
  rewrite count_from_app, count_from_outside by lia.
  replace (i - Z.of_nat n + 1 + Z.of_nat (n - Z.to_nat (i + 1)))
    with (Z.of_nat 0) by lia.
  rewrite count_from_take_drop. by rewrite drop_0.
Qed.

Lemma count_from_right b i n :
  0 ≤ i < N → N ≤ i + Z.of_nat n →
  count_from mbs b i n =
  Z.of_nat (length (filter (λ x, x = b) (drop (Z.to_nat i) mbs))).
Proof.
  intros Hi Hn. rewrite <- (Z2Nat.id i) at 1 by lia.
  rewrite count_from_take_drop. rewrite take_ge; [done|].
  rewrite length_drop. lia.
Qed.

(** Doubling a window. *)
Lemma count_from_double_left b i n :
  count_from mbs b (i - Z.of_nat (n + n) + 1) (n + n) =
  count_from mbs b (i - Z.of_nat n + 1) n
  + (if decide (0 ≤ i - Z.of_nat n)
     then count_from mbs b (i - Z.of_nat n - Z.of_nat n + 1) n else 0).
Proof.
  rewrite count_from_app.
  replace (i - Z.of_nat (n + n) + 1 + Z.of_nat n)
    with (i - Z.of_nat n + 1) by lia.
  replace (i - Z.of_nat (n + n) + 1)
    with (i - Z.of_nat n - Z.of_nat n + 1) by lia.
  case_decide; [lia|]. rewrite count_from_outside by lia. lia.
Qed.

Lemma count_from_double_right b i n :
  count_from mbs b i (n + n) =
  count_from mbs b i n
  + (if decide (i + Z.of_nat n < N)
     then count_from mbs b (i + Z.of_nat n) n else 0).
Proof.
  rewrite count_from_app.
  case_decide; [lia|].
  rewrite (count_from_outside b (i + Z.of_nat n)) by lia. lia.
Qed.

Lemma ring_bin_congr a b :
  a `mod` N = b `mod` N → ring_bin mbs a = ring_bin mbs b.
Proof. unfold ring_bin. rewrite mbs_length. by intros ->. Qed.

Lemma nearest_congr b s j j' n :
  j `mod` N = j' `mod` N →
  nearest none tr mbs b s j n = nearest none tr mbs b s j' n.
Proof.
  revert j j'. induction n as [|n IH]; intros j j' H; cbn [nearest]; [done|].
  rewrite (ring_bin_congr j j' H), (ring_at_congr tr j j' H).
  case_decide; [done|]. apply IH.
  rewrite <- Zplus_mod_idemp_l, H, Zplus_mod_idemp_l. done.
Qed.

Lemma nearest_app b s j n m :
  nearest none tr mbs b s j (n + m) =
  if decide (nearest none tr mbs b s j n = none)
  then nearest none tr mbs b s (j + s * Z.of_nat n) m
  else nearest none tr mbs b s j n.
Proof.
  revert j. induction n as [|n IH]; intros j; cbn [nearest Nat.add].
  - rewrite decide_True by done. f_equal. lia.
  - destruct (decide (ring_bin mbs j = Some b)).
    + rewrite decide_False; [done|].
      intros E. apply tr_not_none. rewrite <- E. by apply ring_at_elem.
    + rewrite IH. replace (j + s + s * Z.of_nat n)
        with (j + s * Z.of_nat (S n)) by lia. done.
Qed.
End scans.

(** ** [lwgrp_ring_split_bin] on a ring *)

Section split_bin_ring.
Variable PN : Z.
Variables c nb : Z.
Variables tr mbs : list Z.
Variable outs : nat → lwgrp_ring.
Variable mallocs : nat → option (nat → Z).

Local Abbreviation N := (Z.of_nat (length tr)).
Local Abbreviation e := (2 * nb + 1).

Hypothesis tr_nodup : NoDup tr.
Hypothesis tr_nonempty : (0 < length tr)%nat.
Hypothesis tr_not_none : PN ∉ tr.
Hypothesis tr_size : N ≤ 2 ^ 30.
Hypothesis mbs_length : length mbs = length tr.
Hypothesis mbs_range : Forall (λ b, -1 ≤ b < nb) mbs.
Hypothesis nb_range : 0 ≤ nb ∧ 4 * (2 * nb + 1) ≤ INT_MAX.
Hypothesis mallocs_ok : ∀ i, (i < length tr)%nat → is_Some (mallocs i).

Definition bin_of (i : nat) : Z := default (-1) (mbs !! i).

(** What the buffers of the process at position [i] hold after [k]
    rounds, and what it has noted as its neighbors. *)
Definition cntL (k i : nat) (b : Z) : Z :=
  count_from mbs b (Z.of_nat i) (2 ^ k).
Definition cntR (k i : nat) (b : Z) : Z :=
  count_from mbs b (Z.of_nat i - Z.of_nat (2 ^ k) + 1) (2 ^ k).
Definition cloL (k i : nat) (b : Z) : Z :=
  nearest PN tr mbs b 1 (Z.of_nat i) (2 ^ k).
Definition cloR (k i : nat) (b : Z) : Z :=
  nearest PN tr mbs b (-1) (Z.of_nat i) (2 ^ k).
Definition myL (k i : nat) : Z :=
  if decide (0 ≤ bin_of i)
  then nearest PN tr mbs (bin_of i) (-1) (Z.of_nat i - 1) (2 ^ k - 1)
  else PN.
Definition myR (k i : nat) : Z :=
  if decide (0 ≤ bin_of i)
  then nearest PN tr mbs (bin_of i) 1 (Z.of_nat i + 1) (2 ^ k - 1)
  else PN.

Definition proc_inv (k i : nat) (v : split_bin_vars) : Prop :=
  num_bins v = nb ∧ my_bin v = bin_of i ∧
  ring_in v = ring_member c tr i ∧ ring_out v = outs i ∧
  left_rank v = ring_at tr (Z.of_nat i - Z.of_nat (2 ^ k)) ∧
  right_rank v = ring_at tr (Z.of_nat i + Z.of_nat (2 ^ k)) ∧
  my_left v = myL k i ∧ my_right v = myR k i ∧
  dist v = Z.of_nat (2 ^ k) ∧ waitalls v = k ∧
  ∃ l, bins v = Some l ∧ Z.of_nat (length l) = 4 * e ∧
    ∀ b, 0 ≤ b < nb →
      gz l (2 * b) = cntL k i b ∧ gz l (2 * b + 1) = cloL k i b ∧
      gz l (2 * e + 2 * b) = cntR k i b ∧
      gz l (2 * e + 2 * b + 1) = cloR k i b.

Definition sys_inv (k : nat) (sys : list split_bin_vars) : Prop :=
  length sys = length tr ∧ ∀ i v, sys !! i = Some v → proc_inv k i v.

Lemma bin_of_range i : -1 ≤ bin_of i < nb.
Proof.
  unfold bin_of. destruct (mbs !! i) as [b|] eqn:E; cbn; [|lia].
  exact (Forall_lookup_1 _ _ _ _ mbs_range E).
Qed.

Lemma zlookup_mbs i :
  (i < length tr)%nat → zlookup mbs (Z.of_nat i) = Some (bin_of i).
Proof.
  intros Hi. rewrite zlookup_nat. unfold bin_of.
  destruct (mbs !! i) eqn:E; [done|]. apply lookup_ge_None in E. lia.
Qed.

Lemma ring_bin_nat i :
  (i < length tr)%nat → ring_bin mbs (Z.of_nat i) = Some (bin_of i).
Proof.
  intros Hi. unfold ring_bin. rewrite Z.mod_small by lia.
  by apply zlookup_mbs.
Qed.

Lemma ring_calls_lookup i x :
  ring_calls c nb tr mbs outs mallocs !! i = Some x →
  (i < length tr)%nat ∧
  x = {| arg_num_bins := nb; arg_my_bin := bin_of i;
         arg_in := ring_member c tr i; arg_out := outs i;
         arg_malloc := mallocs i |}.
Proof.
  unfold ring_calls. rewrite list_lookup_fmap.
  destruct (seq 0 (length tr) !! i) as [j|] eqn:E; cbn; [|done].
  apply lookup_seq in E as [-> ?]. intros [= <-]. done.
Qed.

Lemma init_inv :
  ∃ sys, mapM (split_bin_init PN) (ring_calls c nb tr mbs outs mallocs) = Ok sys
         ∧ sys_inv 0 sys.
Proof.
  destruct (mapM_Ok_lookup (split_bin_init PN)
              (ring_calls c nb tr mbs outs mallocs)) as (sys & Hsys & Hlen & Hlk).
  { intros i x [Hi ->]%ring_calls_lookup.
    destruct (mallocs_ok i Hi) as [junk Hj].
    destruct (split_bin_init_ok PN nb nb_range
                {| arg_num_bins := nb; arg_my_bin := bin_of i;
                   arg_in := ring_member c tr i; arg_out := outs i;
                   arg_malloc := mallocs i |}
                junk eq_refl (bin_of_range i) Hj)
      as (l & -> & _). eauto. }
  exists sys. split; [done|]. split.
  { rewrite Hlen. unfold ring_calls. by rewrite length_fmap, length_seq. }
  intros i v Hv.
  assert (Hi : (i < length tr)%nat).
  { apply lookup_lt_Some in Hv. rewrite Hlen in Hv. unfold ring_calls in Hv.
    by rewrite length_fmap, length_seq in Hv. }
  destruct (ring_calls c nb tr mbs outs mallocs !! i) as [x|] eqn:Hx.
  2:{ apply lookup_ge_None in Hx. unfold ring_calls in Hx.
      rewrite length_fmap, length_seq in Hx. lia. }
  destruct (Hlk i x Hx) as (v' & Hv' & Hinit). rewrite Hv in Hv'.
  injection Hv' as <-. apply ring_calls_lookup in Hx as [_ ->].
  destruct (mallocs_ok i Hi) as [junk Hj].
  destruct (split_bin_init_ok PN nb nb_range
              {| arg_num_bins := nb; arg_my_bin := bin_of i;
                 arg_in := ring_member c tr i; arg_out := outs i;
                 arg_malloc := mallocs i |}
              junk eq_refl (bin_of_range i) Hj)
    as (l & Hinit' & Hl & Hcells).
  rewrite Hinit in Hinit'. injection Hinit' as ->. cbn in Hcells.
  unfold proc_inv. cbn.
  split; [done|]. split; [done|]. split; [done|]. split; [done|].
  split; [done|]. split; [done|].
  split; [unfold myL; by case_decide|].
  split; [unfold myR; by case_decide|].
  split; [done|]. split; [done|].
  exists l. split; [done|]. split; [done|].
  intros b Hb. destruct (Hcells b Hb) as (-> & -> & -> & ->).
  unfold cntL, cntR, cloL, cloR, seed_count, seed_closest. cbn.
  rewrite Z.sub_add, ring_bin_nat, zlookup_mbs by done.
  repeat split; repeat case_decide; congruence || lia.
Qed.

Lemma pow2_pos k : (0 < 2 ^ k)%nat.
Proof. induction k; cbn; lia. Qed.

Lemma pow2_S k : (2 ^ S k = 2 ^ k + 2 ^ k)%nat.
Proof. cbn. lia. Qed.

(** A scan message: one cell per bin and the trailing rank. *)
Definition msg_ok (m : list Z) (cnt clo : Z → Z) (trail : Z) : Prop :=
  Z.of_nat (length m) = e ∧ gz m (2 * nb) = trail ∧
  ∀ b, 0 ≤ b < nb → gz m (2 * b) = cnt b ∧ gz m (2 * b + 1) = clo b.

Definition posted_inv (k i : nat) (a : Z)
    (y : split_bin_vars * list (op (list Z))) : Prop :=
  ∃ v l to_right to_left,
    proc_inv k i v ∧ bins v = Some l ∧ Z.of_nat (length l) = 4 * e ∧
    y = (v, exch_ops tr (Z.of_nat (2 ^ k)) a to_right to_left) ∧
    msg_ok to_right (cntR k i) (cloR k i)
      (ring_at tr (Z.of_nat i - Z.of_nat (2 ^ k))) ∧
    msg_ok to_left (cntL k i) (cloL k i)
      (ring_at tr (Z.of_nat i + Z.of_nat (2 ^ k))).

Lemma cond_inv k i v :
  proc_inv k i v →
  split_bin_cond v = bool_decide (Z.of_nat (2 ^ k) < N).
Proof.
  intros (_ & _ & Hin & _ & _ & _ & _ & _ & Hd & _).
  unfold split_bin_cond, ranks. by rewrite Hd, Hin.
Qed.

Lemma post_inv k i a v :
  Z.of_nat (2 ^ k) < N → a `mod` N = Z.of_nat i →
  proc_inv k i v →
  ∃ y, posts split_bin_cond split_bin_post v = Ok y ∧ posted_inv k i a y.
Proof.
  intros Hd Ha Hinv. unfold posts.
  rewrite (cond_inv k i v Hinv), bool_decide_eq_true_2 by done.
  pose proof Hinv as (Hnb & Hmb & Hin & Hout & HL & HR & HmL & HmR &
                       Hdist & Hw & l & Hb & Hl & Hcells).
  destruct (split_bin_post_ok nb nb_range v l Hnb Hb Hl)
    as (l' & mR & mL & -> & Hl' & HlR & HlL & HtR & HtL & Hsame).
  eexists. split; [reflexivity|].
  exists (set_bins v (Some l')), l', mR, mL.
  assert (EL : ring_at tr (a - Z.of_nat (2 ^ k)) =
               ring_at tr (Z.of_nat i - Z.of_nat (2 ^ k))).
  { apply ring_at_congr.
    rewrite <- Zminus_mod_idemp_l, Ha. done. }
  assert (ER : ring_at tr (a + Z.of_nat (2 ^ k)) =
               ring_at tr (Z.of_nat i + Z.of_nat (2 ^ k))).
  { apply ring_at_congr.
    rewrite <- Zplus_mod_idemp_l, Ha. done. }
  split; [|split; [done|]; split; [done|]; split; [|split]].
  - unfold proc_inv. cbn. repeat (split; [done|]).
    exists l'. split; [done|]. split; [done|].
    intros b Hbb. destruct (Hcells b Hbb) as (<- & <- & <- & <-).
    destruct (Hsame (2 * b)) as (-> & -> & _); [lia|].
    destruct (Hsame (2 * b + 1)) as (-> & E & _); [lia|].
    rewrite Z.add_assoc in E. by rewrite E.
  - cbn. unfold exch_ops. rewrite EL, ER, HL, HR. done.
  - split; [done|]. split; [by rewrite HtR|].
    intros b Hbb. destruct (Hcells b Hbb) as (_ & _ & <- & <-).
    destruct (Hsame (2 * b)) as (_ & _ & _ & ->); [lia|].
    destruct (Hsame (2 * b + 1)) as (_ & _ & _ & ->); [lia|].
    by rewrite Z.add_assoc.
  - split; [done|]. split; [by rewrite HtL|].
    intros b Hbb. destruct (Hcells b Hbb) as (<- & <- & _ & _).
    destruct (Hsame (2 * b)) as (_ & _ & -> & _); [lia|].
    destruct (Hsame (2 * b + 1)) as (_ & _ & -> & _); [lia|]. done.
Qed.

Ltac modpos H :=
  rewrite H, ?Zminus_mod_idemp_l, ?Zplus_mod_idemp_l, ?Z.mod_mod by lia;
  f_equal; lia.

Lemma wait_inv k i v from_left from_right jL jR :
  (i < length tr)%nat → Z.of_nat (2 ^ k) < N →
  proc_inv k i v →
  Z.of_nat jL = (Z.of_nat i - Z.of_nat (2 ^ k)) `mod` N →
  Z.of_nat jR = (Z.of_nat i + Z.of_nat (2 ^ k)) `mod` N →
  msg_ok from_left (cntR k jL) (cloR k jL)
    (ring_at tr (Z.of_nat jL - Z.of_nat (2 ^ k))) →
  msg_ok from_right (cntL k jR) (cloL k jR)
    (ring_at tr (Z.of_nat jR + Z.of_nat (2 ^ k))) →
  ∃ v', split_bin_wait PN v (Some from_left) (Some from_right) = Ok v'
        ∧ proc_inv (S k) i v'.
Proof.
  intros Hi Hd Hinv HjL HjR (HlA & HtA & HcA) (HlB & HtB & HcB).
  destruct Hinv as (Hnb & Hmb & Hin & Hout & HL & HR & HmL & HmR &
                    Hdist & Hw & l & Hb & Hl & Hcells).
  pose proof (bin_of_range i) as Hrange. rewrite <- Hmb in Hrange.
  destruct (split_bin_wait_ok PN nb nb_range v l from_left from_right
              Hnb Hrange Hb Hl HlA HlB) as (l' & -> & Hl' & Hnew).
  eexists. split; [reflexivity|].
  pose proof (pow2_pos k) as Hpos.
  assert (Hrank : rank v = Z.of_nat i) by (unfold rank; by rewrite Hin).
  assert (Hranks : ranks v = N) by (unfold ranks; by rewrite Hin).
  unfold proc_inv. cbn [num_bins my_bin ring_in ring_out bins left_rank
    right_rank my_left my_right dist waitalls].
  rewrite pow2_S, Nat2Z.inj_add.
  split; [done|]. split; [done|]. split; [done|]. split; [done|].
  split.
  { rewrite HtA. apply ring_at_congr. modpos HjL. }
  split.
  { rewrite HtB. apply ring_at_congr. modpos HjR. }
  split.
  { rewrite HmL, Hmb. unfold myL. rewrite pow2_S.
    destruct (decide (0 ≤ bin_of i)) as [Hsign|Hsign].
    - replace (2 ^ k + 2 ^ k - 1)%nat with ((2 ^ k - 1) + 2 ^ k)%nat by lia.
      rewrite (nearest_app PN tr mbs) by done.
      destruct (decide (nearest PN tr mbs (bin_of i) (-1) (Z.of_nat i - 1)
                          (2 ^ k - 1) = PN)) as [E|E].
      + rewrite decide_True by done.
        destruct (HcA (bin_of i)) as [_ ->]; [lia|]. unfold cloR.
        apply (nearest_congr PN tr mbs mbs_length).
        modpos HjL.
      + rewrite decide_False by tauto. done.
    - rewrite decide_False by tauto. done. }
  split.
  { rewrite HmR, Hmb. unfold myR. rewrite pow2_S.
    destruct (decide (0 ≤ bin_of i)) as [Hsign|Hsign].
    - replace (2 ^ k + 2 ^ k - 1)%nat with ((2 ^ k - 1) + 2 ^ k)%nat by lia.
      rewrite (nearest_app PN tr mbs) by done.
      destruct (decide (nearest PN tr mbs (bin_of i) 1 (Z.of_nat i + 1)
                          (2 ^ k - 1) = PN)) as [E|E].
      + rewrite decide_True by done.
        destruct (HcB (bin_of i)) as [_ ->]; [lia|]. unfold cloL.
        apply (nearest_congr PN tr mbs mbs_length).
        modpos HjR.
      + rewrite decide_False by tauto. done.
    - rewrite decide_False by tauto. done. }
  split.
  { rewrite Hdist, Z.shiftl_mul_pow2 by lia.
    rewrite wrap_id by (unfold INT_MIN, INT_MAX; lia). lia. }
  split; [by rewrite Hw|].
  exists l'. split; [done|]. split; [done|].
  intros b Hbb. destruct (Hnew b Hbb) as (-> & -> & -> & ->).
  destruct (Hcells b Hbb) as (-> & -> & -> & ->).
  destruct (HcA b Hbb) as (-> & ->). destruct (HcB b Hbb) as (-> & ->).
  rewrite Hrank, Hranks, Hdist.
  rewrite !(wrap_id (Z.of_nat i - _)), !(wrap_id (Z.of_nat i + _))
    by (unfold INT_MIN, INT_MAX; lia).
  unfold cntL, cntR, cloL, cloR. rewrite pow2_S.
  rewrite (count_from_double_left tr mbs), (count_from_double_right tr mbs) by done.
  rewrite !(nearest_app PN tr mbs) by done.
  pose proof (count_from_bounds tr mbs tr_nonempty mbs_length b) as Hbd.
  split; [|split; [|split]].
  - destruct (decide (Z.of_nat i + Z.of_nat (2 ^ k) < N)) as [H0|H0].
    + rewrite Z.mod_small in HjR by lia. rewrite HjR.
      apply wrap_id.
      pose proof (Hbd (Z.of_nat i) (2 ^ k)%nat).
      pose proof (Hbd (Z.of_nat i + Z.of_nat (2 ^ k)) (2 ^ k)%nat).
      unfold INT_MIN, INT_MAX. lia.
    + lia.
  - destruct (decide (nearest PN tr mbs b 1 (Z.of_nat i) (2 ^ k) = PN));
      [|done].
    apply (nearest_congr PN tr mbs mbs_length).
    modpos HjR.
  - destruct (decide (0 ≤ Z.of_nat i - Z.of_nat (2 ^ k))) as [H0|H0].
    + rewrite Z.mod_small in HjL by lia. rewrite HjL.
      apply wrap_id.
      pose proof (Hbd (Z.of_nat i - Z.of_nat (2 ^ k) + 1) (2 ^ k)%nat).
      pose proof (Hbd (Z.of_nat i - Z.of_nat (2 ^ k) - Z.of_nat (2 ^ k) + 1)
                    (2 ^ k)%nat).
      unfold INT_MIN, INT_MAX. lia.
    + lia.
  - destruct (decide (nearest PN tr mbs b (-1) (Z.of_nat i) (2 ^ k) = PN));
      [|done].
    apply (nearest_congr PN tr mbs mbs_length).
    modpos HjL.
Qed.

Lemma rank_of_inv k i v :
  proc_inv k i v → comm_rank (ring_in v) = ring_at tr (Z.of_nat i).
Proof. intros (_ & _ & -> & _). done. Qed.

Lemma round_inv k sys :
  Z.of_nat (2 ^ k) < N → sys_inv k sys →
  ∃ sys', split_bin_round PN sys = Ok sys' ∧ sys_inv (S k) sys'.
Proof.
  intros Hd [Hlen Hall]. unfold split_bin_round, round.
  destruct (mapM_Ok_lookup (posts split_bin_cond split_bin_post) sys)
    as (posted & -> & Hplen & Hp).
  { intros i x Hx.
    destruct (post_inv k i (Z.of_nat i) x) as (y & Hy & _); eauto.
    apply lookup_lt_Some in Hx. rewrite Z.mod_small; lia. }
  rewrite bind_Ok.
  assert (Hpost : ∀ a, ∃ y,
    posted !! Z.to_nat (a `mod` N) = Some y ∧
    posted_inv k (Z.to_nat (a `mod` N)) a y).
  { intros a. pose proof (Z.mod_pos_bound a N ltac:(lia)) as Ha.
    destruct (sys !! Z.to_nat (a `mod` N)) as [v|] eqn:Hv.
    2:{ apply lookup_ge_None in Hv. lia. }
    destruct (Hp _ v Hv) as (y & Hy & Hpy).
    destruct (post_inv k (Z.to_nat (a `mod` N)) a v) as (y' & Hy' & Hinv');
      [done|lia|by apply Hall|].
    rewrite Hpy in Hy'. injection Hy' as <-. eauto. }
  set (B := to_board (λ v, comm_rank (ring_in v)) posted).
  assert (Hboard : ∀ a y,
    posted !! Z.to_nat (a `mod` N) = Some y →
    posted_inv k (Z.to_nat (a `mod` N)) a y →
    B !! Z.to_nat (a `mod` N) = Some (ring_at tr a, y.2)).
  { intros a y Hy (v & l & mR & mL & Hinv & _ & _ & -> & _).
    unfold B, to_board. rewrite list_lookup_fmap, Hy. cbn.
    rewrite (rank_of_inv _ _ _ Hinv).
    pose proof (Z.mod_pos_bound a N ltac:(lia)).
    rewrite Z2Nat.id by lia. by rewrite ring_at_mod by done. }
  assert (HB : exch_board tr (Z.of_nat (2 ^ k)) B).
  { split; [split|].
    - unfold B, to_board. rewrite length_fmap. lia.
    - intros i x Hx.
      assert (Hi : (i < length tr)%nat).
      { apply lookup_lt_Some in Hx. unfold B, to_board in Hx.
        rewrite length_fmap in Hx. lia. }
      destruct (Hpost (Z.of_nat i)) as (y & Hy & Hinv).
      pose proof (Hboard _ _ Hy Hinv) as HBi.
      rewrite Z.mod_small, Nat2Z.id in HBi by lia.
      rewrite Hx in HBi. by injection HBi as ->.
    - intros a. destruct (Hpost a) as (y & Hy & Hinv).
      pose proof (Hboard _ _ Hy Hinv) as HBa.
      destruct Hinv as (v & l & mR & mL & _ & _ & _ & -> & _).
      exists mR, mL. done. }
  rewrite (exch_waitall_ok PN tr tr_nodup tr_nonempty _ B HB).
  assert (Hwait : ∀ i y, posted !! i = Some y →
    ∃ v', waits PN (λ v, comm_rank (ring_in v)) split_bin_cond
            (split_bin_waitall PN) B y = Ok v' ∧ proc_inv (S k) i v').
  { intros i y Hy.
    assert (Hi : (i < length tr)%nat).
    { apply lookup_lt_Some in Hy. lia. }
    destruct (Hpost (Z.of_nat i)) as (y' & Hy' & Hinv).
    rewrite Z.mod_small, Nat2Z.id in Hy', Hinv by lia.
    rewrite Hy in Hy'. injection Hy' as <-.
    destruct Hinv as (v & l & mR & mL & Hinv & Hb & Hl & -> & _ & _).
    destruct (Hpost (Z.of_nat i - Z.of_nat (2 ^ k)))
      as (yL & HyL & HinvL).
    pose proof (Hboard _ _ HyL HinvL) as HBL.
    destruct HinvL as (vL & lL & mRL & mLL & _ & _ & _ & -> & HmsgL & _).
    destruct (Hpost (Z.of_nat i + Z.of_nat (2 ^ k)))
      as (yR & HyR & HinvR).
    pose proof (Hboard _ _ HyR HinvR) as HBR.
    destruct HinvR as (vR & lR & mRR & mLR & _ & _ & _ & -> & _ & HmsgR).
    unfold waits. cbn [fst snd] in *.
    rewrite (cond_inv k i v Hinv), bool_decide_eq_true_2 by done.
    unfold split_bin_waitall. rewrite (rank_of_inv _ _ _ Hinv).
    rewrite (exch_wait_left PN tr tr_nodup tr_nonempty tr_not_none _ B
               _ mR mL mRL mLL HB HBL), bind_Ok.
    rewrite (exch_wait_right PN tr tr_nodup tr_nonempty tr_not_none _ B
               _ mR mL mRR mLR HB HBR), bind_Ok.
    pose proof (Z.mod_pos_bound (Z.of_nat i - Z.of_nat (2 ^ k)) N ltac:(lia)).
    pose proof (Z.mod_pos_bound (Z.of_nat i + Z.of_nat (2 ^ k)) N ltac:(lia)).
    eapply (wait_inv k i v mRL mLR); eauto; lia. }
  destruct (mapM_Ok_lookup
              (waits PN (λ v, comm_rank (ring_in v)) split_bin_cond
                 (split_bin_waitall PN) B) posted)
    as (sys' & -> & Hlen' & Hs').
  { intros i y Hy. destruct (Hwait i y Hy) as (v' & ? & _). eauto. }
  exists sys'. split; [done|]. split; [lia|].
  intros i v' Hv'.
  destruct (posted !! i) as [y|] eqn:Hy.
  2:{ apply lookup_ge_None in Hy. apply lookup_lt_Some in Hv'. lia. }
  destruct (Hs' i y Hy) as (v'' & Hv'' & Hw).
  destruct (Hwait i y Hy) as (v3 & Hw3 & Hinv3).
  rewrite Hv' in Hv''. injection Hv'' as <-.
  rewrite Hw in Hw3. by injection Hw3 as ->.
Qed.

(** The number of rounds: the least [K] with [N ≤ 2 ^ K]. *)
Definition round_count : nat := Z.to_nat (Z.log2_up N).

Lemma round_count_ge : N ≤ Z.of_nat (2 ^ round_count).
Proof.
  unfold round_count. rewrite Nat2Z.inj_pow, Z2Nat.id by apply Z.log2_up_nonneg.
  destruct (decide (N = 1)) as [->|Hne]; [done|].
  pose proof (Z.log2_up_spec N). change (Z.of_nat 2) with 2. lia.
Qed.

Lemma round_count_lt k : (k < round_count)%nat → Z.of_nat (2 ^ k) < N.
Proof.
  unfold round_count. intros Hk. rewrite Nat2Z.inj_pow.
  change (Z.of_nat 2) with 2.
  destruct (decide (N = 1)) as [E|Hne].
  { rewrite E in Hk. cbn in Hk. lia. }
  pose proof (Z.log2_up_spec N ltac:(lia)) as [Hlo _].
  eapply Z.le_lt_trans; [|exact Hlo].
  apply Z.pow_le_mono_r; lia.
Qed.

Lemma all_left_loop sys :
  sys_inv round_count sys →
  forallb (λ v, negb (split_bin_cond v)) sys = true.
Proof.
  intros [_ Hall]. apply forallb_forall.
  intros v [i Hi]%list_elem_of_In%list_elem_of_lookup.
  rewrite (cond_inv _ i v (Hall i v Hi)).
  rewrite bool_decide_eq_false_2; [done|]. pose proof round_count_ge. lia.
Qed.

Lemma none_left_loop k sys :
  Z.of_nat (2 ^ k) < N → sys_inv k sys →
  forallb (λ v, negb (split_bin_cond v)) sys = false.
Proof.
  intros Hk [Hlen Hall]. destruct sys as [|v sys]; [cbn in Hlen; lia|].
  cbn. rewrite (cond_inv k O v (Hall O v eq_refl)).
  by rewrite bool_decide_eq_true_2.
Qed.

Lemma loop_inv m j sys fuel :
  (j + m = round_count)%nat → (m ≤ fuel)%nat → sys_inv j sys →
  ∃ sys', split_bin_loop PN fuel sys = Ok sys'
          ∧ rounds (split_bin_round PN) m sys = Ok sys'
          ∧ sys_inv round_count sys'.
Proof.
  revert j sys fuel. induction m as [|m IH]; intros j sys fuel Hj Hf Hinv.
  - assert (j = round_count) as -> by lia. exists sys.
    unfold split_bin_loop. destruct fuel; cbn [run];
      rewrite (all_left_loop sys Hinv); done.
  - destruct fuel as [|fuel]; [lia|].
    assert (Hk : Z.of_nat (2 ^ j) < N) by (apply round_count_lt; lia).
    unfold split_bin_loop. cbn [run rounds].
    rewrite (none_left_loop j sys Hk Hinv).
    destruct (round_inv j sys Hk Hinv) as (sys1 & Hr & Hinv1).
    fold (split_bin_round PN). rewrite Hr, !bind_Ok.
    apply (IH (S j)); [lia|lia|done].
Qed.

Lemma rounds_inv k :
  (k ≤ round_count)%nat →
  ∃ sys0 sys,
    mapM (split_bin_init PN) (ring_calls c nb tr mbs outs mallocs) = Ok sys0
    ∧ rounds (split_bin_round PN) k sys0 = Ok sys ∧ sys_inv k sys.
Proof.
  intros Hk. destruct init_inv as (sys0 & Hinit & Hinv0).
  exists sys0.
  assert (G : ∀ m j sys, (j + m ≤ round_count)%nat → sys_inv j sys →
    ∃ sys', rounds (split_bin_round PN) m sys = Ok sys' ∧ sys_inv (j + m) sys').
  { induction m as [|m IH]; intros j sys Hj Hinv.
    - exists sys. by rewrite Nat.add_0_r.
    - assert (Hlt : Z.of_nat (2 ^ j) < N) by (apply round_count_lt; lia).
      destruct (round_inv j sys Hlt Hinv) as (sys1 & Hr & Hinv1).
      destruct (IH (S j) sys1) as (sys' & Hrs & Hinv'); [lia|done|].
      exists sys'. cbn [rounds]. rewrite Hr, bind_Ok.
      replace (j + S m)%nat with (S j + m)%nat by lia. done. }
  destruct (G k O sys0) as (sys & Hr & Hinv); [lia|done|]. eauto.
Qed.

Lemma same_bin_split i b :
  mbs !! i = Some b →
  same_bin b mbs =
  (same_bin b (take i mbs) + 1 + same_bin b (drop (S i) mbs))%nat.
Proof.
  intros E. unfold same_bin.
  rewrite <- (take_drop_middle mbs i b E) at 1.
  rewrite list.filter_app, filter_cons, decide_True by done.
  rewrite length_app. cbn. lia.
Qed.

Lemma cntR_final i :
  (i < length tr)%nat →
  cntR round_count i (bin_of i) =
  Z.of_nat (same_bin (bin_of i) (take i mbs)) + 1.
Proof.
  intros Hi. unfold cntR. pose proof round_count_ge.
  rewrite (count_from_left tr mbs) by (done || lia).
  replace (Z.to_nat (Z.of_nat i + 1)) with (S i) by lia.
  destruct (mbs !! i) as [b|] eqn:E;
    [|apply lookup_ge_None in E; lia].
  rewrite (take_S_r _ _ _ E), list.filter_app, length_app.
  unfold bin_of. rewrite E. cbn [default].
  rewrite filter_cons, decide_True by done. unfold same_bin. cbn. lia.
Qed.

Lemma cntL_final i :
  (i < length tr)%nat →
  cntL round_count i (bin_of i) =
  1 + Z.of_nat (same_bin (bin_of i) (drop (S i) mbs)).
Proof.
  intros Hi. unfold cntL. pose proof round_count_ge.
  rewrite (count_from_right tr mbs) by (done || lia).
  rewrite Nat2Z.id.
  destruct (mbs !! i) as [b|] eqn:E;
    [|apply lookup_ge_None in E; lia].
  rewrite (drop_S _ _ _ E). unfold bin_of. rewrite E. cbn [default].
  rewrite filter_cons, decide_True by done. unfold same_bin. cbn. lia.
Qed.

(** [*out] of the process at position [i], given what it noted as its
    neighbors. *)
Definition final_out (i : nat) (v : split_bin_vars) : lwgrp_ring :=
  if decide (0 ≤ bin_of i) then
    {| comm := c;
       comm_rank := ring_at tr (Z.of_nat i);
       comm_left :=
         (if decide (N = 1) then ring_at tr (Z.of_nat i) else my_left v);
       comm_right :=
         (if decide (N = 1) then ring_at tr (Z.of_nat i) else my_right v);
       group_rank := Z.of_nat (same_bin (bin_of i) (take i mbs));
       group_size := Z.of_nat (same_bin (bin_of i) mbs) |}
  else lwgrp_ring_set_null PN (outs i).

Lemma finish_inv i v :
  (i < length tr)%nat → proc_inv round_count i v →
  split_bin_finish PN v = Ok (LWGRP_SUCCESS, final_out i v).
Proof.
  intros Hi (Hnb & Hmb & Hin & Hout & HL & HR & HmL & HmR &
             Hdist & Hw & l & Hb & Hl & Hcells).
  pose proof (bin_of_range i) as Hrange. rewrite <- Hmb in Hrange.
  rewrite (split_bin_finish_ok PN nb nb_range v l Hnb Hrange Hb Hl).
  f_equal. f_equal. unfold final_out. rewrite Hmb.
  destruct (decide (0 ≤ bin_of i)) as [Hsign|Hsign]; [|by rewrite Hout].
  destruct (Hcells (bin_of i)) as (-> & _ & -> & _); [lia|].
  rewrite cntR_final, cntL_final by done.
  destruct (mbs !! i) as [b|] eqn:E;
    [|apply lookup_ge_None in E; lia].
  assert (Hb' : bin_of i = b) by (unfold bin_of; by rewrite E).
  pose proof (same_bin_split i b E) as Hsplit. rewrite Hb'.
  assert (Hle : (same_bin b mbs ≤ length mbs)%nat).
  { unfold same_bin. apply length_filter. }
  unfold ranks. rewrite Hin. cbn [ring_member comm comm_rank group_size].
  repeat match goal with
         | |- context [wrap ?z] =>
             rewrite (wrap_id z) by (unfold INT_MIN, INT_MAX; lia)
         end.
  f_equal; lia.
Qed.

Abbreviation calls := (ring_calls c nb tr mbs outs mallocs).

(** The collective call returns, and what it returns. *)
Lemma split_bin_ring_result fuel :
  (round_count ≤ fuel)%nat →
  ∃ sys0 sys res,
    mapM (split_bin_init PN) calls = Ok sys0
    ∧ rounds (split_bin_round PN) round_count sys0 = Ok sys
    ∧ sys_inv round_count sys
    ∧ lwgrp_ring_split_bin PN fuel calls = Ok res
    ∧ length res = length tr
    ∧ ∀ i x, res !! i = Some x →
        ∃ v, sys !! i = Some v ∧ x = (LWGRP_SUCCESS, final_out i v, v).
Proof.
  intros Hfuel. destruct init_inv as (sys0 & Hinit & Hinv0).
  destruct (loop_inv round_count O sys0 fuel) as (sys & Hloop & Hrounds & Hinv);
    [lia|done|done|].
  destruct (mapM_Ok_lookup (λ v, r ← split_bin_finish PN v; Ok (r, v)) sys)
    as (res & Hres & Hlen & Hlk).
  { intros i v Hv. destruct Hinv as [Hl Hall].
    rewrite (finish_inv i v); [rewrite bind_Ok; eauto| |by apply Hall].
    apply lookup_lt_Some in Hv. lia. }
  exists sys0, sys, res. unfold lwgrp_ring_split_bin.
  rewrite Hinit, bind_Ok, Hloop, bind_Ok, Hres.
  destruct Hinv as [Hl Hall].
  split; [done|]. split; [done|]. split; [done|]. split; [done|].
  split; [lia|]. intros i x Hx.
  destruct (sys !! i) as [v|] eqn:Hv.
  2:{ apply lookup_ge_None in Hv. apply lookup_lt_Some in Hx. lia. }
  exists v. split; [done|].
  destruct (Hlk i v Hv) as (y & Hy & Hfin). rewrite Hx in Hy.
  injection Hy as <-.
  rewrite (finish_inv i v) in Hfin; [|apply lookup_lt_Some in Hv; lia|by apply Hall].
  rewrite bind_Ok in Hfin. by injection Hfin as <-.
Qed.

Lemma bin_ranks_seq b (res : list (Z * lwgrp_ring * split_bin_vars)) :
  0 ≤ b → length res = length mbs →
  (∀ i x, res !! i = Some x →
     my_bin x.2 = bin_of i ∧
     (0 ≤ bin_of i →
      group_rank x.1.2 = Z.of_nat (same_bin (bin_of i) (take i mbs)))) →
  bin_ranks b res = Z.of_nat <$> seq 0 (same_bin b mbs).
Proof.
  intros Hb Hlen Hres.
  assert (G : ∀ n, (n ≤ length mbs)%nat →
    bin_ranks b (take n res) = Z.of_nat <$> seq 0 (same_bin b (take n mbs))).
  { induction n as [|n IH]; intros Hn; [done|].
    destruct (res !! n) as [x|] eqn:Hx;
      [|apply lookup_ge_None in Hx; lia].
    destruct (mbs !! n) as [b'|] eqn:Hb';
      [|apply lookup_ge_None in Hb'; lia].
    rewrite (take_S_r _ _ _ Hx), (take_S_r _ _ _ Hb').
    unfold bin_ranks, same_bin in *.
    rewrite omap_app, list.filter_app, length_app, IH by lia.
    destruct (Hres n x Hx) as [Hmb Hrk].
    assert (Hbin : bin_of n = b') by (unfold bin_of; by rewrite Hb').
    rewrite Hbin in Hmb, Hrk. cbn [omap list_omap]. rewrite Hmb.
    rewrite filter_cons, filter_nil.
    destruct (decide (b' = b)) as [->|Hne].
    - rewrite Hrk by done. cbn [length app].
      rewrite Nat.add_1_r, seq_S, fmap_app. done.
    - cbn [length]. by rewrite Nat.add_0_r, app_nil_r. }
  specialize (G (length mbs) ltac:(lia)).
  rewrite take_ge in G by lia. by rewrite take_ge in G by lia.
Qed.

(** *** The neighbors noted: the next member of the bin around the ring *)

Lemma nearest_found b s j (m n : nat) :
  (m < n)%nat →
  (∀ m' : nat, (m' < m)%nat → ring_bin mbs (j + s * Z.of_nat m') ≠ Some b) →
  ring_bin mbs (j + s * Z.of_nat m) = Some b →
  nearest PN tr mbs b s j n = ring_at tr (j + s * Z.of_nat m).
Proof.
  revert j m. induction n as [|n IH]; intros j m Hm Hfree Hhit; [lia|].
  cbn [nearest]. destruct m as [|m].
  - rewrite Z.mul_0_r, Z.add_0_r in *. by rewrite decide_True.
  - rewrite decide_False.
    2:{ specialize (Hfree O ltac:(lia)).
        by rewrite Z.mul_0_r, Z.add_0_r in Hfree. }
    replace (j + s * Z.of_nat (S m)) with (j + s + s * Z.of_nat m) in * by lia.
    apply IH; [lia| |done].
    intros m' Hm'. specialize (Hfree (S m') ltac:(lia)).
    by replace (j + s * Z.of_nat (S m')) with (j + s + s * Z.of_nat m')
      in Hfree by lia.
Qed.

Lemma same_bin_take_mono b p q :
  (p ≤ q)%nat → (same_bin b (take p mbs) ≤ same_bin b (take q mbs))%nat.
Proof.
  intros Hpq. unfold same_bin.
  rewrite <- (take_drop p (take q mbs)), take_take, Nat.min_l by lia.
  rewrite list.filter_app, length_app. lia.
Qed.

Lemma same_bin_take_lt b p q :
  (p < q)%nat → mbs !! p = Some b →
  (same_bin b (take p mbs) < same_bin b (take q mbs))%nat.
Proof.
  intros Hpq Hp. pose proof (same_bin_take_mono b (S p) q ltac:(lia)) as H.
  rewrite (take_S_r _ _ _ Hp) in H. unfold same_bin in *.
  rewrite list.filter_app, length_app, filter_cons, decide_True in H by done.
  cbn in H. lia.
Qed.

Lemma same_bin_take_last b p :
  mbs !! p = Some b → (same_bin b (take p mbs) < same_bin b mbs)%nat.
Proof. intros Hp. rewrite (same_bin_split p b Hp). lia. Qed.

Lemma ring_bin_lookup (a : Z) b :
  ring_bin mbs a = Some b → mbs !! Z.to_nat (a `mod` N) = Some b.
Proof.
  unfold ring_bin. rewrite mbs_length.
  pose proof (Z.mod_pos_bound a N ltac:(lia)).
  rewrite <- (Z2Nat.id (a `mod` N)) at 1 by lia. by rewrite zlookup_nat.
Qed.

(** No member of the bin lies between a member and the one with the
    next chain rank, going right around the ring. *)
Lemma no_member_between (i j : nat) b (m' : Z) :
  mbs !! i = Some b → mbs !! j = Some b →
  Z.of_nat (same_bin b (take j mbs)) =
    (Z.of_nat (same_bin b (take i mbs)) + 1) `mod` Z.of_nat (same_bin b mbs) →
  0 ≤ m' < (Z.of_nat j - Z.of_nat i - 1) `mod` N →
  ring_bin mbs (Z.of_nat i + 1 + m') ≠ Some b.
Proof.
  intros Hi Hj Hrk Hm' Hp%ring_bin_lookup.
  pose proof (lookup_lt_Some _ _ _ Hi) as Hi'.
  pose proof (lookup_lt_Some _ _ _ Hj) as Hj'.
  pose proof (same_bin_take_last b i Hi) as Hli.
  pose proof (same_bin_take_last b j Hj) as Hlj.
  set (ri := same_bin b (take i mbs)) in *.
  set (rj := same_bin b (take j mbs)) in *.
  set (sz := same_bin b mbs) in *.
  assert (Hnext : Z.of_nat rj = Z.of_nat ri + 1 ∨
                  (Z.of_nat rj = 0 ∧ Z.of_nat ri + 1 = Z.of_nat sz)).
  { destruct (decide (Z.of_nat ri + 1 < Z.of_nat sz)).
    - left. rewrite Z.mod_small in Hrk by lia. done.
    - right. replace (Z.of_nat ri + 1) with (Z.of_nat sz) in Hrk by lia.
      rewrite Z.mod_same in Hrk by lia. lia. }
  destruct (decide (i < j)%nat) as [Hij|Hij].
  - rewrite Z.mod_small in Hm' by lia.
    rewrite Z.mod_small in Hp by lia.
    pose proof (same_bin_take_lt b i (Z.to_nat (Z.of_nat i + 1 + m'))
                  ltac:(lia) Hi).
    pose proof (same_bin_take_lt b (Z.to_nat (Z.of_nat i + 1 + m')) j
                  ltac:(lia) Hp).
    fold ri in H. fold rj in H0. lia.
  - pose proof (same_bin_take_mono b j i ltac:(lia)) as Hji.
    fold ri rj in Hji.
    replace (Z.of_nat j - Z.of_nat i - 1)
      with (Z.of_nat j - Z.of_nat i - 1 + N + (-1) * N) in Hm' by lia.
    rewrite Z_mod_plus_full, Z.mod_small in Hm' by lia.
    destruct (decide (Z.of_nat i + 1 + m' < N)) as [Hlt|Hge].
    + rewrite Z.mod_small in Hp by lia.
      pose proof (same_bin_take_lt b i (Z.to_nat (Z.of_nat i + 1 + m'))
                    ltac:(lia) Hi).
      pose proof (same_bin_take_last b _ Hp).
      fold ri in H. fold sz in H0. lia.
    + replace (Z.of_nat i + 1 + m')
        with (Z.of_nat i + 1 + m' - N + 1 * N) in Hp by lia.
      rewrite Z_mod_plus_full, Z.mod_small in Hp by lia.
      pose proof (same_bin_take_lt b (Z.to_nat (Z.of_nat i + 1 + m' - N)) j
                    ltac:(lia) Hp).
      fold rj in H. lia.
Qed.

Lemma next_member_right (i j : nat) b :
  mbs !! i = Some b → mbs !! j = Some b → i ≠ j →
  Z.of_nat (same_bin b (take j mbs)) =
    (Z.of_nat (same_bin b (take i mbs)) + 1) `mod` Z.of_nat (same_bin b mbs) →
  nearest PN tr mbs b 1 (Z.of_nat i + 1) (2 ^ round_count - 1) =
  ring_at tr (Z.of_nat j).
Proof.
  intros Hi Hj Hne Hrk.
  pose proof (lookup_lt_Some _ _ _ Hi) as Hi'.
  pose proof (lookup_lt_Some _ _ _ Hj) as Hj'.
  pose proof round_count_ge as HK.
  set (m := (Z.of_nat j - Z.of_nat i - 1) `mod` N).
  pose proof (Z.mod_pos_bound (Z.of_nat j - Z.of_nat i - 1) N ltac:(lia)) as Hm.
  fold m in Hm.
  assert (Hm2 : m ≠ N - 1).
  { intros E. unfold m in E.
    assert ((Z.of_nat j - Z.of_nat i) `mod` N = 0) as H0.
    { replace (Z.of_nat j - Z.of_nat i)
        with (Z.of_nat j - Z.of_nat i - 1 + 1) by lia.
      rewrite <- Zplus_mod_idemp_l, E.
      replace (N - 1 + 1) with N by lia. apply Z.mod_same. lia. }
    destruct (decide (i < j)%nat).
    - rewrite Z.mod_small in H0 by lia. lia.
    - replace (Z.of_nat j - Z.of_nat i)
        with (Z.of_nat j - Z.of_nat i + N + (-1) * N) in H0 by lia.
      rewrite Z_mod_plus_full, Z.mod_small in H0 by lia. lia. }
  assert (Hpos : ring_at tr (Z.of_nat i + 1 + 1 * Z.of_nat (Z.to_nat m)) =
                 ring_at tr (Z.of_nat j)).
  { apply ring_at_congr. rewrite Z2Nat.id by lia. unfold m.
    rewrite Z.mul_1_l, Zplus_mod_idemp_r. f_equal. lia. }
  rewrite <- Hpos. apply nearest_found.
  - lia.
  - intros m' Hm'. rewrite Z.mul_1_l.
    apply (no_member_between i j b); [done..|]. fold m. lia.
  - unfold ring_bin. rewrite mbs_length.
    replace ((Z.of_nat i + 1 + 1 * Z.of_nat (Z.to_nat m)) `mod` N)
      with (Z.of_nat j).
    + by rewrite zlookup_nat.
    + rewrite Z2Nat.id by lia. unfold m.
      rewrite Z.mul_1_l, Zplus_mod_idemp_r.
      replace (Z.of_nat i + 1 + (Z.of_nat j - Z.of_nat i - 1))
        with (Z.of_nat j) by lia.
      rewrite Z.mod_small; lia.
Qed.

Lemma next_member_left (i j : nat) b :
  mbs !! i = Some b → mbs !! j = Some b → i ≠ j →
  Z.of_nat (same_bin b (take j mbs)) =
    (Z.of_nat (same_bin b (take i mbs)) + 1) `mod` Z.of_nat (same_bin b mbs) →
  nearest PN tr mbs b (-1) (Z.of_nat j - 1) (2 ^ round_count - 1) =
  ring_at tr (Z.of_nat i).
Proof.
  intros Hi Hj Hne Hrk.
  pose proof (lookup_lt_Some _ _ _ Hi) as Hi'.
  pose proof (lookup_lt_Some _ _ _ Hj) as Hj'.
  pose proof round_count_ge as HK.
  set (m := (Z.of_nat j - Z.of_nat i - 1) `mod` N).
  pose proof (Z.mod_pos_bound (Z.of_nat j - Z.of_nat i - 1) N ltac:(lia)) as Hm.
  fold m in Hm.
  assert (Hm2 : m ≠ N - 1).
  { intros E. unfold m in E.
    assert ((Z.of_nat j - Z.of_nat i) `mod` N = 0) as H0.
    { replace (Z.of_nat j - Z.of_nat i)
        with (Z.of_nat j - Z.of_nat i - 1 + 1) by lia.
      rewrite <- Zplus_mod_idemp_l, E.
      replace (N - 1 + 1) with N by lia. apply Z.mod_same. lia. }
    destruct (decide (i < j)%nat).
    - rewrite Z.mod_small in H0 by lia. lia.
    - replace (Z.of_nat j - Z.of_nat i)
        with (Z.of_nat j - Z.of_nat i + N + (-1) * N) in H0 by lia.
      rewrite Z_mod_plus_full, Z.mod_small in H0 by lia. lia. }
  assert (Hmod : ∀ x, (Z.of_nat j - 1 + -1 * x) `mod` N =
                      (Z.of_nat i + 1 + (m - 1 - x)) `mod` N).
  { intros x. unfold m.
    replace (Z.of_nat i + 1 + ((Z.of_nat j - Z.of_nat i - 1) `mod` N - 1 - x))
      with ((Z.of_nat j - Z.of_nat i - 1) `mod` N + (Z.of_nat i - x)) by lia.
    rewrite Zplus_mod_idemp_l. f_equal. lia. }
  assert (Hpos : ring_at tr (Z.of_nat j - 1 + -1 * Z.of_nat (Z.to_nat m)) =
                 ring_at tr (Z.of_nat i)).
  { apply ring_at_congr. rewrite Z2Nat.id, Hmod by lia. f_equal. lia. }
  rewrite <- Hpos. apply nearest_found.
  - lia.
  - intros m' Hm'.
    rewrite (ring_bin_congr tr mbs mbs_length _ _ (Hmod (Z.of_nat m'))).
    apply (no_member_between i j b); [done..|]. fold m. lia.
  - rewrite (ring_bin_congr tr mbs mbs_length _ _ (Hmod (Z.of_nat (Z.to_nat m)))).
    rewrite Z2Nat.id by lia.
    replace (Z.of_nat i + 1 + (m - 1 - m)) with (Z.of_nat i) by lia.
    unfold ring_bin. rewrite mbs_length, Z.mod_small by lia.
    by rewrite zlookup_nat.
Qed.
End split_bin_ring.


(** * The claims about [lwgrp_ring_split_bin] *)

Lemma round_count_log2 tr : (0 < length tr)%nat → round_count tr = log2_rounds (length tr).
Proof. intros H. unfold round_count, log2_rounds. by rewrite Z.max_r by lia. Qed.

Ltac ring_hyps H :=
  destruct H as (Hnodup & Hlen0 & Hnone & Hsize & Hmlen & Hmrange & Hnb0 & Hnbmax).

(** C1.  On a ring of callers, every process with [my_bin >= 0] gets a
    descriptor whose size is the number of processes that declared its
    bin and whose rank is the number of them strictly to its left; so the
    ranks of a bin's members, read in input order, are 0, 1, ...,
    size - 1. *)
Theorem split_bin_completeness PN c nb tr mbs outs mallocs fuel :
  ring_wf PN nb tr mbs → mallocs_succeed (length tr) mallocs →
  (log2_rounds (length tr) ≤ fuel)%nat →
  ∃ res,
    lwgrp_ring_split_bin PN fuel (ring_calls c nb tr mbs outs mallocs) = Ok res
    ∧ length res = length tr
    ∧ (∀ i b, mbs !! i = Some b → 0 ≤ b →
         ∃ r out v, res !! i = Some (r, out, v) ∧ my_bin v = b
           ∧ group_size out = Z.of_nat (same_bin b mbs)
           ∧ group_rank out = Z.of_nat (same_bin b (take i mbs)))
    ∧ (∀ b, 0 ≤ b → bin_ranks b res = Z.of_nat <$> seq 0 (same_bin b mbs)).
Proof.
  intros Hwf Hmalloc Hfuel. ring_hyps Hwf.
  rewrite <- round_count_log2 in Hfuel by done.
  edestruct (split_bin_ring_result PN c nb tr mbs outs mallocs)
    as (sys0 & sys & res & _ & _ & [Hl Hinv] & Hres & Hrlen & Hpt); [done..|].
  exists res. split; [done|]. split; [done|].
  assert (Hpt' : ∀ i x, res !! i = Some x →
    my_bin x.2 = bin_of mbs i ∧ x.1.2 = final_out PN c tr mbs outs i x.2).
  { intros i x Hx. destruct (Hpt i x Hx) as (v & Hv & ->). cbn.
    split; [|done]. by destruct (Hinv i v Hv) as (_ & -> & _). }
  split.
  - intros i b Hb Hsign.
    destruct (res !! i) as [[[r out] v]|] eqn:Hx.
    2:{ apply lookup_ge_None in Hx. apply lookup_lt_Some in Hb. lia. }
    destruct (Hpt' _ _ Hx) as [Hmb Hout]. cbn in Hmb, Hout.
    assert (Hbin : bin_of mbs i = b) by (unfold bin_of; by rewrite Hb).
    exists r, out, v. split; [done|]. split; [congruence|].
    rewrite Hout. unfold final_out. rewrite Hbin, decide_True by done. done.
  - intros b Hsign.
    apply (bin_ranks_seq tr mbs Hlen0 Hmlen b res Hsign); [lia|].
    intros i x Hx. destruct (Hpt' _ _ Hx) as [Hmb Hout]. split; [done|].
    intros Hs. rewrite Hout. unfold final_out. by rewrite decide_True by done.
Qed.

(** C5.  On a ring of [N] callers the loop runs exactly
    [ceil (log2 (max 1 N))] rounds: after [k] of them every process has
    [dist = 2 ^ k] and has completed [k] wait-alls, and its loop condition
    holds exactly while [k] is below that number; the call returns with
    that many wait-alls completed by every process, none when [N = 1]. *)
Theorem split_bin_round_count PN c nb tr mbs outs mallocs fuel :
  ring_wf PN nb tr mbs → mallocs_succeed (length tr) mallocs →
  (log2_rounds (length tr) ≤ fuel)%nat →
  (∀ k, (k ≤ log2_rounds (length tr))%nat →
     ∃ sys,
       split_bin_after PN k (ring_calls c nb tr mbs outs mallocs) = Ok sys
       ∧ length sys = length tr
       ∧ Forall (λ v, dist v = 2 ^ Z.of_nat k ∧ waitalls v = k ∧
                      split_bin_cond v =
                        bool_decide (k < log2_rounds (length tr))%nat) sys)
  ∧ (∃ res,
       lwgrp_ring_split_bin PN fuel (ring_calls c nb tr mbs outs mallocs) = Ok res
       ∧ length res = length tr
       ∧ Forall (λ x, waitalls x.2 = log2_rounds (length tr)) res)
  ∧ (length tr = 1%nat → log2_rounds (length tr) = O).
Proof.
  intros Hwf Hmalloc Hfuel. ring_hyps Hwf.
  rewrite <- round_count_log2 in * by done.
  split; [|split].
  - intros k Hk.
    edestruct (rounds_inv PN c nb tr mbs outs mallocs)
      as (sys0 & sys & Hinit & Hrounds & [Hl Hinv]); [done..|exact Hk|].
    exists sys. unfold split_bin_after. rewrite Hinit, bind_Ok.
    split; [done|]. split; [done|].
    apply Forall_lookup. intros i v Hv.
    pose proof (cond_inv PN c nb tr mbs outs k i v (Hinv i v Hv)) as Hc.
    destruct (Hinv i v Hv) as (_ & _ & _ & _ & _ & _ & _ & _ & Hd & Hw & _).
    split; [|split; [done|]].
    + rewrite Hd, Nat2Z.inj_pow. done.
    + rewrite Hc. apply bool_decide_ext. split.
      * intros Hlt. destruct (decide (k < round_count tr)%nat); [done|].
        assert (k = round_count tr) as -> by lia.
        pose proof (round_count_ge tr mbs Hlen0 Hmlen) as HK. lia.
      * by apply (round_count_lt tr mbs).
  - edestruct (split_bin_ring_result PN c nb tr mbs outs mallocs)
      as (sys0 & sys & res & _ & _ & [Hl Hinv] & Hres & Hrlen & Hpt); [done..|].
    exists res. split; [done|]. split; [done|].
    apply Forall_lookup. intros i x Hx.
    destruct (Hpt i x Hx) as (v & Hv & ->). cbn.
    by destruct (Hinv i v Hv) as (_ & _ & _ & _ & _ & _ & _ & _ & _ & Hw & _).
  - intros E. unfold round_count. by rewrite E.
Qed.


(** ** The scenarios of the specification, as inputs *)

Definition blank : lwgrp_ring :=
  {| comm := 0; comm_rank := 0; comm_left := 0; comm_right := 0;
     group_rank := 0; group_size := 0 |}.

Definition zeroed : nat → option (nat → Z) := λ _, Some (λ _, 0).

Ltac solve_wf :=
  unfold ring_wf, INT_MAX;
  repeat split;
  first [ lia
        | cbn; lia
        | apply (bool_decide_unpack _); vm_compute; exact I ].

Lemma split_bin_completeness_witness :
  ring_wf (-1) 2 [10; 11; 12; 13] [0; 1; 0; 1]
  ∧ ∃ res,
      lwgrp_ring_split_bin (-1) 2
        (ring_calls 5 2 [10; 11; 12; 13] [0; 1; 0; 1] (λ _, blank) zeroed) = Ok res
      ∧ length res = 4%nat
      ∧ (∀ i b, [0; 1; 0; 1] !! i = Some b → 0 ≤ b →
           ∃ r out v, res !! i = Some (r, out, v) ∧ my_bin v = b
             ∧ group_size out = Z.of_nat (same_bin b [0; 1; 0; 1])
             ∧ group_rank out = Z.of_nat (same_bin b (take i [0; 1; 0; 1])))
      ∧ (∀ b, 0 ≤ b →
           bin_ranks b res = Z.of_nat <$> seq 0 (same_bin b [0; 1; 0; 1])).
Proof.
  assert (Hwf : ring_wf (-1) 2 [10; 11; 12; 13] [0; 1; 0; 1]) by solve_wf.
  split; [exact Hwf|].
  apply (split_bin_completeness (-1) 5 2 [10; 11; 12; 13] [0; 1; 0; 1]
           (λ _, blank) zeroed 2 Hwf).
  - intros i _. unfold zeroed. eauto.
  - vm_compute. lia.
Defined.

Lemma split_bin_round_count_witness :
  ring_wf (-1) 3 [0; 1; 2; 3; 4] [2; 2; -1; 2; -1]
  ∧ (∃ res,
       lwgrp_ring_split_bin (-1) 3
         (ring_calls 5 3 [0; 1; 2; 3; 4] [2; 2; -1; 2; -1] (λ _, blank) zeroed)
       = Ok res
       ∧ length res = 5%nat
       ∧ Forall (λ x, waitalls x.2 = 3%nat) res).
Proof.
  assert (Hwf : ring_wf (-1) 3 [0; 1; 2; 3; 4] [2; 2; -1; 2; -1]) by solve_wf.
  split; [exact Hwf|].
  refine (proj1 (proj2 (split_bin_round_count (-1) 5 3 [0; 1; 2; 3; 4]
                          [2; 2; -1; 2; -1] (λ _, blank) zeroed 3 Hwf _ _))).
  - intros i _. unfold zeroed. eauto.
  - vm_compute. lia.
Defined.


(** ** Chains that end in NONE, and rings too large for [int]

    The code takes a [lwgrp_ring].  On a chain whose head and tail have
    NONE as a neighbor, the receive from NONE of the first round leaves
    the receive buffer as the allocator gave it, and lines 118, 137 and
    156 read it: the end's next neighbor is whatever the block held. *)

(** A block that held 7 in every int. *)
Definition sevens : nat → option (nat → Z) := λ _, Some (λ _, 7).

(** C1, counterexample.  The chain of four processes at transport ranks
    10 to 13 with bins 0, 1, 0, 1, ending in NONE on both sides: the
    descriptors are chains as the specification has them, and the
    collective call returns for no step bound, so no process obtains an
    output descriptor; with the two rounds of a chain of four, the second
    wait-all cannot complete. *)
Lemma split_bin_chain_counterexample :
  Forall (chain_ends (-1)) (chain_member (-1) 5 [10; 11; 12; 13] <$> seq 0 4)
  ∧ lwgrp_ring_split_bin (-1) 2
      (chain_calls (-1) 5 2 [10; 11; 12; 13] [0; 1; 0; 1] (λ _, blank) sevens)
    = Err Stuck
  ∧ ∀ fuel res,
      lwgrp_ring_split_bin (-1) fuel
        (chain_calls (-1) 5 2 [10; 11; 12; 13] [0; 1; 0; 1] (λ _, blank) sevens)
      ≠ Ok res.
Proof.
  split; [|split].
  - cbn [fmap list_fmap seq].
    repeat (apply Forall_cons; [vm_compute; repeat split; intros; done|]).
    apply Forall_nil.
  - vm_compute. reflexivity.
  - intros fuel res.
    destruct fuel as [|[|fuel]]; vm_compute; discriminate.
Qed.

(** A caller of a group of [2 ^ 30 + 1] processes, at the round in which
    [dist] is [2 ^ 30]. *)
Definition late_round : split_bin_vars :=
  {| num_bins := 1; my_bin := 0;
     ring_in := {| comm := 5; comm_rank := 0; comm_left := 1; comm_right := 2;
                   group_rank := 0; group_size := 2 ^ 30 + 1 |};
     ring_out := blank;
     bins := Some [1; 0; 0; 0; 0; 0; 1; 0; 0; 0; 0; 0];
     left_rank := 1; right_rank := 2;
     my_left := 0; my_right := 0; dist := 2 ^ 30; waitalls := 30 |}.

(** C5, counterexample.  The chain of five processes at transport ranks
    0 to 4 with bins 2, 2, -1, 2, -1, ending in NONE on both sides: after
    the first round every process is still in the loop, and the wait-all
    of the second round cannot complete, so no process completes the three
    rounds of a chain of five.  And in a group of [2 ^ 30 + 1] processes
    [dist <<= 1] takes [dist] from [2 ^ 30] to [INT_MIN] and then to 0,
    where it stays: the loop condition [dist < ranks] holds for ever. *)
Lemma split_bin_rounds_counterexample :
  (∃ sys1,
     split_bin_after (-1) 1
       (chain_calls (-1) 5 3 [0; 1; 2; 3; 4] [2; 2; -1; 2; -1] (λ _, blank)
          sevens) = Ok sys1
     ∧ Forall (λ v, split_bin_cond v = true ∧ waitalls v = 1%nat) sys1
     ∧ split_bin_round (-1) sys1 = Err Stuck)
  ∧ (∃ v1 v2 v3,
       split_bin_wait (-1) late_round (Some [0; 0; 3]) (Some [0; 0; 4]) = Ok v1
       ∧ dist v1 = INT_MIN ∧ split_bin_cond v1 = true
       ∧ split_bin_wait (-1) v1 (Some [0; 0; 3]) (Some [0; 0; 4]) = Ok v2
       ∧ dist v2 = 0 ∧ split_bin_cond v2 = true
       ∧ split_bin_wait (-1) v2 (Some [0; 0; 3]) (Some [0; 0; 4]) = Ok v3
       ∧ dist v3 = 0 ∧ split_bin_cond v3 = true).
Proof.
  split.
  - eexists. split; [vm_compute; reflexivity|].
    split; [repeat constructor|vm_compute; reflexivity].
  - eexists _, _, _.
    split; [vm_compute; reflexivity|]. split; [reflexivity|].
    split; [reflexivity|].
    split; [vm_compute; reflexivity|]. split; [reflexivity|].
    split; [reflexivity|].
    split; [vm_compute; reflexivity|]. split; reflexivity.
Qed.

(** * Further properties of [lwgrp_ring_split_bin] *)

Lemma ring_links PN c nb tr mbs outs mallocs fuel :
  ring_wf PN nb tr mbs → mallocs_succeed (length tr) mallocs →
  (log2_rounds (length tr) ≤ fuel)%nat →
  ∃ res,
    lwgrp_ring_split_bin PN fuel (ring_calls c nb tr mbs outs mallocs) = Ok res
    ∧ ∀ i j b ri oi vi rj oj vj,
        mbs !! i = Some b → mbs !! j = Some b → 0 ≤ b →
        (2 ≤ same_bin b mbs)%nat →
        res !! i = Some (ri, oi, vi) → res !! j = Some (rj, oj, vj) →
        group_rank oj = (group_rank oi + 1) `mod` group_size oi →
        comm_right oi = comm_rank oj ∧ comm_left oj = comm_rank oi
        ∧ comm_right oi ≠ PN ∧ comm_left oj ≠ PN
        ∧ comm oi = c ∧ comm_rank oi = ring_at tr (Z.of_nat i).
Proof.
  intros Hwf Hmalloc Hfuel. ring_hyps Hwf.
  rewrite <- round_count_log2 in * by done.
  edestruct (split_bin_ring_result PN c nb tr mbs outs mallocs)
    as (sys0 & sys & res & _ & _ & [Hl Hinv] & Hres & Hrlen & Hpt); [done..|].
  exists res. split; [done|].
  intros i j b ri oi vi rj oj vj Hi Hj Hsign Hsz Hri Hrj Hrk.
  destruct (Hpt i _ Hri) as (vi' & Hvi & [= -> -> <-]).
  destruct (Hpt j _ Hrj) as (vj' & Hvj & [= -> -> <-]).
  assert (Hbi : bin_of mbs i = b) by (unfold bin_of; by rewrite Hi).
  assert (Hbj : bin_of mbs j = b) by (unfold bin_of; by rewrite Hj).
  pose proof (same_bin_take_last tr mbs) as Hlast.
  assert (HN : Z.of_nat (length tr) ≠ 1).
  { pose proof (length_filter (λ x, x = b) mbs). unfold same_bin in Hsz. lia. }
  unfold final_out in Hrk |- *. rewrite Hbi, Hbj in Hrk |- *.
  rewrite !(decide_True (P := 0 ≤ b)) in Hrk by done.
  rewrite !(decide_True (P := 0 ≤ b)) by done.
  rewrite !(decide_False (P := Z.of_nat (length tr) = 1)) by done.
  cbn [comm comm_rank comm_left comm_right group_rank group_size] in Hrk |- *.
  assert (Hij : i ≠ j).
  { intros ->. pose proof (same_bin_take_last tr mbs Hlen0 Hmlen b j Hj).
    destruct (decide (Z.of_nat (same_bin b (take j mbs)) + 1
                      < Z.of_nat (same_bin b mbs))).
    - rewrite Z.mod_small in Hrk by lia. lia.
    - replace (Z.of_nat (same_bin b (take j mbs)) + 1)
        with (Z.of_nat (same_bin b mbs)) in Hrk by lia.
      rewrite Z.mod_same in Hrk by lia. lia. }
  destruct (Hinv i vi Hvi) as (_ & _ & _ & _ & _ & _ & _ & HmR & _).
  destruct (Hinv j vj Hvj) as (_ & _ & _ & _ & _ & _ & HmL & _).
  rewrite HmR, HmL. unfold myR, myL. rewrite Hbi, Hbj, !decide_True by done.
  rewrite (next_member_right PN tr mbs Hlen0 Hmlen i j b) by done.
  rewrite (next_member_left PN tr mbs Hlen0 Hmlen i j b) by done.
  repeat split; try done.
  - apply (ring_at_not_none PN tr); done.
  - apply (ring_at_not_none PN tr); done.
Qed.

(** The groups that come out are rings.  In a bin with at least two
    members, the right neighbor of the member with chain rank [r] is the
    transport rank of the member with chain rank [(r + 1) mod size], and
    that member's left neighbor is the former; neither is the sentinel.
    The descriptor keeps the communicator and the transport rank of the
    input. *)
Theorem split_bin_ring_links PN c nb tr mbs outs mallocs fuel :
  ring_wf PN nb tr mbs → mallocs_succeed (length tr) mallocs →
  (log2_rounds (length tr) ≤ fuel)%nat →
  ∃ res,
    lwgrp_ring_split_bin PN fuel (ring_calls c nb tr mbs outs mallocs) = Ok res
    ∧ ∀ i j b ri oi vi rj oj vj,
        mbs !! i = Some b → mbs !! j = Some b → 0 ≤ b →
        (2 ≤ same_bin b mbs)%nat →
        res !! i = Some (ri, oi, vi) → res !! j = Some (rj, oj, vj) →
        group_rank oj = (group_rank oi + 1) `mod` group_size oi →
        comm_right oi = comm_rank oj ∧ comm_left oj = comm_rank oi
        ∧ comm_right oi ≠ PN ∧ comm_left oj ≠ PN
        ∧ comm oi = c ∧ comm_rank oi = ring_at tr (Z.of_nat i).
Proof. exact (ring_links PN c nb tr mbs outs mallocs fuel). Qed.

Lemma nearest_none none tr mbs b s j n :
  (∀ m : nat, (m < n)%nat → ring_bin mbs (j + s * Z.of_nat m) ≠ Some b) →
  nearest none tr mbs b s j n = none.
Proof.
  revert j. induction n as [|n IH]; intros j Hfree; [done|].
  cbn [nearest]. rewrite decide_False.
  2:{ specialize (Hfree O ltac:(lia)). by rewrite Z.mul_0_r, Z.add_0_r in Hfree. }
  apply IH. intros m Hm. specialize (Hfree (S m) ltac:(lia)).
  by replace (j + s * Z.of_nat (S m)) with (j + s + s * Z.of_nat m) in Hfree by lia.
Qed.

Lemma lone_member (tr mbs : list Z) b i p :
  (0 < length tr)%nat → length mbs = length tr →
  same_bin b mbs = 1%nat → mbs !! i = Some b → mbs !! p = Some b → p = i.
Proof.
  intros Hlen0 Hmlen Hone Hi Hp.
  pose proof (same_bin_take_last tr mbs Hlen0 Hmlen b i Hi).
  pose proof (same_bin_take_last tr mbs Hlen0 Hmlen b p Hp).
  destruct (decide (p < i)%nat).
  { pose proof (same_bin_take_lt tr mbs Hlen0 Hmlen b p i ltac:(lia) Hp). lia. }
  destruct (decide (i < p)%nat); [|lia].
  pose proof (same_bin_take_lt tr mbs Hlen0 Hmlen b i p ltac:(lia) Hi). lia.
Qed.

(** Around a member alone in its bin, the [n ≤ N - 1] ring positions
    next to it, on either side, hold no member. *)
Lemma lone_member_free (tr mbs : list Z) b (i : nat) s (m : nat) :
  (0 < length tr)%nat → length mbs = length tr →
  same_bin b mbs = 1%nat → mbs !! i = Some b →
  s = 1 ∨ s = -1 → (m < length tr - 1)%nat →
  ring_bin mbs (Z.of_nat i + s + s * Z.of_nat m) ≠ Some b.
Proof.
  intros Hlen0 Hmlen Hone Hi Hs Hm Hp.
  apply (ring_bin_lookup tr mbs Hlen0 Hmlen) in Hp.
  pose proof (lone_member tr mbs b i _ Hlen0 Hmlen Hone Hi Hp) as E.
  pose proof (lookup_lt_Some _ _ _ Hi) as Hi'.
  set (N := Z.of_nat (length tr)) in *.
  assert (Hmod : (Z.of_nat i + s + s * Z.of_nat m) `mod` N = Z.of_nat i).
  { pose proof (Z.mod_pos_bound (Z.of_nat i + s + s * Z.of_nat m) N ltac:(lia)).
    lia. }
  clear E Hp. destruct Hs as [-> | ->].
  - destruct (decide (Z.of_nat i + 1 + 1 * Z.of_nat m < N)).
    + rewrite Z.mod_small in Hmod by lia. lia.
    + replace (Z.of_nat i + 1 + 1 * Z.of_nat m)
        with (Z.of_nat i + 1 + Z.of_nat m - N + 1 * N) in Hmod by lia.
      rewrite Z_mod_plus_full, Z.mod_small in Hmod by lia. lia.
  - destruct (decide (0 ≤ Z.of_nat i + -1 + -1 * Z.of_nat m)).
    + rewrite Z.mod_small in Hmod by lia. lia.
    + replace (Z.of_nat i + -1 + -1 * Z.of_nat m)
        with (Z.of_nat i - 1 - Z.of_nat m + N + (-1) * N) in Hmod by lia.
      rewrite Z_mod_plus_full, Z.mod_small in Hmod by lia. lia.
Qed.

(** A member alone in its bin.  It is its own neighbor on both sides
    when the ring has one process or a size that is no power of two; when
    the size is a power of two, two or more, the scans stop one position
    short of coming round to it, and both its neighbors are the
    sentinel. *)
Theorem split_bin_lone_member PN c nb tr mbs outs mallocs fuel :
  ring_wf PN nb tr mbs → mallocs_succeed (length tr) mallocs →
  (log2_rounds (length tr) ≤ fuel)%nat →
  ∃ res,
    lwgrp_ring_split_bin PN fuel (ring_calls c nb tr mbs outs mallocs) = Ok res
    ∧ ∀ i b r out v,
        mbs !! i = Some b → 0 ≤ b → same_bin b mbs = 1%nat →
        res !! i = Some (r, out, v) →
        group_size out = 1 ∧ group_rank out = 0
        ∧ (length tr = 1%nat ∨ (2 ^ log2_rounds (length tr) ≠ length tr)%nat →
           comm_left out = ring_at tr (Z.of_nat i)
           ∧ comm_right out = ring_at tr (Z.of_nat i))
        ∧ ((2 ≤ length tr)%nat →
           (2 ^ log2_rounds (length tr) = length tr)%nat →
           comm_left out = PN ∧ comm_right out = PN).
Proof.
  intros Hwf Hmalloc Hfuel. ring_hyps Hwf.
  rewrite <- round_count_log2 in * by done.
  edestruct (split_bin_ring_result PN c nb tr mbs outs mallocs)
    as (sys0 & sys & res & _ & _ & [Hl Hinv] & Hres & Hrlen & Hpt); [done..|].
  exists res. split; [done|].
  intros i b r out v Hi Hsign Hone Hr.
  destruct (Hpt i _ Hr) as (v' & Hv & [= -> -> <-]).
  assert (Hbi : bin_of mbs i = b) by (unfold bin_of; by rewrite Hi).
  pose proof (same_bin_take_last tr mbs Hlen0 Hmlen b i Hi) as Hlast.
  pose proof (lookup_lt_Some _ _ _ Hi) as Hi'.
  pose proof (round_count_ge tr mbs Hlen0 Hmlen) as HK.
  destruct (Hinv i v Hv) as (_ & _ & _ & _ & _ & _ & HmL & HmR & _).
  unfold final_out. rewrite Hbi, (decide_True (P := 0 ≤ b)) by done.
  cbn [comm comm_rank comm_left comm_right group_rank group_size].
  rewrite HmL, HmR. unfold myL, myR.
  rewrite Hbi, !(decide_True (P := 0 ≤ b)) by done.
  split; [lia|]. split; [lia|]. split.
  - intros [H1|Hnp].
    { rewrite !decide_True by lia. done. }
    destruct (decide (Z.of_nat (length tr) = 1)) as [|HN]; [done|].
    assert (HK' : Z.of_nat (length tr) < Z.of_nat (2 ^ round_count tr)) by lia.
    assert (Hback : ∀ s, s = 1 ∨ s = -1 →
      nearest PN tr mbs b s (Z.of_nat i + s) (2 ^ round_count tr - 1) =
      ring_at tr (Z.of_nat i)).
    { intros s Hs.
      transitivity (ring_at tr (Z.of_nat i + s
                      + s * Z.of_nat (length tr - 1))).
      - apply (nearest_found PN tr mbs Hlen0 Hmlen); [lia| |].
        + intros m' Hm'. by apply (lone_member_free tr mbs b i s m').
        + rewrite (ring_bin_congr tr mbs Hmlen _ (Z.of_nat i)).
          * unfold ring_bin. rewrite Hmlen, Z.mod_small by lia.
            by rewrite zlookup_nat.
          * destruct Hs as [-> | ->].
            -- replace (Z.of_nat i + 1 + 1 * Z.of_nat (length tr - 1))
                 with (Z.of_nat i + 1 * Z.of_nat (length tr)) by lia.
               by rewrite Z_mod_plus_full.
            -- replace (Z.of_nat i + -1 + -1 * Z.of_nat (length tr - 1))
                 with (Z.of_nat i + (-1) * Z.of_nat (length tr)) by lia.
               by rewrite Z_mod_plus_full.
      - apply ring_at_congr. destruct Hs as [-> | ->].
        + replace (Z.of_nat i + 1 + 1 * Z.of_nat (length tr - 1))
            with (Z.of_nat i + 1 * Z.of_nat (length tr)) by lia.
          by rewrite Z_mod_plus_full.
        + replace (Z.of_nat i + -1 + -1 * Z.of_nat (length tr - 1))
            with (Z.of_nat i + (-1) * Z.of_nat (length tr)) by lia.
          by rewrite Z_mod_plus_full. }
    split.
    + apply (Hback (-1)). by right.
    + apply (Hback 1). by left.
  - intros H2 Hp.
    rewrite !(decide_False (P := Z.of_nat (length tr) = 1)) by lia.
    split.
    + apply nearest_none. intros m Hm.
      apply (lone_member_free tr mbs b i (-1) m); auto. lia.
    + apply nearest_none. intros m Hm.
      apply (lone_member_free tr mbs b i 1 m); auto. lia.
Qed.

Lemma count_from_le_left (tr mbs : list Z) b (i n : nat) :
  (0 < length tr)%nat → length mbs = length tr → (i < length tr)%nat →
  count_from mbs b (Z.of_nat i - Z.of_nat n + 1) n
  ≤ Z.of_nat (same_bin b (take (S i) mbs)).
Proof.
  intros Hlen0 Hmlen Hi. destruct (decide (S i ≤ n)%nat) as [Hn|Hn].
  - rewrite (count_from_left tr mbs Hlen0 Hmlen) by lia.
    replace (Z.to_nat (Z.of_nat i + 1)) with (S i) by lia. done.
  - replace (Z.of_nat i - Z.of_nat n + 1) with (Z.of_nat (S i - n)) by lia.
    rewrite (count_from_take_drop tr mbs Hlen0 Hmlen). unfold same_bin.
    assert (E : take n (drop (S i - n) mbs) = drop (S i - n) (take (S i) mbs)).
    { rewrite take_drop_commute. do 2 f_equal. lia. }
    rewrite E. rewrite <- (take_drop (S i - n) (take (S i) mbs)) at 2.
    rewrite list.filter_app, length_app. lia.
Qed.

Lemma count_from_le_right (tr mbs : list Z) b (i n : nat) :
  (0 < length tr)%nat → length mbs = length tr →
  count_from mbs b (Z.of_nat i) n ≤ Z.of_nat (same_bin b (drop i mbs)).
Proof.
  intros Hlen0 Hmlen.
  rewrite (count_from_take_drop tr mbs Hlen0 Hmlen). unfold same_bin.
  rewrite <- (take_drop n (drop i mbs)) at 2.
  rewrite list.filter_app, length_app. lia.
Qed.

Lemma scan_invariant PN c nb tr mbs outs mallocs k :
  ring_wf PN nb tr mbs → mallocs_succeed (length tr) mallocs →
  (k ≤ log2_rounds (length tr))%nat →
  ∃ sys,
    split_bin_after PN k (ring_calls c nb tr mbs outs mallocs) = Ok sys
    ∧ length sys = length tr
    ∧ ∀ i v b, sys !! i = Some v → 0 ≤ b < nb →
        cell v (send_right_bins v) b INDEX_CLOSEST =
          Some (nearest PN tr mbs b (-1) (Z.of_nat i) (2 ^ k))
        ∧ cell v (send_left_bins v) b INDEX_CLOSEST =
            Some (nearest PN tr mbs b 1 (Z.of_nat i) (2 ^ k))
        ∧ cell v (send_right_bins v) b INDEX_COUNT =
            Some (count_from mbs b (Z.of_nat i - Z.of_nat (2 ^ k) + 1) (2 ^ k))
        ∧ cell v (send_left_bins v) b INDEX_COUNT =
            Some (count_from mbs b (Z.of_nat i) (2 ^ k))
        ∧ count_from mbs b (Z.of_nat i - Z.of_nat (2 ^ k) + 1) (2 ^ k)
          ≤ Z.of_nat (same_bin b (take (S i) mbs))
        ∧ count_from mbs b (Z.of_nat i) (2 ^ k)
          ≤ Z.of_nat (same_bin b (drop i mbs)).
Proof.
  intros Hwf Hmalloc Hk. ring_hyps Hwf.
  rewrite <- round_count_log2 in * by done.
  edestruct (rounds_inv PN c nb tr mbs outs mallocs)
    as (sys0 & sys & Hinit & Hrounds & [Hl Hinv]); [done..|exact Hk|].
  exists sys. unfold split_bin_after. rewrite Hinit, bind_Ok.
  split; [done|]. split; [done|].
  intros i v b Hv Hb.
  destruct (Hinv i v Hv) as (Hnb & _ & _ & _ & _ & _ & _ & _ & _ & _ &
                              l & Hbins & Hlen & Hcells).
  destruct (offsets nb (conj Hnb0 Hnbmax) v Hnb)
    as (_ & _ & Hsl & _ & Hsr & _ & _).
  destruct (Hcells b Hb) as (HcL & HoL & HcR & HoR).
  unfold cell, INDEX_CLOSEST, INDEX_COUNT. rewrite Hbins, Hsl, Hsr. cbn.
  rewrite !zlookup_Some by lia.
  rewrite !Z.add_0_r, !Z.add_0_l, !Z.add_assoc.
  rewrite HcL, HoL, HcR, HoR.
  pose proof (lookup_lt_Some _ _ _ Hv).
  split; [done|]. split; [done|]. split; [done|]. split; [done|].
  split.
  - apply (count_from_le_left tr mbs); [done..|lia].
  - by apply (count_from_le_right tr mbs).
Qed.

(** What the two scans have gathered after [k] rounds.  At the process
    at position [i], for every bin: the closest rank of the right-going
    buffer is the first member of the bin met going left around the ring
    from [i] (itself included) within [2 ^ k] positions, or the sentinel
    when there is none, and the same to the right for the left-going
    buffer; the counts are those of the members among the [2 ^ k]
    positions up to [i], and from [i] on, that lie on the chain between
    its head and its tail: no position is counted past either end, so a
    count never exceeds the number of members on that side. *)
Theorem split_bin_scan_invariant PN c nb tr mbs outs mallocs k :
  ring_wf PN nb tr mbs → mallocs_succeed (length tr) mallocs →
  (k ≤ log2_rounds (length tr))%nat →
  ∃ sys,
    split_bin_after PN k (ring_calls c nb tr mbs outs mallocs) = Ok sys
    ∧ length sys = length tr
    ∧ ∀ i v b, sys !! i = Some v → 0 ≤ b < nb →
        cell v (send_right_bins v) b INDEX_CLOSEST =
          Some (nearest PN tr mbs b (-1) (Z.of_nat i) (2 ^ k))
        ∧ cell v (send_left_bins v) b INDEX_CLOSEST =
            Some (nearest PN tr mbs b 1 (Z.of_nat i) (2 ^ k))
        ∧ cell v (send_right_bins v) b INDEX_COUNT =
            Some (count_from mbs b (Z.of_nat i - Z.of_nat (2 ^ k) + 1) (2 ^ k))
        ∧ cell v (send_left_bins v) b INDEX_COUNT =
            Some (count_from mbs b (Z.of_nat i) (2 ^ k))
        ∧ count_from mbs b (Z.of_nat i - Z.of_nat (2 ^ k) + 1) (2 ^ k)
          ≤ Z.of_nat (same_bin b (take (S i) mbs))
        ∧ count_from mbs b (Z.of_nat i) (2 ^ k)
          ≤ Z.of_nat (same_bin b (drop i mbs)).
Proof. exact (scan_invariant PN c nb tr mbs outs mallocs k). Qed.

Lemma same_bin_take_ext b (l l' : list Z) n :
  length l = length l' →
  (∀ j, l !! j = Some b ↔ l' !! j = Some b) →
  same_bin b (take n l) = same_bin b (take n l').
Proof.
  intros Hlen Hiff. induction n as [|n IH]; [done|].
  destruct (l !! n) as [x|] eqn:Hx.
  - destruct (l' !! n) as [x'|] eqn:Hx'.
    2:{ apply lookup_ge_None in Hx'. apply lookup_lt_Some in Hx. lia. }
    rewrite (take_S_r _ _ _ Hx), (take_S_r _ _ _ Hx'). unfold same_bin in *.
    rewrite !list.filter_app, !length_app, IH. f_equal.
    rewrite !filter_cons, !filter_nil.
    destruct (decide (x = b)) as [->|Hne].
    + apply Hiff in Hx. rewrite Hx' in Hx. injection Hx as ->.
      by rewrite decide_True.
    + rewrite decide_False; [done|]. intros ->.
      apply Hiff in Hx'. rewrite Hx in Hx'. by injection Hx'.
  - apply lookup_ge_None in Hx. rewrite !take_ge by lia.
    rewrite !take_ge in IH by lia. done.
Qed.

Lemma same_bin_ext b (l l' : list Z) :
  length l = length l' →
  (∀ j, l !! j = Some b ↔ l' !! j = Some b) →
  same_bin b l = same_bin b l'.
Proof.
  intros Hlen Hiff.
  rewrite <- (take_ge l (length l)), <- (take_ge l' (length l)) by lia.
  by apply same_bin_take_ext.
Qed.

Lemma nearest_ext none tr (mbs mbs' : list Z) b s j n :
  length mbs = length mbs' →
  (∀ j, mbs !! j = Some b ↔ mbs' !! j = Some b) →
  nearest none tr mbs b s j n = nearest none tr mbs' b s j n.
Proof.
  intros Hlen Hiff. revert j. induction n as [|n IH]; intros j; [done|].
  cbn [nearest]. rewrite IH.
  assert (E : ring_bin mbs j = Some b ↔ ring_bin mbs' j = Some b).
  { unfold ring_bin. rewrite <- Hlen. unfold zlookup.
    destruct (decide (0 ≤ j `mod` Z.of_nat (length mbs))); [apply Hiff|done]. }
  destruct (decide (ring_bin mbs j = Some b)) as [H|H].
  - rewrite decide_True; [done|]. by apply E.
  - rewrite decide_False; [done|]. intros H'. by apply H, E.
Qed.

Lemma bin_independent PN c nb tr mbs mbs' outs outs'
    mallocs mallocs' fuel b :
  ring_wf PN nb tr mbs → ring_wf PN nb tr mbs' →
  mallocs_succeed (length tr) mallocs → mallocs_succeed (length tr) mallocs' →
  (log2_rounds (length tr) ≤ fuel)%nat →
  0 ≤ b → (∀ j, mbs !! j = Some b ↔ mbs' !! j = Some b) →
  ∃ res res',
    lwgrp_ring_split_bin PN fuel (ring_calls c nb tr mbs outs mallocs) = Ok res
    ∧ lwgrp_ring_split_bin PN fuel (ring_calls c nb tr mbs' outs' mallocs')
      = Ok res'
    ∧ ∀ i, mbs !! i = Some b →
        ∃ r out v v', res !! i = Some (r, out, v)
                      ∧ res' !! i = Some (r, out, v').
Proof.
  intros Hwf Hwf' Hmalloc Hmalloc' Hfuel Hsign Hiff.
  pose proof Hwf' as (_ & _ & _ & _ & Hmlen' & Hmrange' & _ & _).
  ring_hyps Hwf.
  rewrite <- round_count_log2 in * by done.
  edestruct (split_bin_ring_result PN c nb tr mbs outs mallocs)
    as (_ & sys & res & _ & _ & [Hl Hinv] & Hres & Hrlen & Hpt); [done..|].
  edestruct (split_bin_ring_result PN c nb tr mbs' outs' mallocs')
    as (_ & sys' & res' & _ & _ & [Hl' Hinv'] & Hres' & Hrlen' & Hpt'); [done..|].
  exists res, res'. split; [done|]. split; [done|].
  intros i Hi. pose proof (proj1 (Hiff i) Hi) as Hi'.
  pose proof (lookup_lt_Some _ _ _ Hi) as Hlt.
  destruct (res !! i) as [x|] eqn:Hx; [|apply lookup_ge_None in Hx; lia].
  destruct (res' !! i) as [x'|] eqn:Hx'; [|apply lookup_ge_None in Hx'; lia].
  destruct (Hpt i x Hx) as (v & Hv & ->).
  destruct (Hpt' i x' Hx') as (v' & Hv' & ->).
  exists LWGRP_SUCCESS, (final_out PN c tr mbs outs i v), v, v'.
  split; [done|]. do 3 f_equal.
  assert (Hbi : bin_of mbs i = b) by (unfold bin_of; by rewrite Hi).
  assert (Hbi' : bin_of mbs' i = b) by (unfold bin_of; by rewrite Hi').
  destruct (Hinv i v Hv) as (_ & _ & _ & _ & _ & _ & HmL & HmR & _).
  destruct (Hinv' i v' Hv') as (_ & _ & _ & _ & _ & _ & HmL' & HmR' & _).
  unfold final_out. rewrite Hbi, Hbi', !(decide_True (P := 0 ≤ b)) by done.
  rewrite HmL, HmR, HmL', HmR'. unfold myL, myR.
  rewrite Hbi, Hbi', !(decide_True (P := 0 ≤ b)) by done.
  rewrite (same_bin_take_ext b mbs' mbs i), (same_bin_ext b mbs' mbs),
    !(nearest_ext PN tr mbs' mbs); try done; try lia; intros; by rewrite Hiff.
Qed.

(** What a member of a bin gets depends only on which positions of the
    ring hold members of its bin.  Two collective calls on the same ring
    whose callers agree on who declares bin [b] give every member of [b]
    the same descriptor: a process that opts out counts for the members
    of [b] as one that declares any other bin, by the position it
    occupies and nothing else. *)
Theorem split_bin_bin_independent PN c nb tr mbs mbs' outs outs'
    mallocs mallocs' fuel b :
  ring_wf PN nb tr mbs → ring_wf PN nb tr mbs' →
  mallocs_succeed (length tr) mallocs → mallocs_succeed (length tr) mallocs' →
  (log2_rounds (length tr) ≤ fuel)%nat →
  0 ≤ b → (∀ j, mbs !! j = Some b ↔ mbs' !! j = Some b) →
  ∃ res res',
    lwgrp_ring_split_bin PN fuel (ring_calls c nb tr mbs outs mallocs) = Ok res
    ∧ lwgrp_ring_split_bin PN fuel (ring_calls c nb tr mbs' outs' mallocs')
      = Ok res'
    ∧ ∀ i, mbs !! i = Some b →
        ∃ r out v v', res !! i = Some (r, out, v)
                      ∧ res' !! i = Some (r, out, v').
Proof. exact (bin_independent PN c nb tr mbs mbs' outs outs' mallocs mallocs' fuel b). Qed.


(** ** One process: the seeds, the messages, the merge *)

Lemma cell_gz v l buf b field :
  bins v = Some l → 0 ≤ buf + (2 * b + field) < Z.of_nat (length l) →
  cell v buf b field = Some (gz l (buf + (2 * b + field))).
Proof. intros Hb Hr. unfold cell. rewrite Hb. cbn. by apply zlookup_Some. Qed.

(** Lines 54-96.  When the allocation succeeds, a process enters the
    loop with [dist = 1], its two neighbors of the input ring, no neighbor
    noted, and both send buffers seeded: count 1 and its own rank in the
    cell of its bin, count 0 and the sentinel in every other cell; all
    cells of a process that opts out are of the second kind. *)
Theorem split_bin_init_seeds PN c junk :
  0 ≤ arg_num_bins c → 4 * (2 * arg_num_bins c + 1) ≤ INT_MAX →
  -1 ≤ arg_my_bin c < arg_num_bins c → arg_malloc c = Some junk →
  ∃ v,
    split_bin_init PN c = Ok v ∧ vars_wf v
    ∧ num_bins v = arg_num_bins c ∧ my_bin v = arg_my_bin c
    ∧ ring_in v = arg_in c ∧ ring_out v = arg_out c
    ∧ dist v = 1 ∧ waitalls v = O
    ∧ left_rank v = comm_left (arg_in c)
    ∧ right_rank v = comm_right (arg_in c)
    ∧ my_left v = PN ∧ my_right v = PN
    ∧ ∀ b, 0 ≤ b < arg_num_bins c →
        let count := if decide (b = arg_my_bin c) then 1 else 0 in
        let closest :=
          if decide (b = arg_my_bin c) then comm_rank (arg_in c) else PN in
        cell v (send_left_bins v) b INDEX_COUNT = Some count
        ∧ cell v (send_left_bins v) b INDEX_CLOSEST = Some closest
        ∧ cell v (send_right_bins v) b INDEX_COUNT = Some count
        ∧ cell v (send_right_bins v) b INDEX_CLOSEST = Some closest.
Proof.
  intros H0 Hmax Hmb Hjunk.
  destruct (split_bin_init_ok PN (arg_num_bins c) (conj H0 Hmax) c junk
              eq_refl Hmb Hjunk) as (l & Hinit & Hl & Hcells).
  eexists. split; [exact Hinit|].
  split; [unfold vars_wf; cbn; eauto 10|].
  do 10 (split; [done|]).
  intros b Hb count closest.
  destruct (Hcells b Hb) as (H1 & H2 & H3 & H4).
  match goal with
  | |- context [send_left_bins ?v] =>
      destruct (offsets (arg_num_bins c) (conj H0 Hmax) v eq_refl)
        as (_ & _ & Hsl & _ & Hsr & _ & _); rewrite Hsl, Hsr
  end.
  unfold INDEX_COUNT, INDEX_CLOSEST.
  rewrite !(cell_gz _ l) by (done || cbn; lia).
  rewrite !Z.add_0_l, !Z.add_0_r, !Z.add_assoc, H1, H2, H3, H4.
  done.
Qed.

(** Lines 101-110.  A round posts, in this order, a receive from the
    left neighbor, a send to the right, a receive from the right and a
    send to the left.  The message to the right carries the cells of the
    right-going buffer and, in its last int, the current left neighbor;
    the message to the left the cells of the left-going buffer and the
    current right neighbor.  Posting changes no cell and no variable but
    the two trailing ints. *)
Theorem split_bin_post_messages v :
  vars_wf v →
  ∃ m to_right to_left,
    split_bin_post v =
      Ok (set_bins v m,
          [ Irecv (left_rank v); Isend to_right (right_rank v);
            Irecv (right_rank v); Isend to_left (left_rank v) ])
    ∧ vars_wf (set_bins v m)
    ∧ Z.of_nat (length to_right) = elements v
    ∧ Z.of_nat (length to_left) = elements v
    ∧ zlookup to_right (rank_index v) = Some (left_rank v)
    ∧ zlookup to_left (rank_index v) = Some (right_rank v)
    ∧ ∀ b field, 0 ≤ b < num_bins v → 0 ≤ field ≤ 1 →
        zlookup to_right (2 * b + field) = cell v (send_right_bins v) b field
        ∧ zlookup to_left (2 * b + field) = cell v (send_left_bins v) b field
        ∧ cell (set_bins v m) (send_right_bins v) b field
          = cell v (send_right_bins v) b field
        ∧ cell (set_bins v m) (send_left_bins v) b field
          = cell v (send_left_bins v) b field.
Proof.
  intros (H0 & Hmax & Hmb & l & Hb & Hl).
  destruct (split_bin_post_ok (num_bins v) (conj H0 Hmax) v l eq_refl Hb Hl)
    as (l' & mR & mL & Hpost & Hl' & HlR & HlL & HtR & HtL & Hsame).
  destruct (offsets (num_bins v) (conj H0 Hmax) v eq_refl)
    as (He & Hri & Hsl & _ & Hsr & _ & _).
  exists (Some l'), mR, mL. split; [exact Hpost|].
  split; [unfold vars_wf; cbn; eauto 10|].
  rewrite He, Hri, Hsl, Hsr.
  split; [done|]. split; [done|].
  split; [rewrite zlookup_Some by lia; by rewrite HtR|].
  split; [rewrite zlookup_Some by lia; by rewrite HtL|].
  intros b field Hbb Hf.
  destruct (Hsame (2 * b + field)) as (E1 & E2 & E3 & E4); [lia|].
  rewrite !(cell_gz _ l), !(cell_gz _ l') by (done || cbn; lia).
  rewrite !zlookup_Some by lia. rewrite !Z.add_0_l.
  by rewrite E1, E2, E3, E4.
Qed.

Lemma wait_merge PN v from_left from_right :
  vars_wf v →
  Z.of_nat (length from_left) = elements v →
  Z.of_nat (length from_right) = elements v →
  ∃ v',
    split_bin_wait PN v (Some from_left) (Some from_right) = Ok v'
    ∧ vars_wf v'
    ∧ num_bins v' = num_bins v ∧ my_bin v' = my_bin v
    ∧ ring_in v' = ring_in v ∧ ring_out v' = ring_out v
    ∧ dist v' = wrap (Z.shiftl (dist v) 1)
    ∧ waitalls v' = S (waitalls v)
    ∧ left_rank v' = gz from_left (rank_index v)
    ∧ right_rank v' = gz from_right (rank_index v)
    ∧ my_left v' =
        (if decide (my_left v = PN ∧ 0 ≤ my_bin v)
         then gz from_left (my_bin_index v + INDEX_CLOSEST) else my_left v)
    ∧ my_right v' =
        (if decide (my_right v = PN ∧ 0 ≤ my_bin v)
         then gz from_right (my_bin_index v + INDEX_CLOSEST) else my_right v)
    ∧ ∀ b, 0 ≤ b < num_bins v →
        ∃ cr or cl ol,
          cell v (send_right_bins v) b INDEX_COUNT = Some cr
          ∧ cell v (send_right_bins v) b INDEX_CLOSEST = Some or
          ∧ cell v (send_left_bins v) b INDEX_COUNT = Some cl
          ∧ cell v (send_left_bins v) b INDEX_CLOSEST = Some ol
          ∧ cell v' (send_right_bins v') b INDEX_COUNT =
              Some (if decide (0 ≤ wrap (rank v - dist v))
                    then wrap (cr + gz from_left (2 * b + INDEX_COUNT))
                    else cr)
          ∧ cell v' (send_right_bins v') b INDEX_CLOSEST =
              Some (if decide (or = PN)
                    then gz from_left (2 * b + INDEX_CLOSEST) else or)
          ∧ cell v' (send_left_bins v') b INDEX_COUNT =
              Some (if decide (wrap (rank v + dist v) < ranks v)
                    then wrap (cl + gz from_right (2 * b + INDEX_COUNT))
                    else cl)
          ∧ cell v' (send_left_bins v') b INDEX_CLOSEST =
              Some (if decide (ol = PN)
                    then gz from_right (2 * b + INDEX_CLOSEST) else ol).
Proof.
  intros (H0 & Hmax & Hmb & l & Hb & Hl) HA HB.
  destruct (offsets (num_bins v) (conj H0 Hmax) v eq_refl)
    as (He & Hri & Hsl & _ & Hsr & _ & _).
  rewrite He in HA, HB.
  destruct (split_bin_wait_ok PN (num_bins v) (conj H0 Hmax) v l
              from_left from_right eq_refl Hmb Hb Hl HA HB)
    as (l' & Hwait & Hl' & Hcells).
  eexists. split; [exact Hwait|].
  split; [unfold vars_wf; cbn; eauto 10|].
  rewrite Hri, (my_bin_index_eq (num_bins v) (conj H0 Hmax) v Hmb).
  unfold INDEX_COUNT, INDEX_CLOSEST.
  do 10 (split; [done|]).
  intros b Hbb. destruct (Hcells b Hbb) as (C1 & C2 & C3 & C4).
  match goal with
  | |- context [send_left_bins ?v'] =>
      lazymatch v' with
      | v => fail
      | _ => destruct (offsets (num_bins v) (conj H0 Hmax) v' eq_refl)
               as (_ & _ & Hsl' & _ & Hsr' & _ & _); rewrite Hsl', Hsr'
      end
  end.
  rewrite Hsl, Hsr.
  exists (gz l (2 * (2 * num_bins v + 1) + 2 * b)),
         (gz l (2 * (2 * num_bins v + 1) + 2 * b + 1)),
         (gz l (2 * b)), (gz l (2 * b + 1)).
  rewrite !(cell_gz _ l), !(cell_gz _ l') by (done || cbn; lia).
  rewrite !Z.add_0_l, !Z.add_0_r, !Z.add_assoc, C1, C2, C3, C4.
  done.
Qed.

(** Lines 113-158.  What a process does with the two messages of a
    round.  For every bin, the count received from the left is added to
    the right-going count only when [rank - dist >= 0], the one received
    from the right to the left-going count only when [rank + dist < ranks]
    (all in [int] arithmetic); a closest rank is taken from the message
    only where the buffer still holds the sentinel.  [my_left] and
    [my_right] are taken from the cells of the process's own bin in the
    messages only while they are the sentinel and [my_bin >= 0].  The
    neighbors become the ranks in the last ints of the messages, and
    [dist] doubles. *)
Theorem split_bin_wait_merge PN v from_left from_right :
  vars_wf v →
  Z.of_nat (length from_left) = elements v →
  Z.of_nat (length from_right) = elements v →
  ∃ v',
    split_bin_wait PN v (Some from_left) (Some from_right) = Ok v'
    ∧ vars_wf v'
    ∧ num_bins v' = num_bins v ∧ my_bin v' = my_bin v
    ∧ ring_in v' = ring_in v ∧ ring_out v' = ring_out v
    ∧ dist v' = wrap (Z.shiftl (dist v) 1)
    ∧ waitalls v' = S (waitalls v)
    ∧ left_rank v' = gz from_left (rank_index v)
    ∧ right_rank v' = gz from_right (rank_index v)
    ∧ my_left v' =
        (if decide (my_left v = PN ∧ 0 ≤ my_bin v)
         then gz from_left (my_bin_index v + INDEX_CLOSEST) else my_left v)
    ∧ my_right v' =
        (if decide (my_right v = PN ∧ 0 ≤ my_bin v)
         then gz from_right (my_bin_index v + INDEX_CLOSEST) else my_right v)
    ∧ ∀ b, 0 ≤ b < num_bins v →
        ∃ cr or cl ol,
          cell v (send_right_bins v) b INDEX_COUNT = Some cr
          ∧ cell v (send_right_bins v) b INDEX_CLOSEST = Some or
          ∧ cell v (send_left_bins v) b INDEX_COUNT = Some cl
          ∧ cell v (send_left_bins v) b INDEX_CLOSEST = Some ol
          ∧ cell v' (send_right_bins v') b INDEX_COUNT =
              Some (if decide (0 ≤ wrap (rank v - dist v))
                    then wrap (cr + gz from_left (2 * b + INDEX_COUNT))
                    else cr)
          ∧ cell v' (send_right_bins v') b INDEX_CLOSEST =
              Some (if decide (or = PN)
                    then gz from_left (2 * b + INDEX_CLOSEST) else or)
          ∧ cell v' (send_left_bins v') b INDEX_COUNT =
              Some (if decide (wrap (rank v + dist v) < ranks v)
                    then wrap (cl + gz from_right (2 * b + INDEX_COUNT))
                    else cl)
          ∧ cell v' (send_left_bins v') b INDEX_CLOSEST =
              Some (if decide (ol = PN)
                    then gz from_right (2 * b + INDEX_CLOSEST) else ol).
Proof. exact (wait_merge PN v from_left from_right). Qed.

(** * [lwgrp_ring_alltoallv_linear] on a ring *)

(** ** The exchange of a round

    Every process receives data and an address from the process [d]
    positions to its left and an address from the one [d] positions to
    its right; it sends data and an address to the right, an address to
    the left. *)

Section alltoallv_exchange.
Variable PN : Z.
Variable tr : list Z.
Hypothesis tr_nodup : NoDup tr.
Hypothesis tr_nonempty : (0 < length tr)%nat.
Hypothesis tr_not_none : PN ∉ tr.
Context {M : Type}.
Variable d : Z.

Local Abbreviation N := (Z.of_nat (length tr)).

Definition a2a_ops (a : Z) (data to_right to_left : M) : list (op M) :=
  [ Irecv (ring_at tr (a - d)); Isend data (ring_at tr (a + d));
    Irecv (ring_at tr (a - d)); Irecv (ring_at tr (a + d));
    Isend to_right (ring_at tr (a + d)); Isend to_left (ring_at tr (a - d)) ].

Definition a2a_board (b : board M) : Prop :=
  on_ring tr b ∧
  ∀ a, ∃ data to_right to_left,
    b !! Z.to_nat (a `mod` N) =
      Some (ring_at tr a, a2a_ops a data to_right to_left).

Lemma a2a_same_peer a :
  ring_at tr (a + d) = ring_at tr (a - d) ↔
  ring_at tr (a + d + d) = ring_at tr a.
Proof.
  rewrite (ring_at_shift tr tr_nodup tr_nonempty (a + d) a d). done.
Qed.

Lemma a2a_wait_data b a m x y data to_right to_left :
  a2a_board b →
  b !! Z.to_nat ((a - d) `mod` N) =
    Some (ring_at tr (a - d), a2a_ops (a - d) data to_right to_left) →
  wait_recv PN b (ring_at tr a) (a2a_ops a m x y) 0 = Ok (Some data)
  ∧ wait_recv PN b (ring_at tr a) (a2a_ops a m x y) 2 = Ok (Some to_right).
Proof.
  intros [Hring _] Hb. unfold wait_recv. cbn [a2a_ops lookup list_lookup].
  rewrite decide_False by (by apply ring_at_not_none).
  rewrite (ops_of_ring tr tr_nodup tr_nonempty b (a - d) _ Hring Hb).
  cbn. replace (a - d + d) with a by lia.
  rewrite !(decide_True (P := ring_at tr a = ring_at tr a)) by done.
  rewrite ?bool_decide_eq_true_2 by done.
  rewrite (decide_False (P := ring_at tr (a - d) = PN))
    by (by apply ring_at_not_none).
  done.
Qed.

Lemma a2a_wait_addr b a m x y data to_right to_left :
  a2a_board b →
  b !! Z.to_nat ((a + d) `mod` N) =
    Some (ring_at tr (a + d), a2a_ops (a + d) data to_right to_left) →
  wait_recv PN b (ring_at tr a) (a2a_ops a m x y) 3 = Ok (Some to_left).
Proof.
  intros [Hring _] Hb. unfold wait_recv. cbn [a2a_ops lookup list_lookup].
  rewrite decide_False by (by apply ring_at_not_none).
  rewrite (ops_of_ring tr tr_nodup tr_nonempty b (a + d) _ Hring Hb).
  cbn. replace (a + d - d) with a by lia.
  rewrite !(decide_True (P := ring_at tr a = ring_at tr a)) by done.
  pose proof (a2a_same_peer a) as E.
  destruct (decide (ring_at tr (a + d + d) = ring_at tr a)) as [E'|E'].
  - rewrite !bool_decide_eq_true_2 by (symmetry; tauto). done.
  - rewrite !bool_decide_eq_false_2; [done|].
    intros E''. apply E'. apply E. done.
Qed.

Lemma a2a_waitall_ok b : a2a_board b → waitall_ok PN b = true.
Proof.
  intros [Hring Hb]. unfold waitall_ok. apply andb_true_intro.
  assert (Hent : ∀ x, In x b → ∃ a m r l,
             x = (ring_at tr a, a2a_ops a m r l)).
  { intros x [i Hi]%list_elem_of_In%list_elem_of_lookup.
    destruct (Hb (Z.of_nat i)) as (m & r & l & Hx).
    rewrite Z.mod_small, Nat2Z.id in Hx.
    2:{ apply lookup_lt_Some in Hi. destruct Hring as [Hl _]. lia. }
    exists (Z.of_nat i), m, r, l. rewrite Hi in Hx. by injection Hx. }
  assert (Hpeer : ∀ a, peer_ok PN b (ring_at tr a) = true).
  { intros a. unfold peer_ok. apply orb_true_intro. right.
    apply bool_decide_eq_true_2.
    destruct (on_ring_lookup tr tr_nonempty b a Hring) as [ops Hops].
    rewrite (ops_of_ring tr tr_nodup tr_nonempty b a _ Hring Hops). eauto. }
  split.
  - apply forallb_forall. intros x (a & m & r & l & ->)%Hent.
    cbn. by rewrite !Hpeer.
  - apply forallb_forall. intros x (a & m & r & l & ->)%Hent.
    apply forallb_forall. intros x' (a' & m' & r' & l' & ->)%Hent.
    unfold pair_ok. apply bool_decide_eq_true_2. cbn.
    assert (E1 : ring_at tr (a + d) = ring_at tr a' ↔
                 ring_at tr (a' - d) = ring_at tr a).
    { rewrite ring_at_shift by done. split; congruence. }
    assert (E2 : ring_at tr (a - d) = ring_at tr a' ↔
                 ring_at tr (a' + d) = ring_at tr a).
    { rewrite (ring_at_shift tr tr_nodup tr_nonempty a' a d).
      split; congruence. }
    repeat case_decide; repeat case_bool_decide; cbn; tauto || done.
Qed.
End alltoallv_exchange.

(** ** The callers

    The arrays of [lwgrp_ring_alltoallv_linear] are indexed by [src] and
    [dst], which hold ranks of the communicator: the entry for a peer is
    the one at the peer's transport rank. *)

(** What a receiver and a sender must agree on: the entries for each
    other are there, the block to send lies in the send buffer, the
    region to receive into lies in the receive buffer and is large enough
    for the block. *)
Definition a2a_pair_ok {T} (receiver sender : alltoallv_call (T := T))
    (receiver_rank sender_rank : Z) : Prop :=
  ∃ sd sc rd rc,
    zlookup (senddispls sender) receiver_rank = Some sd ∧
    zlookup (sendcounts sender) receiver_rank = Some sc ∧
    zlookup (recvdispls receiver) sender_rank = Some rd ∧
    zlookup (recvcounts receiver) sender_rank = Some rc ∧
    0 ≤ sd ∧ 0 ≤ sc ∧ sd + sc ≤ Z.of_nat (length (sendbuf sender)) ∧
    0 ≤ rd ∧ sc ≤ rc ∧ rd + rc ≤ Z.of_nat (length (recvbuf receiver)).

(** The callers form a ring of processes with distinct transport ranks,
    none of them the sentinel, and every two of them agree. *)
Definition a2a_wf {T} (PN c : Z) (tr : list Z)
    (calls : list (alltoallv_call (T := T))) : Prop :=
  NoDup tr ∧ (0 < length tr)%nat ∧ (PN ∉ tr) ∧
  Z.of_nat (length tr) ≤ INT_MAX ∧
  length calls = length tr ∧
  (∀ i ci, calls !! i = Some ci → group ci = ring_member c tr i) ∧
  (∀ i j ci cj, calls !! i = Some ci → calls !! j = Some cj →
     a2a_pair_ok ci cj (ring_at tr (Z.of_nat i)) (ring_at tr (Z.of_nat j))).

(** The callers' variables after [t] rounds of the collective call. *)
Definition alltoallv_after {T} (PN : Z) (t : nat)
    (calls : list (alltoallv_call (T := T))) : res (list alltoallv_vars) :=
  rounds (alltoallv_round PN) t (alltoallv_init <$> calls).

Section alltoallv_ring.
Variables PN c : Z.
Variable tr : list Z.
Context {T : Type}.
Variable calls : list (alltoallv_call (T := T)).

Local Abbreviation N := (Z.of_nat (length tr)).

(** The call at a position of the ring, positions taken modulo the
    size. *)
Definition ring_call (a : Z) : option alltoallv_call :=
  calls !! Z.to_nat (a `mod` N).

(** The block the caller at position [j] holds for the one at position
    [i]. *)
Definition a2a_block (j i : Z) : list T :=
  match ring_call j with
  | Some cj =>
      take (Z.to_nat (gz (sendcounts cj) (ring_at tr i)))
           (drop (Z.to_nat (gz (senddispls cj) (ring_at tr i))) (sendbuf cj))
  | None => []
  end.

(** Where the caller at position [i] receives from the one at position
    [j]. *)
Definition a2a_displ (i j : Z) : Z :=
  match ring_call i with
  | Some ci => gz (recvdispls ci) (ring_at tr j)
  | None => 0
  end.

(** The receive buffer of the caller at position [i] after [t] rounds:
    round [t'] writes the block of the caller [2 ^ t'] positions to the
    left. *)
Fixpoint a2a_recvbuf (i : Z) (t : nat) : list T :=
  match t with
  | O => match ring_call i with Some ci => recvbuf ci | None => [] end
  | S t' =>
      list_inserts (Z.to_nat (a2a_displ i (i - 2 ^ Z.of_nat t')))
        (a2a_block (i - 2 ^ Z.of_nat t') i) (a2a_recvbuf i t')
  end.

Definition a2a_inv (t : nat) (a : Z) (v : alltoallv_vars) : Prop :=
  ring_call a = Some (call v) ∧
  a_dist v = Z.of_nat t ∧ a_waitalls v = t ∧
  src v = ring_at tr (a - 2 ^ Z.of_nat t) ∧
  dst v = ring_at tr (a + 2 ^ Z.of_nat t) ∧
  cur_recvbuf v = a2a_recvbuf a t.

Definition a2a_sys_inv (t : nat) (sys : list alltoallv_vars) : Prop :=
  length sys = length tr ∧
  ∀ i v, sys !! i = Some v → a2a_inv t (Z.of_nat i) v.

Hypothesis tr_nodup : NoDup tr.
Hypothesis tr_nonempty : (0 < length tr)%nat.
Hypothesis tr_not_none : PN ∉ tr.
Hypothesis tr_size : N ≤ INT_MAX.
Hypothesis calls_length : length calls = length tr.
Hypothesis calls_group :
  ∀ i ci, calls !! i = Some ci → group ci = ring_member c tr i.
Hypothesis calls_ok :
  ∀ i j ci cj, calls !! i = Some ci → calls !! j = Some cj →
    a2a_pair_ok ci cj (ring_at tr (Z.of_nat i)) (ring_at tr (Z.of_nat j)).

Lemma ring_call_some a : is_Some (ring_call a).
Proof.
  unfold ring_call. apply lookup_lt_is_Some.
  pose proof (Z.mod_pos_bound a N). lia.
Qed.

Lemma ring_call_congr a a' :
  a `mod` N = a' `mod` N → ring_call a = ring_call a'.
Proof. unfold ring_call. by intros ->. Qed.

Lemma ring_call_nat i : ring_call (Z.of_nat i) = calls !! i ∨ calls !! i = None.
Proof.
  destruct (calls !! i) eqn:E; [left|by right].
  pose proof (lookup_lt_Some _ _ _ E). unfold ring_call.
  rewrite Z.mod_small, Nat2Z.id by lia. done.
Qed.

Lemma ring_call_group a ca :
  ring_call a = Some ca →
  comm_rank (group ca) = ring_at tr a ∧
  comm_left (group ca) = ring_at tr (a - 1) ∧
  comm_right (group ca) = ring_at tr (a + 1) ∧
  group_size (group ca) = N.
Proof.
  unfold ring_call. intros H. rewrite (calls_group _ _ H). cbn.
  pose proof (Z.mod_pos_bound a N ltac:(lia)).
  rewrite Z2Nat.id by lia.
  repeat split.
  - by apply ring_at_mod.
  - apply ring_at_congr. by rewrite Zminus_mod_idemp_l.
  - apply ring_at_congr. by rewrite Zplus_mod_idemp_l.
Qed.

Lemma ring_call_ok i j ci cj :
  ring_call i = Some ci → ring_call j = Some cj →
  a2a_pair_ok ci cj (ring_at tr i) (ring_at tr j).
Proof.
  unfold ring_call. intros Hi Hj.
  pose proof (calls_ok _ _ _ _ Hi Hj) as H.
  pose proof (Z.mod_pos_bound i N ltac:(lia)).
  pose proof (Z.mod_pos_bound j N ltac:(lia)).
  rewrite !Z2Nat.id, !ring_at_mod in H by (done || lia). done.
Qed.

Lemma a2a_block_congr j j' i i' :
  j `mod` N = j' `mod` N → i `mod` N = i' `mod` N →
  a2a_block j i = a2a_block j' i'.
Proof.
  intros Hj Hi. unfold a2a_block.
  by rewrite (ring_call_congr _ _ Hj), (ring_at_congr tr _ _ Hi).
Qed.

Lemma a2a_displ_congr j j' i i' :
  j `mod` N = j' `mod` N → i `mod` N = i' `mod` N →
  a2a_displ i j = a2a_displ i' j'.
Proof.
  intros Hj Hi. unfold a2a_displ.
  by rewrite (ring_call_congr _ _ Hi), (ring_at_congr tr _ _ Hj).
Qed.

Lemma a2a_recvbuf_congr i i' t :
  i `mod` N = i' `mod` N → a2a_recvbuf i t = a2a_recvbuf i' t.
Proof.
  intros Hi. induction t as [|t IH]; cbn [a2a_recvbuf].
  - by rewrite (ring_call_congr _ _ Hi).
  - assert (E : (i - 2 ^ Z.of_nat t) `mod` N = (i' - 2 ^ Z.of_nat t) `mod` N).
    { by rewrite <- Zminus_mod_idemp_l, Hi, Zminus_mod_idemp_l. }
    by rewrite IH, (a2a_displ_congr _ _ _ _ E Hi), (a2a_block_congr _ _ _ _ E Hi).
Qed.

Lemma a2a_inv_congr t a a' v :
  a `mod` N = a' `mod` N → a2a_inv t a v → a2a_inv t a' v.
Proof.
  intros E (H1 & H2 & H3 & H4 & H5 & H6). unfold a2a_inv.
  rewrite <- (ring_call_congr _ _ E), <- (a2a_recvbuf_congr _ _ _ E).
  repeat split; try done.
  - rewrite H4. apply ring_at_congr.
    by rewrite <- Zminus_mod_idemp_l, E, Zminus_mod_idemp_l.
  - rewrite H5. apply ring_at_congr.
    by rewrite <- Zplus_mod_idemp_l, E, Zplus_mod_idemp_l.
Qed.

Lemma a2a_recvbuf_length a t ca :
  ring_call a = Some ca → length (a2a_recvbuf a t) = length (recvbuf ca).
Proof.
  intros H. induction t as [|t IH]; cbn [a2a_recvbuf].
  - by rewrite H.
  - by rewrite length_inserts.
Qed.

Lemma gz_of_lookup l i x : zlookup l i = Some x → gz l i = x.
Proof. unfold gz. by intros ->. Qed.

Lemma a2a_init_inv : a2a_sys_inv 0 (alltoallv_init <$> calls).
Proof.
  split; [by rewrite length_fmap|].
  intros i v Hv. rewrite list_lookup_fmap in Hv.
  destruct (calls !! i) as [ci|] eqn:Hi; [|done]. injection Hv as <-.
  assert (Hc : ring_call (Z.of_nat i) = Some ci).
  { destruct (ring_call_nat i) as [->|E]; congruence. }
  destruct (ring_call_group _ _ Hc) as (_ & HL & HR & _).
  unfold a2a_inv. cbn. rewrite Hc. done.
Qed.

Lemma a2a_cond_inv t a v :
  a2a_inv t a v → alltoallv_cond v = bool_decide (Z.of_nat t < N).
Proof.
  intros (Hc & Hd & _). unfold alltoallv_cond.
  destruct (ring_call_group _ _ Hc) as (_ & _ & _ & ->). by rewrite Hd.
Qed.

Lemma a2a_post_inv t a v :
  a2a_inv t a v →
  alltoallv_post PN v =
    Ok (v, a2a_ops tr (2 ^ Z.of_nat t) a
             (Data (a2a_block a (a + 2 ^ Z.of_nat t)))
             (Addr (ring_at tr (a - 2 ^ Z.of_nat t)))
             (Addr (ring_at tr (a + 2 ^ Z.of_nat t)))).
Proof.
  intros (Hc & Hd & Hw & Hs & Hdst & Hbuf).
  destruct (ring_call_some (a - 2 ^ Z.of_nat t)) as [cl Hcl].
  destruct (ring_call_some (a + 2 ^ Z.of_nat t)) as [cr Hcr].
  destruct (ring_call_ok _ _ _ _ Hc Hcl)
    as (_ & _ & rd & rc & _ & _ & Hrd & Hrc & _).
  destruct (ring_call_ok _ _ _ _ Hcr Hc)
    as (sd & sc & _ & _ & Hsd & Hsc & _ & _ & ? & ? & ? & _).
  unfold alltoallv_post, array_get. rewrite Hs, Hdst, Hrd, Hrc, Hsd, Hsc.
  cbn. unfold send_data.
  rewrite decide_False by (by apply ring_at_not_none).
  rewrite decide_True by done.
  rewrite sublist_lookup_Some by lia. cbn.
  unfold a2a_ops, a2a_block. rewrite Hc.
  by rewrite (gz_of_lookup _ _ _ Hsd), (gz_of_lookup _ _ _ Hsc).
Qed.

Lemma a2a_block_length j i cj :
  ring_call j = Some cj →
  Z.of_nat (length (a2a_block j i)) = gz (sendcounts cj) (ring_at tr i).
Proof.
  intros Hj. destruct (ring_call_some i) as [ci Hi].
  destruct (ring_call_ok _ _ _ _ Hi Hj)
    as (sd & sc & _ & _ & Hsd & Hsc & _ & _ & ? & ? & ? & _).
  unfold a2a_block. rewrite Hj.
  rewrite (gz_of_lookup _ _ _ Hsd), (gz_of_lookup _ _ _ Hsc).
  rewrite length_take, length_drop. lia.
Qed.

Lemma a2a_wait_inv t a v completed :
  a2a_inv t a v → Z.of_nat t < N →
  completed 0%nat =
    Ok (Some (Data (a2a_block (a - 2 ^ Z.of_nat t) a))) →
  completed 2%nat =
    Ok (Some (Addr (ring_at tr (a - 2 ^ Z.of_nat t - 2 ^ Z.of_nat t)))) →
  completed 3%nat =
    Ok (Some (Addr (ring_at tr (a + 2 ^ Z.of_nat t + 2 ^ Z.of_nat t)))) →
  ∃ v', alltoallv_waitall v completed = Ok v' ∧ a2a_inv (S t) a v'.
Proof.
  intros (Hc & Hd & Hw & Hs & Hdst & Hbuf) Ht H0 H2 H3.
  destruct (ring_call_some (a - 2 ^ Z.of_nat t)) as [cl Hcl].
  destruct (ring_call_ok _ _ _ _ Hc Hcl)
    as (sd & sc & rd & rc & Hsd & Hsc & Hrd & Hrc & ? & ? & ? & ? & ? & ?).
  pose proof (a2a_block_length _ a _ Hcl) as Hlen.
  rewrite (gz_of_lookup _ _ _ Hsc) in Hlen.
  pose proof (a2a_recvbuf_length a t _ Hc) as Hblen.
  unfold alltoallv_waitall, array_get. rewrite Hs, Hrd, Hrc, H0, H2, H3.
  cbn. rewrite !decide_True by (rewrite ?Hbuf; lia). cbn.
  eexists. split; [done|]. unfold a2a_inv. cbn.
  rewrite Hd, Hw, Nat2Z.inj_succ, Z.pow_succ_r by lia.
  rewrite wrap_id by (unfold INT_MIN, INT_MAX in *; lia).
  repeat split; try done.
  - apply ring_at_congr. f_equal. lia.
  - apply ring_at_congr. f_equal. lia.
  - rewrite Hbuf. unfold a2a_displ. rewrite Hc.
    by rewrite (gz_of_lookup _ _ _ Hrd).
Qed.

Lemma a2a_sys_at t sys a :
  a2a_sys_inv t sys →
  ∃ v, sys !! Z.to_nat (a `mod` N) = Some v ∧ a2a_inv t a v.
Proof.
  intros [Hlen Hall]. pose proof (Z.mod_pos_bound a N ltac:(lia)) as Ha.
  destruct (sys !! Z.to_nat (a `mod` N)) as [v|] eqn:Hv.
  2:{ apply lookup_ge_None in Hv. lia. }
  exists v. split; [done|].
  apply (a2a_inv_congr t (Z.of_nat (Z.to_nat (a `mod` N)))); [|by apply Hall].
  rewrite Z2Nat.id by lia. by rewrite Z.mod_mod by lia.
Qed.

Lemma a2a_round_inv t sys :
  Z.of_nat t < N → a2a_sys_inv t sys →
  ∃ sys', alltoallv_round PN sys = Ok sys' ∧ a2a_sys_inv (S t) sys'.
Proof.
  intros Ht Hinv. pose proof Hinv as [Hlen Hall].
  unfold alltoallv_round, round.
  set (d := 2 ^ Z.of_nat t).
  set (ops := λ a, a2a_ops tr d a (Data (a2a_block a (a + d)))
                     (Addr (ring_at tr (a - d))) (Addr (ring_at tr (a + d)))).
  assert (Hposts : ∀ a v, a2a_inv t a v →
            posts alltoallv_cond (alltoallv_post PN) v = Ok (v, ops a)).
  { intros a v Hv. unfold posts.
    rewrite (a2a_cond_inv t a v Hv), bool_decide_eq_true_2 by done.
    by apply a2a_post_inv. }
  destruct (mapM_Ok_lookup (posts alltoallv_cond (alltoallv_post PN)) sys)
    as (posted & -> & Hplen & Hp).
  { intros i x Hx. rewrite (Hposts _ _ (Hall i x Hx)). eauto. }
  rewrite bind_Ok.
  assert (Hpost : ∀ a, ∃ v,
    posted !! Z.to_nat (a `mod` N) = Some (v, ops a) ∧ a2a_inv t a v).
  { intros a. destruct (a2a_sys_at t sys a Hinv) as (v & Hv & Hva).
    destruct (Hp _ v Hv) as (y & Hy & Hpy).
    rewrite (Hposts a v Hva) in Hpy. injection Hpy as <-. eauto. }
  set (B := to_board (λ v, comm_rank (group (call v))) posted).
  assert (Hboard : ∀ a, B !! Z.to_nat (a `mod` N) = Some (ring_at tr a, ops a)).
  { intros a. destruct (Hpost a) as (v & Hv & (Hc & _)).
    unfold B, to_board. rewrite list_lookup_fmap, Hv. cbn.
    by destruct (ring_call_group _ _ Hc) as (-> & _). }
  assert (HB : a2a_board tr d B).
  { split; [split|].
    - unfold B, to_board. rewrite length_fmap. lia.
    - intros i x Hx.
      assert (Hi : (i < length tr)%nat).
      { apply lookup_lt_Some in Hx. unfold B, to_board in Hx.
        rewrite length_fmap in Hx. lia. }
      pose proof (Hboard (Z.of_nat i)) as HBi.
      rewrite Z.mod_small, Nat2Z.id in HBi by lia.
      rewrite Hx in HBi. by injection HBi as ->.
    - intros a. unfold ops in Hboard. eauto. }
  rewrite (a2a_waitall_ok PN tr tr_nodup tr_nonempty d B HB).
  assert (Hwait : ∀ i y, posted !! i = Some y →
    ∃ v', waits PN (λ v, comm_rank (group (call v))) alltoallv_cond
            alltoallv_waitall B y = Ok v' ∧ a2a_inv (S t) (Z.of_nat i) v').
  { intros i y Hy.
    assert (Hi : (i < length tr)%nat).
    { apply lookup_lt_Some in Hy. lia. }
    destruct (Hpost (Z.of_nat i)) as (v & Hv & Hvi).
    rewrite Z.mod_small, Nat2Z.id in Hv by lia.
    rewrite Hy in Hv. injection Hv as ->.
    pose proof (Hboard (Z.of_nat i - d)) as HBL.
    pose proof (Hboard (Z.of_nat i + d)) as HBR.
    unfold waits. cbn [fst snd].
    rewrite (a2a_cond_inv t _ v Hvi), bool_decide_eq_true_2 by done.
    destruct Hvi as (Hc & Hrest).
    destruct (ring_call_group _ _ Hc) as (-> & _).
    destruct (a2a_wait_data PN tr tr_nodup tr_nonempty tr_not_none d B
                (Z.of_nat i) (Data (a2a_block (Z.of_nat i) (Z.of_nat i + d)))
                (Addr (ring_at tr (Z.of_nat i - d)))
                (Addr (ring_at tr (Z.of_nat i + d)))
                _ _ _ HB HBL) as [W0 W2].
    pose proof (a2a_wait_addr PN tr tr_nodup tr_nonempty tr_not_none d B
                (Z.of_nat i) (Data (a2a_block (Z.of_nat i) (Z.of_nat i + d)))
                (Addr (ring_at tr (Z.of_nat i - d)))
                (Addr (ring_at tr (Z.of_nat i + d)))
                _ _ _ HB HBR) as W3.
    apply (a2a_wait_inv t (Z.of_nat i) v); [by split|done|..].
    - fold (ops (Z.of_nat i)) in W0. rewrite W0.
      by replace (Z.of_nat i - d + d) with (Z.of_nat i) by lia.
    - exact W2.
    - exact W3. }
  destruct (mapM_Ok_lookup
              (waits PN (λ v, comm_rank (group (call v))) alltoallv_cond
                 alltoallv_waitall B) posted)
    as (sys' & -> & Hlen' & Hs').
  { intros i y Hy. destruct (Hwait i y Hy) as (v' & ? & _). eauto. }
  exists sys'. split; [done|]. split; [lia|].
  intros i v' Hv'.
  destruct (posted !! i) as [y|] eqn:Hy.
  2:{ apply lookup_ge_None in Hy. apply lookup_lt_Some in Hv'. lia. }
  destruct (Hs' i y Hy) as (v'' & Hv'' & Hw).
  destruct (Hwait i y Hy) as (v3 & Hw3 & Hinv3).
  rewrite Hv' in Hv''. injection Hv'' as <-.
  rewrite Hw in Hw3. by injection Hw3 as ->.
Qed.

Lemma a2a_all_left sys :
  a2a_sys_inv (length tr) sys →
  forallb (λ v, negb (alltoallv_cond v)) sys = true.
Proof.
  intros [_ Hall]. apply forallb_forall.
  intros v [i Hi]%list_elem_of_In%list_elem_of_lookup.
  rewrite (a2a_cond_inv _ _ v (Hall i v Hi)).
  rewrite bool_decide_eq_false_2; [done|]. lia.
Qed.

Lemma a2a_none_left t sys :
  Z.of_nat t < N → a2a_sys_inv t sys →
  forallb (λ v, negb (alltoallv_cond v)) sys = false.
Proof.
  intros Hk [Hlen Hall]. destruct sys as [|v sys]; [cbn in Hlen; lia|].
  cbn. rewrite (a2a_cond_inv t _ v (Hall O v eq_refl)).
  by rewrite bool_decide_eq_true_2.
Qed.

Lemma a2a_loop_inv m j sys fuel :
  (j + m = length tr)%nat → (m ≤ fuel)%nat → a2a_sys_inv j sys →
  ∃ sys', alltoallv_loop PN fuel sys = Ok sys'
          ∧ rounds (alltoallv_round PN) m sys = Ok sys'
          ∧ a2a_sys_inv (length tr) sys'.
Proof.
  revert j sys fuel. induction m as [|m IH]; intros j sys fuel Hj Hf Hinv.
  - assert (j = length tr) as -> by lia. exists sys.
    unfold alltoallv_loop. destruct fuel; cbn [run];
      rewrite (a2a_all_left sys Hinv); done.
  - destruct fuel as [|fuel]; [lia|].
    assert (Hk : Z.of_nat j < N) by lia.
    unfold alltoallv_loop. cbn [run rounds].
    rewrite (a2a_none_left j sys Hk Hinv).
    destruct (a2a_round_inv j sys Hk Hinv) as (sys1 & Hr & Hinv1).
    fold (alltoallv_round PN (T := T)). rewrite Hr, !bind_Ok.
    apply (IH (S j)); [lia|lia|done].
Qed.

Lemma a2a_rounds_inv t :
  (t ≤ length tr)%nat →
  ∃ sys, alltoallv_after PN t calls = Ok sys ∧ a2a_sys_inv t sys.
Proof.
  intros Ht. unfold alltoallv_after.
  assert (G : ∀ m j sys, (j + m ≤ length tr)%nat → a2a_sys_inv j sys →
    ∃ sys', rounds (alltoallv_round PN) m sys = Ok sys'
            ∧ a2a_sys_inv (j + m) sys').
  { induction m as [|m IH]; intros j sys Hj Hinv.
    - exists sys. by rewrite Nat.add_0_r.
    - assert (Hlt : Z.of_nat j < N) by lia.
      destruct (a2a_round_inv j sys Hlt Hinv) as (sys1 & Hr & Hinv1).
      destruct (IH (S j) sys1) as (sys' & Hrs & Hinv'); [lia|done|].
      exists sys'. cbn [rounds]. rewrite Hr, bind_Ok.
      replace (j + S m)%nat with (S j + m)%nat by lia. done. }
  destruct (G t O (alltoallv_init <$> calls)) as (sys & Hr & Hinv);
    [lia|apply a2a_init_inv|]. eauto.
Qed.

Lemma a2a_result fuel :
  (length tr ≤ fuel)%nat →
  ∃ sys, lwgrp_ring_alltoallv_linear PN fuel calls =
           Ok ((λ v, (0, v)) <$> sys)
         ∧ alltoallv_after PN (length tr) calls = Ok sys
         ∧ a2a_sys_inv (length tr) sys.
Proof.
  intros Hf.
  destruct (a2a_loop_inv (length tr) O (alltoallv_init <$> calls) fuel)
    as (sys & Hloop & Hrounds & Hinv); [lia|lia|apply a2a_init_inv|].
  exists sys. unfold lwgrp_ring_alltoallv_linear. rewrite Hloop, bind_Ok.
  done.
Qed.
End alltoallv_ring.

(** ** What the receive buffer ends up holding *)

Lemma take_drop_inserts_same {A} (l k : list A) d :
  (d + length k ≤ length l)%nat →
  take (length k) (drop d (list_inserts d k l)) = k.
Proof.
  intros H. apply list_eq. intros j.
  destruct (decide (j < length k)%nat).
  - rewrite lookup_take_lt, lookup_drop, list_lookup_inserts by lia.
    f_equal. lia.
  - rewrite lookup_take_ge by lia. symmetry. apply lookup_ge_None. lia.
Qed.

Lemma take_drop_inserts_other {A} (l k : list A) d d' n :
  (d + n ≤ d' ∨ d' + length k ≤ d)%nat →
  take n (drop d (list_inserts d' k l)) = take n (drop d l).
Proof.
  intros H. apply list_eq. intros j.
  destruct (decide (j < n)%nat).
  - rewrite !lookup_take_lt, !lookup_drop by lia.
    destruct H; [apply list_lookup_inserts_lt|apply list_lookup_inserts_ge]; lia.
  - by rewrite !lookup_take_ge by lia.
Qed.

Section alltoallv_buffer.
Variable tr : list Z.
Context {T : Type}.
Variable calls : list (alltoallv_call (T := T)).
Variable i : Z.

Local Abbreviation N := (Z.of_nat (length tr)).

(** The part of the receive buffer at position [i] that a round
    receiving from position [j] writes. *)
Definition a2a_region (j : Z) (p : nat) : Prop :=
  (Z.to_nat (a2a_displ tr calls i j) ≤ p
   < Z.to_nat (a2a_displ tr calls i j) + length (a2a_block tr calls j i))%nat.

Lemma a2a_recvbuf_untouched t p :
  (∀ t', (t' < t)%nat → ¬ a2a_region (i - 2 ^ Z.of_nat t') p) →
  a2a_recvbuf tr calls i t !! p = a2a_recvbuf tr calls i 0 !! p.
Proof.
  induction t as [|t IH]; intros H; [done|].
  rewrite <- IH by (intros; apply H; lia).
  change (a2a_recvbuf tr calls i (S t)) with
    (list_inserts (Z.to_nat (a2a_displ tr calls i (i - 2 ^ Z.of_nat t)))
       (a2a_block tr calls (i - 2 ^ Z.of_nat t) i) (a2a_recvbuf tr calls i t)).
  pose proof (H t ltac:(lia)) as Ht. unfold a2a_region in Ht.
  destruct (decide (p < Z.to_nat (a2a_displ tr calls i (i - 2 ^ Z.of_nat t)))%nat).
  - by apply list_lookup_inserts_lt.
  - apply list_lookup_inserts_ge. lia.
Qed.

Lemma a2a_recvbuf_delivered t t0 ci :
  ring_call tr calls i = Some ci →
  (∀ t', (t' < t)%nat →
     (Z.to_nat (a2a_displ tr calls i (i - 2 ^ Z.of_nat t'))
      + length (a2a_block tr calls (i - 2 ^ Z.of_nat t') i)
      ≤ length (recvbuf ci))%nat) →
  (∀ t', (t0 < t' < t)%nat →
     (i - 2 ^ Z.of_nat t') `mod` N = (i - 2 ^ Z.of_nat t0) `mod` N
     ∨ (Z.to_nat (a2a_displ tr calls i (i - 2 ^ Z.of_nat t0))
        + length (a2a_block tr calls (i - 2 ^ Z.of_nat t0) i)
        ≤ Z.to_nat (a2a_displ tr calls i (i - 2 ^ Z.of_nat t')))%nat
     ∨ (Z.to_nat (a2a_displ tr calls i (i - 2 ^ Z.of_nat t'))
        + length (a2a_block tr calls (i - 2 ^ Z.of_nat t') i)
        ≤ Z.to_nat (a2a_displ tr calls i (i - 2 ^ Z.of_nat t0)))%nat) →
  (t0 < t)%nat →
  take (length (a2a_block tr calls (i - 2 ^ Z.of_nat t0) i))
       (drop (Z.to_nat (a2a_displ tr calls i (i - 2 ^ Z.of_nat t0)))
             (a2a_recvbuf tr calls i t))
  = a2a_block tr calls (i - 2 ^ Z.of_nat t0) i.
Proof.
  intros Hci. induction t as [|t IH]; intros Hfit Hdis Hlt; [lia|].
  cbn [a2a_recvbuf].
  destruct (decide (t = t0)) as [->|Hne].
  - apply take_drop_inserts_same.
    rewrite (a2a_recvbuf_length tr calls i t0 ci Hci). apply Hfit. lia.
  - destruct (Hdis t ltac:(lia)) as [E|E].
    + rewrite (a2a_displ_congr tr calls _ _ i i E eq_refl).
      rewrite (a2a_block_congr tr calls _ _ i i E eq_refl).
      apply take_drop_inserts_same.
      rewrite (a2a_recvbuf_length tr calls i t ci Hci). apply Hfit. lia.
    + rewrite take_drop_inserts_other by lia.
      apply IH; [intros; apply Hfit; lia|intros; apply Hdis; lia|lia].
Qed.
End alltoallv_buffer.

(** ** The results of [lwgrp_ring_alltoallv_linear] *)

Ltac a2a_hyps H :=
  destruct H as (Hnodup & Hlen0 & Hnone & Hsize & Hclen & Hgroup & Hok).

Lemma a2a_fit {T} PN c tr (calls : list (alltoallv_call (T := T))) i j ci :
  a2a_wf PN c tr calls → ring_call tr calls i = Some ci →
  0 ≤ a2a_displ tr calls i j
  ∧ a2a_displ tr calls i j + Z.of_nat (length (a2a_block tr calls j i))
    ≤ Z.of_nat (length (recvbuf ci)).
Proof.
  intros Hwf Hi. a2a_hyps Hwf.
  destruct (ring_call_some tr calls Hlen0 Hclen j) as [cj Hj].
  destruct (ring_call_ok tr calls Hlen0 Hclen Hok i j ci cj Hi Hj)
    as (sd & sc & rd & rc & Hsd & Hsc & Hrd & Hrc & ? & ? & ? & ? & ? & ?).
  rewrite (a2a_block_length tr calls Hlen0 Hclen Hok j i cj Hj).
  unfold a2a_displ. rewrite Hi.
  rewrite (gz_of_lookup _ _ _ Hrd), (gz_of_lookup _ _ _ Hsc). lia.
Qed.

Lemma a2a_final {T} PN c tr (calls : list (alltoallv_call (T := T))) fuel :
  a2a_wf PN c tr calls → (length tr ≤ fuel)%nat →
  ∃ sys, lwgrp_ring_alltoallv_linear PN fuel calls =
           Ok ((λ v, (0, v)) <$> sys)
         ∧ a2a_sys_inv tr calls (length tr) sys.
Proof.
  intros Hwf Hf. a2a_hyps Hwf.
  destruct (a2a_result PN c tr calls) with (fuel := fuel)
    as (sys & Hrun & _ & Hinv); try done.
  eauto.
Qed.

Lemma a2a_final_lookup {T} tr (calls : list (alltoallv_call (T := T)))
    t sys i (x : Z * alltoallv_vars) :
  a2a_sys_inv tr calls t sys →
  ((λ v, (0, v)) <$> sys) !! i = Some x →
  x.1 = 0 ∧ a2a_inv tr calls t (Z.of_nat i) x.2.
Proof.
  intros [_ Hall] Hx. rewrite list_lookup_fmap in Hx.
  destruct (sys !! i) as [v|] eqn:Hv; [|done].
  injection Hx as <-. split; [done|]. by apply Hall.
Qed.

(** Lines 215-247, the loop bound and the returned value.  Every
    caller of a ring of [N] processes whose arrays agree completes exactly
    [N] wait-alls, one per iteration of [while (dist < ranks)], and
    returns 0. *)
Theorem alltoallv_round_count {T} PN c tr
    (calls : list (alltoallv_call (T := T))) fuel :
  a2a_wf PN c tr calls → (length tr ≤ fuel)%nat →
  ∃ res, lwgrp_ring_alltoallv_linear PN fuel calls = Ok res
    ∧ length res = length tr
    ∧ ∀ i r v, res !! i = Some (r, v) →
        r = 0 ∧ calls !! i = Some (call v)
        ∧ a_waitalls v = length tr
        ∧ a_dist v = Z.of_nat (length tr).
Proof.
  intros Hwf Hf.
  destruct (a2a_final PN c tr calls fuel Hwf Hf) as (sys & Hrun & Hinv).
  a2a_hyps Hwf.
  exists ((λ v, (0, v)) <$> sys). split; [done|].
  split; [rewrite length_fmap; apply Hinv|].
  intros i r v Hx.
  destruct (a2a_final_lookup tr calls _ sys i _ Hinv Hx)
    as (Hr & Hc & Hd & Hw & _).
  cbn in Hr, Hc, Hd, Hw. repeat split; try done.
  destruct (ring_call_nat tr calls Hlen0 Hclen i) as [E|E].
  - by rewrite <- E.
  - apply lookup_lt_Some in Hx. rewrite length_fmap in Hx.
    destruct Hinv as [Hl _]. apply lookup_ge_None in E. lia.
Qed.

(** Lines 216-217, 230-234 and 240-241, the exchange of addresses.
    Each round a
    process takes as its next [src] the [src] of its [src], and as its
    next [dst] the [dst] of its [dst]: after [t] rounds the caller at
    position [i] receives from the caller [2 ^ t] positions to its left
    and sends to the one [2 ^ t] positions to its right.  The distance
    doubles every round; it does not grow by one. *)
Theorem alltoallv_peers_double {T} PN c tr
    (calls : list (alltoallv_call (T := T))) t :
  a2a_wf PN c tr calls → (t ≤ length tr)%nat →
  ∃ sys, alltoallv_after PN t calls = Ok sys
    ∧ length sys = length tr
    ∧ ∀ i v, sys !! i = Some v →
        src v = ring_at tr (Z.of_nat i - 2 ^ Z.of_nat t)
        ∧ dst v = ring_at tr (Z.of_nat i + 2 ^ Z.of_nat t)
        ∧ a_dist v = Z.of_nat t.
Proof.
  intros Hwf Ht. a2a_hyps Hwf.
  destruct (a2a_rounds_inv PN c tr calls) with (t := t)
    as (sys & Hrun & Hlen & Hall); try done.
  exists sys. split; [done|]. split; [done|].
  intros i v Hv. destruct (Hall i v Hv) as (_ & Hd & _ & Hs & Hdst & _).
  done.
Qed.

(** Lines 219-245, the receive buffer.  The buffer a caller ends with
    is its buffer with, for [t = 0, 1, ..., N - 1] in this order, the
    block that the caller [2 ^ t] positions to its left holds for it
    written at the displacement it gave for that caller. *)
Theorem alltoallv_recvbuf {T} PN c tr
    (calls : list (alltoallv_call (T := T))) fuel :
  a2a_wf PN c tr calls → (length tr ≤ fuel)%nat →
  ∃ res, lwgrp_ring_alltoallv_linear PN fuel calls = Ok res
    ∧ ∀ i r v, res !! i = Some (r, v) →
        cur_recvbuf v = a2a_recvbuf tr calls (Z.of_nat i) (length tr)
        ∧ length (cur_recvbuf v) = length (recvbuf (call v)).
Proof.
  intros Hwf Hf.
  destruct (a2a_final PN c tr calls fuel Hwf Hf) as (sys & Hrun & Hinv).
  exists ((λ v, (0, v)) <$> sys). split; [done|].
  intros i r v Hx.
  destruct (a2a_final_lookup tr calls _ sys i _ Hinv Hx)
    as (_ & Hc & _ & _ & _ & _ & Hbuf).
  cbn in Hc, Hbuf. split; [done|].
  rewrite Hbuf. by apply a2a_recvbuf_length.
Qed.

(** The receive regions of the caller at position [i] for two different
    callers do not overlap. *)
Definition a2a_disjoint {T} (tr : list Z)
    (calls : list (alltoallv_call (T := T))) (i : Z) : Prop :=
  ∀ j j' : nat, (j < length tr)%nat → (j' < length tr)%nat → j ≠ j' →
    a2a_displ tr calls i (Z.of_nat j)
      + Z.of_nat (length (a2a_block tr calls (Z.of_nat j) i))
      ≤ a2a_displ tr calls i (Z.of_nat j')
    ∨ a2a_displ tr calls i (Z.of_nat j')
        + Z.of_nat (length (a2a_block tr calls (Z.of_nat j') i))
        ≤ a2a_displ tr calls i (Z.of_nat j).

Lemma a2a_delivered {T} PN c tr
    (calls : list (alltoallv_call (T := T))) fuel (i t : nat) :
  a2a_wf PN c tr calls → (length tr ≤ fuel)%nat →
  (i < length tr)%nat → (t < length tr)%nat →
  a2a_disjoint tr calls (Z.of_nat i) →
  ∃ res r v, lwgrp_ring_alltoallv_linear PN fuel calls = Ok res
    ∧ res !! i = Some (r, v)
    ∧ take (length (a2a_block tr calls (Z.of_nat i - 2 ^ Z.of_nat t) (Z.of_nat i)))
        (drop (Z.to_nat (a2a_displ tr calls (Z.of_nat i)
                           (Z.of_nat i - 2 ^ Z.of_nat t)))
              (cur_recvbuf v))
      = a2a_block tr calls (Z.of_nat i - 2 ^ Z.of_nat t) (Z.of_nat i).
Proof.
  intros Hwf Hf Hi Ht Hdis.
  destruct (a2a_final PN c tr calls fuel Hwf Hf) as (sys & Hrun & Hinv).
  pose proof Hinv as [Hlen Hall].
  destruct (sys !! i) as [v|] eqn:Hv.
  2:{ apply lookup_ge_None in Hv. lia. }
  exists ((λ v, (0, v)) <$> sys), 0, v. split; [done|].
  split; [by rewrite list_lookup_fmap, Hv|].
  destruct (Hall i v Hv) as (Hc & _ & _ & _ & _ & ->).
  pose proof (λ j, a2a_fit PN c tr calls (Z.of_nat i) j _ Hwf Hc) as Hfit.
  apply (a2a_recvbuf_delivered tr calls (Z.of_nat i) (length tr) t _ Hc);
    [| |done].
  - intros t' _. destruct (Hfit (Z.of_nat i - 2 ^ Z.of_nat t')). lia.
  - intros t' _.
    set (J := (Z.of_nat i - 2 ^ Z.of_nat t') `mod` Z.of_nat (length tr)).
    set (J0 := (Z.of_nat i - 2 ^ Z.of_nat t) `mod` Z.of_nat (length tr)).
    destruct (decide (J = J0)) as [E|E]; [by left|right].
    pose proof (Z.mod_pos_bound (Z.of_nat i - 2 ^ Z.of_nat t')
                  (Z.of_nat (length tr)) ltac:(lia)) as HJ.
    pose proof (Z.mod_pos_bound (Z.of_nat i - 2 ^ Z.of_nat t)
                  (Z.of_nat (length tr)) ltac:(lia)) as HJ0.
    fold J in HJ. fold J0 in HJ0.
    assert (EJ : J `mod` Z.of_nat (length tr)
                 = (Z.of_nat i - 2 ^ Z.of_nat t') `mod` Z.of_nat (length tr)).
    { unfold J. by rewrite Z.mod_mod by lia. }
    assert (EJ0 : J0 `mod` Z.of_nat (length tr)
                  = (Z.of_nat i - 2 ^ Z.of_nat t) `mod` Z.of_nat (length tr)).
    { unfold J0. by rewrite Z.mod_mod by lia. }
    pose proof (Hdis (Z.to_nat J0) (Z.to_nat J) ltac:(lia) ltac:(lia)
                  ltac:(lia)) as H.
    rewrite !Z2Nat.id in H by lia.
    rewrite (a2a_displ_congr tr calls _ _ _ _ EJ eq_refl) in H.
    rewrite (a2a_displ_congr tr calls _ _ _ _ EJ0 eq_refl) in H.
    rewrite (a2a_block_congr tr calls _ _ _ _ EJ eq_refl) in H.
    rewrite (a2a_block_congr tr calls _ _ _ _ EJ0 eq_refl) in H.
    destruct (Hfit (Z.of_nat i - 2 ^ Z.of_nat t')).
    destruct (Hfit (Z.of_nat i - 2 ^ Z.of_nat t)).
    lia.
Qed.

(** Lines 219-245, what is delivered.  A caller whose receive regions
    do not overlap ends with the block of the caller [2 ^ t] positions to
    its left in the region for that caller, for every [t < N]. *)
Theorem alltoallv_delivered {T} PN c tr
    (calls : list (alltoallv_call (T := T))) fuel (i t : nat) :
  a2a_wf PN c tr calls → (length tr ≤ fuel)%nat →
  (i < length tr)%nat → (t < length tr)%nat →
  a2a_disjoint tr calls (Z.of_nat i) →
  ∃ res r v, lwgrp_ring_alltoallv_linear PN fuel calls = Ok res
    ∧ res !! i = Some (r, v)
    ∧ take (length (a2a_block tr calls (Z.of_nat i - 2 ^ Z.of_nat t) (Z.of_nat i)))
        (drop (Z.to_nat (a2a_displ tr calls (Z.of_nat i)
                           (Z.of_nat i - 2 ^ Z.of_nat t)))
              (cur_recvbuf v))
      = a2a_block tr calls (Z.of_nat i - 2 ^ Z.of_nat t) (Z.of_nat i).
Proof. apply a2a_delivered. Qed.

(** Lines 216-245, rings of one and two.  On a ring of one or two
    callers the distances [2 ^ 0] and [2 ^ 1] reach every position: a
    caller whose receive regions do not overlap ends with the block of
    every caller, its own included, in the region for that caller. *)
Theorem alltoallv_complete_small {T} PN c tr
    (calls : list (alltoallv_call (T := T))) fuel (i j : nat) :
  a2a_wf PN c tr calls → (length tr ≤ fuel)%nat → (length tr ≤ 2)%nat →
  (i < length tr)%nat → (j < length tr)%nat →
  a2a_disjoint tr calls (Z.of_nat i) →
  ∃ res r v, lwgrp_ring_alltoallv_linear PN fuel calls = Ok res
    ∧ res !! i = Some (r, v)
    ∧ take (length (a2a_block tr calls (Z.of_nat j) (Z.of_nat i)))
        (drop (Z.to_nat (a2a_displ tr calls (Z.of_nat i) (Z.of_nat j)))
              (cur_recvbuf v))
      = a2a_block tr calls (Z.of_nat j) (Z.of_nat i).
Proof.
  intros Hwf Hf Hsmall Hi Hj Hdis.
  assert (Ht : ∃ t, (t < length tr)%nat ∧
            (Z.of_nat i - 2 ^ Z.of_nat t) `mod` Z.of_nat (length tr)
            = Z.of_nat j `mod` Z.of_nat (length tr)).
  { destruct (length tr) as [|[|[|n]]]; [lia| | |lia].
    - exists O. split; [lia|]. by rewrite !Z.mod_1_r.
    - destruct (decide (i = j)) as [->|Hne].
      + exists 1%nat. split; [lia|].
        change (2 ^ Z.of_nat 1) with (1 * Z.of_nat 2).
        replace (Z.of_nat j - 1 * Z.of_nat 2)
          with (Z.of_nat j + (-1) * Z.of_nat 2) by lia.
        by rewrite Z_mod_plus_full.
      + exists O. split; [lia|].
        assert (i = O ∧ j = 1%nat ∨ i = 1%nat ∧ j = O) as [[-> ->]|[-> ->]]
          by lia; reflexivity. }
  destruct Ht as (t & Ht & E).
  destruct (a2a_delivered PN c tr calls fuel i t Hwf Hf Hi Ht Hdis)
    as (res & r & v & Hres & Hv & Hblk).
  exists res, r, v. split; [done|]. split; [done|].
  by rewrite <- (a2a_block_congr tr calls _ _ _ _ E eq_refl),
             <- (a2a_displ_congr tr calls _ _ _ _ E eq_refl).
Qed.

(** Lines 219-245, what is not delivered.  An element of the receive
    buffer that lies in none of the regions written by the rounds, those
    of the callers [2 ^ t] positions to the left for [t < N], is after
    the call what it was before: the block of a caller at another
    distance never arrives. *)
Theorem alltoallv_untouched {T} PN c tr
    (calls : list (alltoallv_call (T := T))) fuel (i p : nat) ci :
  a2a_wf PN c tr calls → (length tr ≤ fuel)%nat →
  calls !! i = Some ci →
  (∀ t, (t < length tr)%nat →
     ¬ a2a_region tr calls (Z.of_nat i) (Z.of_nat i - 2 ^ Z.of_nat t) p) →
  ∃ res r v, lwgrp_ring_alltoallv_linear PN fuel calls = Ok res
    ∧ res !! i = Some (r, v)
    ∧ cur_recvbuf v !! p = recvbuf ci !! p.
Proof.
  intros Hwf Hf Hci Hout.
  destruct (a2a_final PN c tr calls fuel Hwf Hf) as (sys & Hrun & Hinv).
  a2a_hyps Hwf. pose proof Hinv as [Hlen Hall].
  pose proof (lookup_lt_Some _ _ _ Hci) as Hi.
  destruct (sys !! i) as [v|] eqn:Hv.
  2:{ apply lookup_ge_None in Hv. lia. }
  exists ((λ v, (0, v)) <$> sys), 0, v. split; [done|].
  split; [by rewrite list_lookup_fmap, Hv|].
  destruct (Hall i v Hv) as (Hc & _ & _ & _ & _ & ->).
  rewrite (a2a_recvbuf_untouched tr calls (Z.of_nat i) (length tr) p Hout).
  cbn [a2a_recvbuf]. rewrite Hc.
  destruct (ring_call_nat tr calls Hlen0 Hclen i) as [E|E]; congruence.
Qed.

(** Line 219, the empty group.  When every caller's group has size 0 or
    less, as the null group has, nothing is posted and nothing is
    received: every caller returns 0 at once, with its receive buffer as
    it was. *)
Theorem alltoallv_empty_group {T} PN
    (calls : list (alltoallv_call (T := T))) fuel :
  Forall (λ c, group_size (group c) ≤ 0) calls →
  lwgrp_ring_alltoallv_linear PN fuel calls =
    Ok ((λ c, (0, alltoallv_init c)) <$> calls)
  ∧ Forall (λ x, x.1 = 0 ∧ a_waitalls x.2 = O
                 ∧ cur_recvbuf x.2 = recvbuf (call x.2))
      ((λ c, (0, alltoallv_init c)) <$> calls).
Proof.
  intros H. split.
  - unfold lwgrp_ring_alltoallv_linear, alltoallv_loop.
    assert (E : forallb (λ v, negb (alltoallv_cond v))
                  (alltoallv_init <$> calls) = true).
    { apply forallb_forall.
      intros v (c & <- & Hc)%in_map_iff.
      unfold alltoallv_cond. cbn.
      rewrite bool_decide_eq_false_2; [done|].
      rewrite Forall_forall in H. specialize (H c Hc). cbn in H. lia. }
    destruct fuel; cbn [run]; rewrite E, bind_Ok, <- list_fmap_compose; done.
  - apply Forall_fmap, Forall_forall. intros c _. done.
Qed.

(** * What [lwgrp_ring_split_bin] does not check *)

Lemma mapM_Err_MemFault {A B} (f : A → res B) l i x :
  l !! i = Some x → f x = Err MemFault →
  (∀ y, y ∈ l → (∃ z, f y = Ok z) ∨ f y = Err MemFault) →
  mapM f l = Err MemFault.
Proof.
  revert i. induction l as [|y l IH]; intros i Hi Hx Hall; [done|].
  cbn. destruct (Hall y ltac:(left)) as [[z Hz]|Hz]; rewrite Hz; cbn; [|done].
  destruct i as [|i]; cbn in Hi.
  - injection Hi as ->. congruence.
  - rewrite (IH i Hi Hx); [done|]. intros y' Hy'. apply Hall. by right.
Qed.

Lemma init_malloc_fails PN c :
  arg_malloc c = None → 0 < arg_num_bins c → 2 * arg_num_bins c ≤ INT_MAX →
  split_bin_init PN c = Err MemFault.
Proof.
  intros Hm Hnb Hmax. unfold split_bin_init. rewrite Hm. cbn [num_bins].
  destruct (Z.to_nat (arg_num_bins c)) as [|n] eqn:E; [lia|].
  cbn [for_step2 lwgrp_malloc fmap option_fmap option_map].
  rewrite (wrap_id (2 * arg_num_bins c)) by (unfold INT_MIN, INT_MAX in *; lia).
  rewrite decide_True by lia. done.
Qed.

(** Lines 57-59 and 69-74.  The test [bins == NULL] has an empty body:
    when the allocation fails for one caller of a ring and there is at
    least one bin, that caller goes on to clear the buffers through the
    null pointer, and the collective call ends in a memory fault instead
    of reporting an error. *)
Theorem split_bin_malloc_failure PN c nb tr mbs outs mallocs fuel i :
  ring_wf PN nb tr mbs → 0 < nb →
  (i < length tr)%nat → mallocs i = None →
  lwgrp_ring_split_bin PN fuel (ring_calls c nb tr mbs outs mallocs)
  = Err MemFault.
Proof.
  intros Hwf Hnb Hi Hm. ring_hyps Hwf.
  unfold lwgrp_ring_split_bin.
  rewrite (mapM_Err_MemFault (split_bin_init PN) _ i
             {| arg_num_bins := nb; arg_my_bin := bin_of mbs i;
                arg_in := ring_member c tr i; arg_out := outs i;
                arg_malloc := mallocs i |}); [done| | |].
  - unfold ring_calls. rewrite list_lookup_fmap, lookup_seq_lt by done. done.
  - apply init_malloc_fails; cbn; [done|lia|unfold INT_MAX in *; lia].
  - intros y (j & Hj)%list_elem_of_lookup.
    unfold ring_calls in Hj. rewrite list_lookup_fmap in Hj.
    destruct (seq 0 (length tr) !! j) as [j'|] eqn:E; cbn in Hj; [|done].
    apply lookup_seq in E as [-> Hlt]. injection Hj as <-.
    destruct (mallocs j) as [junk|] eqn:Hmj.
    + left.
      destruct (split_bin_init_ok PN nb (conj Hnb0 Hnbmax)
                  {| arg_num_bins := nb; arg_my_bin := default (-1) (mbs !! j);
                     arg_in := ring_member c tr j; arg_out := outs j;
                     arg_malloc := Some junk |} junk eq_refl)
        as (l & -> & _); [|done|by eauto].
      cbn. destruct (mbs !! j) as [b|] eqn:Eb; cbn; [|lia].
      exact (Forall_lookup_1 _ _ _ _ Hmrange Eb).
    + right. apply init_malloc_fails; cbn; [done|lia|unfold INT_MAX in *; lia].
Qed.

Lemma finish_success PN v r :
  split_bin_finish PN v = Ok r → r.1 = LWGRP_SUCCESS.
Proof.
  unfold split_bin_finish.
  destruct (decide (0 ≤ my_bin v)); cbn.
  - destruct (load (bins v) (send_right_bins v + _)) as [a|]; [|done].
    rewrite bind_Ok.
    destruct (load (bins v) (send_left_bins v + _)) as [b|]; [|done].
    rewrite !bind_Ok. by intros [= <-].
  - by intros [= <-].
Qed.

(** Lines 46-48, 57-59 and 189.  The two tests for a bad call have empty
    bodies and the only [return] of the function returns
    [LWGRP_SUCCESS]: whatever the callers pass, a bin at or beyond
    [num_bins] included, a caller that returns at all returns
    [LWGRP_SUCCESS]. *)
Theorem split_bin_only_success PN fuel calls res :
  lwgrp_ring_split_bin PN fuel calls = Ok res →
  Forall (λ x, x.1.1 = LWGRP_SUCCESS) res.
Proof.
  unfold lwgrp_ring_split_bin.
  destruct (mapM (split_bin_init PN) calls) as [sys0|]; cbn; [|done].
  destruct (split_bin_loop PN fuel sys0) as [sys|]; cbn; [|done].
  intros H%mapM_Ok_inv. induction H as [|v x sys res Hv _ IH]; constructor;
    [|done].
  destruct (split_bin_finish PN v) as [r|] eqn:Hr; cbn in Hv; [|done].
  injection Hv as <-. cbn. by apply (finish_success PN v).
Qed.

(** * The further properties on concrete callers *)

Lemma split_bin_ring_links_witness :
  ring_wf (-1) 2 [10; 11; 12; 13] [0; 1; 0; 1]
  ∧ ∃ res,
      lwgrp_ring_split_bin (-1) 2
        (ring_calls 5 2 [10; 11; 12; 13] [0; 1; 0; 1] (λ _, blank) zeroed) = Ok res
      ∧ ∀ i j b ri oi vi rj oj vj,
          [0; 1; 0; 1] !! i = Some b → [0; 1; 0; 1] !! j = Some b → 0 ≤ b →
          (2 ≤ same_bin b [0; 1; 0; 1]%Z)%nat →
          res !! i = Some (ri, oi, vi) → res !! j = Some (rj, oj, vj) →
          group_rank oj = (group_rank oi + 1) `mod` group_size oi →
          comm_right oi = comm_rank oj ∧ comm_left oj = comm_rank oi
          ∧ comm_right oi ≠ -1 ∧ comm_left oj ≠ -1
          ∧ comm oi = 5 ∧ comm_rank oi = ring_at [10; 11; 12; 13] (Z.of_nat i).
Proof.
  assert (Hwf : ring_wf (-1) 2 [10; 11; 12; 13] [0; 1; 0; 1]) by solve_wf.
  split; [exact Hwf|].
  apply (split_bin_ring_links (-1) 5 2 [10; 11; 12; 13] [0; 1; 0; 1]
           (λ _, blank) zeroed 2 Hwf).
  - intros i _. unfold zeroed. eauto.
  - vm_compute. lia.
Defined.

Lemma split_bin_lone_member_witness :
  ring_wf (-1) 2 [10; 11; 12] [0; 1; 1]
  ∧ ∃ res,
      lwgrp_ring_split_bin (-1) 2
        (ring_calls 5 2 [10; 11; 12] [0; 1; 1] (λ _, blank) zeroed) = Ok res
      ∧ ∀ i b r out v,
          [0; 1; 1] !! i = Some b → 0 ≤ b → same_bin b [0; 1; 1] = 1%nat →
          res !! i = Some (r, out, v) →
          group_size out = 1 ∧ group_rank out = 0
          ∧ ((3 = 1 ∨ 2 ^ log2_rounds 3 ≠ 3)%nat →
             comm_left out = ring_at [10; 11; 12] (Z.of_nat i)
             ∧ comm_right out = ring_at [10; 11; 12] (Z.of_nat i))
          ∧ ((2 ≤ 3)%nat → (2 ^ log2_rounds 3 = 3)%nat →
             comm_left out = -1 ∧ comm_right out = -1).
Proof.
  assert (Hwf : ring_wf (-1) 2 [10; 11; 12] [0; 1; 1]) by solve_wf.
  split; [exact Hwf|].
  apply (split_bin_lone_member (-1) 5 2 [10; 11; 12] [0; 1; 1]
           (λ _, blank) zeroed 2 Hwf).
  - intros i _. unfold zeroed. eauto.
  - vm_compute. lia.
Defined.

Lemma split_bin_scan_invariant_witness :
  ring_wf (-1) 2 [10; 11; 12; 13] [0; 1; 0; 1]
  ∧ ∃ sys,
      split_bin_after (-1) 1
        (ring_calls 5 2 [10; 11; 12; 13] [0; 1; 0; 1] (λ _, blank) zeroed) = Ok sys
      ∧ length sys = 4%nat.
Proof.
  assert (Hwf : ring_wf (-1) 2 [10; 11; 12; 13] [0; 1; 0; 1]) by solve_wf.
  split; [exact Hwf|].
  destruct (split_bin_scan_invariant (-1) 5 2 [10; 11; 12; 13] [0; 1; 0; 1]
              (λ _, blank) zeroed 1 Hwf) as (sys & Hsys & Hlen & _).
  - intros i _. unfold zeroed. eauto.
  - vm_compute. lia.
  - exists sys. split; [exact Hsys|exact Hlen].
Defined.

Lemma split_bin_bin_independent_witness :
  ring_wf (-1) 2 [10; 11; 12; 13] [0; 1; 0; 1]
  ∧ ring_wf (-1) 2 [10; 11; 12; 13] [0; -1; 0; 1]
  ∧ ∃ res res',
      lwgrp_ring_split_bin (-1) 2
        (ring_calls 5 2 [10; 11; 12; 13] [0; 1; 0; 1] (λ _, blank) zeroed) = Ok res
      ∧ lwgrp_ring_split_bin (-1) 2
          (ring_calls 5 2 [10; 11; 12; 13] [0; -1; 0; 1] (λ _, blank) zeroed)
        = Ok res'
      ∧ ∀ i, [0; 1; 0; 1] !! i = Some 0 →
          ∃ r out v v', res !! i = Some (r, out, v)
                        ∧ res' !! i = Some (r, out, v').
Proof.
  assert (Hwf : ring_wf (-1) 2 [10; 11; 12; 13] [0; 1; 0; 1]) by solve_wf.
  assert (Hwf' : ring_wf (-1) 2 [10; 11; 12; 13] [0; -1; 0; 1]) by solve_wf.
  split; [exact Hwf|]. split; [exact Hwf'|].
  apply (split_bin_bin_independent (-1) 5 2 [10; 11; 12; 13] [0; 1; 0; 1]
           [0; -1; 0; 1] (λ _, blank) (λ _, blank) zeroed zeroed 2 0 Hwf Hwf').
  - intros i _. unfold zeroed. eauto.
  - intros i _. unfold zeroed. eauto.
  - vm_compute. lia.
  - lia.
  - intros j. do 4 (destruct j as [|j]; [cbn; split; congruence|]).
    cbn. done.
Defined.

Definition seed_call : split_bin_call :=
  {| arg_num_bins := 2; arg_my_bin := 1;
     arg_in := ring_member 5 [10; 11; 12] 1; arg_out := blank;
     arg_malloc := Some (λ _, 7) |}.

Lemma split_bin_init_seeds_witness :
  ∃ v, split_bin_init (-1) seed_call = Ok v ∧ vars_wf v
       ∧ cell v (send_left_bins v) 1 INDEX_CLOSEST = Some 11
       ∧ cell v (send_left_bins v) 0 INDEX_CLOSEST = Some (-1).
Proof.
  destruct (split_bin_init_seeds (-1) seed_call (λ _, 7))
    as (v & Hv & Hwf & _ & _ & _ & _ & _ & _ & _ & _ & _ & _ & Hc);
    [cbn; lia|unfold INT_MAX; cbn; lia|cbn; lia|reflexivity|].
  exists v. split; [exact Hv|]. split; [exact Hwf|].
  split.
  - exact (proj1 (proj2 (Hc 1 ltac:(cbn; lia)))).
  - exact (proj1 (proj2 (Hc 0 ltac:(cbn; lia)))).
Defined.

Definition mid_round : split_bin_vars :=
  {| num_bins := 1; my_bin := 0;
     ring_in := ring_member 5 [10; 11] 0; ring_out := blank;
     bins := Some [1; 10; 0; 0; 0; 0; 1; 10; 0; 0; 0; 0];
     left_rank := 11; right_rank := 11;
     my_left := -1; my_right := -1; dist := 1; waitalls := O |}.

Lemma mid_round_wf : vars_wf mid_round.
Proof.
  unfold vars_wf, INT_MAX. cbn. repeat split; try lia.
  eexists. split; [reflexivity|]. cbn. lia.
Defined.

Lemma split_bin_post_messages_witness :
  vars_wf mid_round
  ∧ ∃ m to_right to_left,
      split_bin_post mid_round =
        Ok (set_bins mid_round m,
            [ Irecv 11; Isend to_right 11; Irecv 11; Isend to_left 11 ])
      ∧ zlookup to_right (rank_index mid_round) = Some 11
      ∧ zlookup to_left (rank_index mid_round) = Some 11.
Proof.
  split; [exact mid_round_wf|].
  destruct (split_bin_post_messages mid_round mid_round_wf)
    as (m & to_right & to_left & Hp & _ & _ & _ & HR & HL & _).
  exists m, to_right, to_left. split; [exact Hp|]. split; [exact HR|exact HL].
Defined.

Lemma split_bin_wait_merge_witness :
  vars_wf mid_round
  ∧ ∃ v', split_bin_wait (-1) mid_round (Some [1; 11; 10]) (Some [1; 11; 10])
          = Ok v'
          ∧ dist v' = 2 ∧ left_rank v' = 10 ∧ right_rank v' = 10
          ∧ my_left v' = 11 ∧ my_right v' = 11.
Proof.
  split; [exact mid_round_wf|].
  destruct (split_bin_wait_merge (-1) mid_round [1; 11; 10] [1; 11; 10]
              mid_round_wf eq_refl eq_refl)
    as (v' & Hw & _ & _ & _ & _ & _ & Hd & _ & HL & HR & HmL & HmR & _).
  exists v'. split; [exact Hw|].
  split; [rewrite Hd; reflexivity|].
  split; [rewrite HL; reflexivity|].
  split; [rewrite HR; reflexivity|].
  split; [rewrite HmL; reflexivity|rewrite HmR; reflexivity].
Defined.

Definition failing_at (k : nat) : nat → option (nat → Z) :=
  λ i, if decide (i = k) then None else Some (λ _, 0).

Lemma split_bin_malloc_failure_witness :
  ring_wf (-1) 2 [10; 11; 12] [0; 1; 0]
  ∧ lwgrp_ring_split_bin (-1) 2
      (ring_calls 5 2 [10; 11; 12] [0; 1; 0] (λ _, blank) (failing_at 1))
    = Err MemFault.
Proof.
  assert (Hwf : ring_wf (-1) 2 [10; 11; 12] [0; 1; 0]) by solve_wf.
  split; [exact Hwf|].
  apply (split_bin_malloc_failure (-1) 5 2 [10; 11; 12] [0; 1; 0]
           (λ _, blank) (failing_at 1) 2 1 Hwf).
  - lia.
  - cbn. lia.
  - reflexivity.
Defined.

(** A lone caller that declares bin 1 of 1 bin: the bin is out of
    range. *)
Definition bad_bin_call : split_bin_call :=
  {| arg_num_bins := 1; arg_my_bin := 1;
     arg_in := ring_member 5 [5] 0; arg_out := blank;
     arg_malloc := Some (λ _, 0) |}.

Lemma split_bin_only_success_witness :
  ∃ res, lwgrp_ring_split_bin (-1) 0 [bad_bin_call] = Ok res
         ∧ Forall (λ x, x.1.1 = LWGRP_SUCCESS) res.
Proof.
  destruct (lwgrp_ring_split_bin (-1) 0 [bad_bin_call]) as [res|e] eqn:E.
  - exists res. split; [reflexivity|].
    exact (split_bin_only_success (-1) 0 [bad_bin_call] res E).
  - vm_compute in E. discriminate E.
Defined.

(** Three callers at transport ranks 2, 0 and 1, each holding one
    element for every rank. *)
Definition a2a_example : list (alltoallv_call (T := Z)) :=
  (λ i, {| sendbuf := [100 * Z.of_nat i; 100 * Z.of_nat i + 1;
                       100 * Z.of_nat i + 2];
           sendcounts := [1; 1; 1]; senddispls := [0; 1; 2];
           recvbuf := [-1; -1; -1];
           recvcounts := [1; 1; 1]; recvdispls := [0; 1; 2];
           group := ring_member 5 [2; 0; 1] i;
           junk_src_next := 0; junk_dst_next := 0 |}) <$> seq 0 3.

Lemma a2a_example_wf : a2a_wf (-1) 5 [2; 0; 1] a2a_example.
Proof.
  unfold a2a_wf, INT_MAX. repeat split.
  - apply (bool_decide_unpack _). vm_compute. exact I.
  - cbn. lia.
  - apply (bool_decide_unpack _). vm_compute. exact I.
  - cbn. lia.
  - intros i ci Hi.
    do 3 (destruct i as [|i]; [injection Hi as <-; reflexivity|]).
    discriminate Hi.
  - intros i j ci cj Hi Hj.
    do 3 (destruct i as [|i];
          [do 3 (destruct j as [|j];
                 [injection Hi as <-; injection Hj as <-;
                  eexists _, _, _, _;
                  do 4 (split; [cbv; reflexivity|]);
                  cbv; repeat split; discriminate|]);
           discriminate Hj|]).
    discriminate Hi.
Defined.

Lemma alltoallv_round_count_witness :
  a2a_wf (-1) 5 [2; 0; 1] a2a_example
  ∧ ∃ res, lwgrp_ring_alltoallv_linear (-1) 3 a2a_example = Ok res
      ∧ length res = 3%nat
      ∧ ∀ i r v, res !! i = Some (r, v) →
          r = 0 ∧ a2a_example !! i = Some (call v)
          ∧ a_waitalls v = 3%nat ∧ a_dist v = 3.
Proof.
  split; [exact a2a_example_wf|].
  apply (alltoallv_round_count (-1) 5 [2; 0; 1] a2a_example 3 a2a_example_wf).
  cbn. lia.
Defined.

Lemma alltoallv_peers_double_witness :
  a2a_wf (-1) 5 [2; 0; 1] a2a_example
  ∧ ∃ sys, alltoallv_after (-1) 2 a2a_example = Ok sys
      ∧ length sys = 3%nat
      ∧ ∀ i v, sys !! i = Some v →
          src v = ring_at [2; 0; 1] (Z.of_nat i - 2 ^ 2)
          ∧ dst v = ring_at [2; 0; 1] (Z.of_nat i + 2 ^ 2)
          ∧ a_dist v = 2.
Proof.
  split; [exact a2a_example_wf|].
  apply (alltoallv_peers_double (-1) 5 [2; 0; 1] a2a_example 2 a2a_example_wf).
  cbn. lia.
Defined.

Lemma alltoallv_recvbuf_witness :
  a2a_wf (-1) 5 [2; 0; 1] a2a_example
  ∧ ∃ res, lwgrp_ring_alltoallv_linear (-1) 3 a2a_example = Ok res
      ∧ ∀ i r v, res !! i = Some (r, v) →
          cur_recvbuf v = a2a_recvbuf [2; 0; 1] a2a_example (Z.of_nat i) 3
          ∧ length (cur_recvbuf v) = length (recvbuf (call v)).
Proof.
  split; [exact a2a_example_wf|].
  apply (alltoallv_recvbuf (-1) 5 [2; 0; 1] a2a_example 3 a2a_example_wf).
  cbn. lia.
Defined.

Lemma a2a_example_disjoint : a2a_disjoint [2; 0; 1] a2a_example 0.
Proof.
  intros j j' Hj Hj' Hne.
  do 3 (destruct j as [|j];
        [do 3 (destruct j' as [|j'];
               [first [ congruence
                      | left; vm_compute; discriminate
                      | right; vm_compute; discriminate ]|]);
         cbn in Hj'; lia|]).
  cbn in Hj. lia.
Defined.

(** The caller at position 0, of rank 2, ends with the element the
    caller two positions to its left, of rank 0, holds for it. *)
Lemma alltoallv_delivered_witness :
  a2a_wf (-1) 5 [2; 0; 1] a2a_example
  ∧ a2a_disjoint [2; 0; 1] a2a_example 0
  ∧ ∃ res r v, lwgrp_ring_alltoallv_linear (-1) 3 a2a_example = Ok res
      ∧ res !! 0%nat = Some (r, v)
      ∧ take (length (a2a_block [2; 0; 1] a2a_example (0 - 2 ^ 1) 0))
          (drop (Z.to_nat (a2a_displ [2; 0; 1] a2a_example 0 (0 - 2 ^ 1)))
                (cur_recvbuf v))
        = a2a_block [2; 0; 1] a2a_example (0 - 2 ^ 1) 0.
Proof.
  split; [exact a2a_example_wf|]. split; [exact a2a_example_disjoint|].
  apply (alltoallv_delivered (-1) 5 [2; 0; 1] a2a_example 3 0 1
           a2a_example_wf).
  - cbn. lia.
  - cbn. lia.
  - cbn. lia.
  - exact a2a_example_disjoint.
Defined.

(** The caller at position 0, of rank 2, never receives the element it
    holds for itself: the element of its receive buffer for rank 2 is
    after the call what it was before. *)
Lemma alltoallv_untouched_witness :
  a2a_wf (-1) 5 [2; 0; 1] a2a_example
  ∧ ∃ res r v, lwgrp_ring_alltoallv_linear (-1) 3 a2a_example = Ok res
      ∧ res !! 0%nat = Some (r, v)
      ∧ cur_recvbuf v !! 2%nat = Some (-1).
Proof.
  split; [exact a2a_example_wf|].
  destruct (alltoallv_untouched (-1) 5 [2; 0; 1] a2a_example 3 0 2
              {| sendbuf := [0; 1; 2];
                 sendcounts := [1; 1; 1]; senddispls := [0; 1; 2];
                 recvbuf := [-1; -1; -1];
                 recvcounts := [1; 1; 1]; recvdispls := [0; 1; 2];
                 group := ring_member 5 [2; 0; 1] 0;
                 junk_src_next := 0; junk_dst_next := 0 |}
              a2a_example_wf) as (res & r & v & Hres & Hv & Hp).
  - cbn. lia.
  - reflexivity.
  - intros t Ht. do 3 (destruct t as [|t]; [vm_compute; lia|]).
    cbn in Ht. lia.
  - exists res, r, v. split; [exact Hres|]. split; [exact Hv|exact Hp].
Defined.

(** Two callers at transport ranks 1 and 0. *)
Definition a2a_pair : list (alltoallv_call (T := Z)) :=
  (λ i, {| sendbuf := [10 * Z.of_nat i; 10 * Z.of_nat i + 1];
           sendcounts := [1; 1]; senddispls := [0; 1];
           recvbuf := [-1; -1];
           recvcounts := [1; 1]; recvdispls := [0; 1];
           group := ring_member 5 [1; 0] i;
           junk_src_next := 0; junk_dst_next := 0 |}) <$> seq 0 2.

Lemma a2a_pair_wf : a2a_wf (-1) 5 [1; 0] a2a_pair.
Proof.
  unfold a2a_wf, INT_MAX. repeat split.
  - apply (bool_decide_unpack _). vm_compute. exact I.
  - cbn. lia.
  - apply (bool_decide_unpack _). vm_compute. exact I.
  - cbn. lia.
  - intros i ci Hi.
    do 2 (destruct i as [|i]; [injection Hi as <-; reflexivity|]).
    discriminate Hi.
  - intros i j ci cj Hi Hj.
    do 2 (destruct i as [|i];
          [do 2 (destruct j as [|j];
                 [injection Hi as <-; injection Hj as <-;
                  eexists _, _, _, _;
                  do 4 (split; [cbv; reflexivity|]);
                  cbv; repeat split; discriminate|]);
           discriminate Hj|]).
    discriminate Hi.
Defined.

Lemma a2a_pair_disjoint : a2a_disjoint [1; 0] a2a_pair 0.
Proof.
  intros j j' Hj Hj' Hne.
  do 2 (destruct j as [|j];
        [do 2 (destruct j' as [|j'];
               [first [ congruence
                      | left; vm_compute; discriminate
                      | right; vm_compute; discriminate ]|]);
         cbn in Hj'; lia|]).
  cbn in Hj. lia.
Defined.

(** The caller at position 0 of the pair ends with the element it
    holds for itself. *)
Lemma alltoallv_complete_small_witness :
  a2a_wf (-1) 5 [1; 0] a2a_pair
  ∧ a2a_disjoint [1; 0] a2a_pair 0
  ∧ ∃ res r v, lwgrp_ring_alltoallv_linear (-1) 2 a2a_pair = Ok res
      ∧ res !! 0%nat = Some (r, v)
      ∧ take (length (a2a_block [1; 0] a2a_pair 0 0))
          (drop (Z.to_nat (a2a_displ [1; 0] a2a_pair 0 0)) (cur_recvbuf v))
        = a2a_block [1; 0] a2a_pair 0 0.
Proof.
  split; [exact a2a_pair_wf|]. split; [exact a2a_pair_disjoint|].
  apply (alltoallv_complete_small (-1) 5 [1; 0] a2a_pair 2 0 0 a2a_pair_wf).
  - cbn. lia.
  - cbn. lia.
  - cbn. lia.
  - cbn. lia.
  - exact a2a_pair_disjoint.
Defined.

Definition null_call : alltoallv_call (T := Z) :=
  {| sendbuf := [1; 2]; sendcounts := [1]; senddispls := [0];
     recvbuf := [3; 4]; recvcounts := [1]; recvdispls := [0];
     group := lwgrp_ring_set_null (-1) blank;
     junk_src_next := 0; junk_dst_next := 0 |}.

Lemma alltoallv_empty_group_witness :
  lwgrp_ring_alltoallv_linear (-1) 0 [null_call; null_call] =
    Ok ((λ c, (0, alltoallv_init c)) <$> [null_call; null_call])
  ∧ Forall (λ x, x.1 = 0 ∧ a_waitalls x.2 = O
                 ∧ cur_recvbuf x.2 = recvbuf (call x.2))
      ((λ c, (0, alltoallv_init c)) <$> [null_call; null_call]).
Proof.
  apply (alltoallv_empty_group (-1) [null_call; null_call] 0).
  repeat constructor; cbn; lia.
Defined.

(** * Chains, bad calls and the null group *)

(** ** A caller that is not in the loop *)

Section idle.
Variable MPI_PROC_NULL : Z.
Context {V M : Type}.
Variable rank_of : V → Z.
Variable cond : V → bool.
Variable post : V → res (V * list (op M)).
Variable wait : V → (nat → res (option M)) → res V.

Lemma posts_idle v : cond v = false → posts cond post v = Ok (v, []).
Proof. unfold posts. by intros ->. Qed.

Lemma round_idle sys sys' i v :
  round MPI_PROC_NULL rank_of cond post wait sys = Ok sys' →
  sys !! i = Some v → cond v = false → sys' !! i = Some v.
Proof.
  unfold round. intros H Hv Hc.
  destruct (mapM (posts cond post) sys) as [posted|] eqn:Hp; [|done].
  rewrite bind_Ok in H.
  destruct (waitall_ok _ _); [|done].
  apply mapM_Ok_inv in Hp, H.
  destruct (Forall2_lookup_l _ _ _ _ _ Hp Hv) as (y & Hy & Hpy).
  rewrite (posts_idle v Hc) in Hpy. injection Hpy as <-.
  destruct (Forall2_lookup_l _ _ _ _ _ H Hy) as (v' & Hv' & Hw).
  unfold waits in Hw. cbn in Hw. rewrite Hc in Hw. by injection Hw as <-.
Qed.

Lemma run_idle fuel sys sys' i v :
  run MPI_PROC_NULL rank_of cond post wait fuel sys = Ok sys' →
  sys !! i = Some v → cond v = false → sys' !! i = Some v.
Proof.
  revert sys. induction fuel as [|fuel IH]; intros sys H Hv Hc; cbn [run] in H.
  - destruct (forallb _ sys); [by injection H as <-|done].
  - destruct (forallb _ sys); [by injection H as <-|].
    destruct (round _ _ _ _ _ sys) as [sys1|] eqn:Hr; [|done].
    rewrite bind_Ok in H.
    apply (IH sys1 H); [|done]. by apply (round_idle sys sys1 i v Hr).
Qed.

Lemma run_all_idle fuel sys :
  Forall (λ v, cond v = false) sys →
  run MPI_PROC_NULL rank_of cond post wait fuel sys = Ok sys.
Proof.
  intros H.
  assert (E : forallb (λ v, negb (cond v)) sys = true).
  { apply forallb_forall. intros v Hv%list_elem_of_In.
    rewrite List.Forall_forall in H.
    by rewrite (H v (proj1 (list_elem_of_In _ _) Hv)). }
  destruct fuel; cbn [run]; by rewrite E.
Qed.
End idle.

(** C10.  A caller of [lwgrp_ring_alltoallv_linear] whose group is the
    null chain, of size 0, is never in the loop of line 219: it posts no
    send and no receive; whatever the other callers of the collective call
    do, when the call returns this caller has returned 0 with no wait-all
    completed and its receive buffer as it was; and the call does return,
    for every step bound, when all its callers hold the null chain. *)
Theorem alltoallv_null_chain {T} PN
    (calls : list (alltoallv_call (T := T))) fuel i c :
  calls !! i = Some c → group_size (group c) = 0 →
  alltoallv_cond (alltoallv_init c) = false
  ∧ posts alltoallv_cond (alltoallv_post PN) (alltoallv_init c)
    = Ok (alltoallv_init c, [])
  ∧ (∀ res, lwgrp_ring_alltoallv_linear PN fuel calls = Ok res →
       ∃ v, res !! i = Some (0, v) ∧ call v = c
            ∧ a_waitalls v = O ∧ cur_recvbuf v = recvbuf c)
  ∧ (Forall (λ c', group_size (group c') = 0) calls →
     ∃ res, lwgrp_ring_alltoallv_linear PN fuel calls = Ok res).
Proof.
  intros Hc Hsize.
  assert (Hcond : alltoallv_cond (alltoallv_init c) = false).
  { unfold alltoallv_cond. cbn. rewrite Hsize. done. }
  split; [done|]. split; [by apply posts_idle|]. split.
  - intros res Hres. unfold lwgrp_ring_alltoallv_linear in Hres.
    destruct (alltoallv_loop PN fuel (alltoallv_init <$> calls))
      as [sys|] eqn:Hloop; [|done].
    rewrite bind_Ok in Hres. injection Hres as <-.
    exists (alltoallv_init c).
    rewrite list_lookup_fmap.
    rewrite (run_idle PN _ _ _ _ fuel _ sys i (alltoallv_init c) Hloop);
      [done| |done].
    by rewrite list_lookup_fmap, Hc.
  - intros Hall. unfold lwgrp_ring_alltoallv_linear, alltoallv_loop.
    rewrite run_all_idle; [rewrite bind_Ok; eauto|].
    apply Forall_fmap. eapply List.Forall_impl; [|exact Hall].
    intros c' Hc'. unfold alltoallv_cond. cbn. by rewrite Hc'.
Qed.

Lemma alltoallv_null_chain_witness :
  [null_call; null_call] !! 1%nat = Some null_call
  ∧ group_size (group null_call) = 0
  ∧ posts alltoallv_cond (alltoallv_post (-1)) (alltoallv_init null_call)
    = Ok (alltoallv_init null_call, [])
  ∧ ∃ res, lwgrp_ring_alltoallv_linear (-1) 0 [null_call; null_call] = Ok res.
Proof.
  split; [reflexivity|]. split; [reflexivity|].
  destruct (alltoallv_null_chain (-1) [null_call; null_call] 0 1 null_call
              eq_refl eq_refl) as (_ & Hposts & _ & Hret).
  split; [exact Hposts|].
  apply Hret. repeat constructor.
Defined.

(** ** Bad calls *)

(** A lone caller with no bin at all ([num_bins = 0]) that opts out. *)
Definition no_bins_call : split_bin_call :=
  {| arg_num_bins := 0; arg_my_bin := -1;
     arg_in := ring_member 5 [5] 0; arg_out := blank;
     arg_malloc := Some (λ _, 0) |}.

(** A lone caller whose scratch allocation fails. *)
Definition oom_call : split_bin_call :=
  {| arg_num_bins := 1; arg_my_bin := 0;
     arg_in := ring_member 5 [5] 0; arg_out := blank;
     arg_malloc := None |}.

(** C7.  The code at three bad calls.  With [my_bin = num_bins = 1] the
    call returns [LWGRP_SUCCESS] and a group of size 1; with
    [num_bins = 0] it returns [LWGRP_SUCCESS] and the null chain; when
    the allocation fails it does not return at all, it stores through the
    null pointer at line 70.  The tests of lines 46 and 57 are there, with
    the body [TODO: fail]. *)
Theorem split_bin_reports_no_error :
  returned (lwgrp_ring_split_bin (-1) 0 [bad_bin_call])
  = Ok [(LWGRP_SUCCESS,
         {| comm := 5; comm_rank := 5; comm_left := 5; comm_right := 5;
            group_rank := 0; group_size := 1 |})]
  ∧ returned (lwgrp_ring_split_bin (-1) 0 [no_bins_call])
    = Ok [(LWGRP_SUCCESS, lwgrp_ring_set_null (-1) blank)]
  ∧ lwgrp_ring_split_bin (-1) 0 [oom_call] = Err MemFault.
Proof. repeat split; vm_compute; reflexivity. Qed.

(** ** [lwgrp_ring_alltoallv_linear] against its contract *)

(** Four callers at transport ranks 3, 1, 0 and 2, each holding its own
    transport rank for every rank. *)
Definition a2a_ring4 : list (alltoallv_call (T := Z)) :=
  (λ i, {| sendbuf := replicate 4 (ring_at [3; 1; 0; 2] (Z.of_nat i));
           sendcounts := [1; 1; 1; 1]; senddispls := [0; 1; 2; 3];
           recvbuf := [-1; -1; -1; -1];
           recvcounts := [1; 1; 1; 1]; recvdispls := [0; 1; 2; 3];
           group := ring_member 5 [3; 1; 0; 2] i;
           junk_src_next := 0; junk_dst_next := 0 |}) <$> seq 0 4.

Lemma a2a_ring4_wf : a2a_wf (-1) 5 [3; 1; 0; 2] a2a_ring4.
Proof.
  unfold a2a_wf, INT_MAX. repeat split.
  - apply (bool_decide_unpack _). vm_compute. exact I.
  - cbn. lia.
  - apply (bool_decide_unpack _). vm_compute. exact I.
  - cbn. lia.
  - intros i ci Hi.
    do 4 (destruct i as [|i]; [injection Hi as <-; reflexivity|]).
    discriminate Hi.
  - intros i j ci cj Hi Hj.
    do 4 (destruct i as [|i];
          [do 4 (destruct j as [|j];
                 [injection Hi as <-; injection Hj as <-;
                  eexists _, _, _, _;
                  do 4 (split; [cbv; reflexivity|]);
                  cbv; repeat split; discriminate|]);
           discriminate Hj|]).
    discriminate Hi.
Qed.

(** C2.  The code on a ring of four.  The callers and their arrays are
    well formed, the call returns, and every caller ends with the elements
    of the callers one and two positions to its left and its own; the
    element of the caller to its right never arrives, and the slot for
    that caller's transport rank is as it was.  A complete exchange would
    leave [[0; 1; 2; 3]] everywhere. *)
Theorem alltoallv_ring_of_four :
  a2a_wf (-1) 5 [3; 1; 0; 2] a2a_ring4
  ∧ ∃ res,
      lwgrp_ring_alltoallv_linear (-1) 4 a2a_ring4 = Ok res
      ∧ (λ x, cur_recvbuf x.2) <$> res
        = [ [0; -1; 2; 3]; [-1; 1; 2; 3]; [0; 1; -1; 3]; [0; 1; 2; -1] ].
Proof.
  split; [exact a2a_ring4_wf|].
  eexists. split; vm_compute; reflexivity.
Qed.

(** The one caller of a chain of one as the specification has it, both
    neighbors NONE, at transport rank 5. *)
Definition a2a_single : alltoallv_call (T := Z) :=
  {| sendbuf := [42];
     sendcounts := [0; 0; 0; 0; 0; 1]; senddispls := [0; 0; 0; 0; 0; 0];
     recvbuf := [-1];
     recvcounts := [0; 0; 0; 0; 0; 1]; recvdispls := [0; 0; 0; 0; 0; 0];
     group := chain_member (-1) 5 [5] 0;
     junk_src_next := 0; junk_dst_next := 0 |}.

(** C6, counterexample.  On the chain of one with both neighbors NONE,
    [src] and [dst] start as NONE, not as the caller's own transport rank,
    and the first statement of the loop body reads [recvdispls[src]] at the
    index NONE: the call completes no round, whatever the step bound. *)
Lemma alltoallv_chain_counterexample :
  chain_ends (-1) (group a2a_single)
  ∧ comm_rank (group a2a_single) = 5
  ∧ src (alltoallv_init a2a_single) = -1
  ∧ dst (alltoallv_init a2a_single) = -1
  ∧ alltoallv_post (-1) (alltoallv_init a2a_single) = Err MemFault
  ∧ ∀ fuel res, lwgrp_ring_alltoallv_linear (-1) fuel [a2a_single] ≠ Ok res.
Proof.
  split; [vm_compute; repeat split; intros; done|].
  do 4 (split; [reflexivity|]).
  intros fuel res. destruct fuel as [|fuel]; vm_compute; discriminate.
Qed.

(** C6.  On a ring of [N] callers whose arrays agree, every caller
    completes exactly [N] wait-alls and leaves the loop with [dist = N].
    In each round [dist] grows by one, and the next [src] of a caller is
    the address it received from its [src], which is the [src] of that
    caller, and the same for [dst].  On a ring of one the caller is its own
    [src] and [dst] and completes one round. *)
Theorem alltoallv_rounds {T} PN c tr
    (calls : list (alltoallv_call (T := T))) fuel :
  a2a_wf PN c tr calls → (length tr ≤ fuel)%nat →
  ∃ res,
    lwgrp_ring_alltoallv_linear PN fuel calls = Ok res
    ∧ length res = length tr
    ∧ (∀ i r v, res !! i = Some (r, v) →
         a_waitalls v = length tr ∧ a_dist v = Z.of_nat (length tr)
         ∧ alltoallv_cond v = false)
    ∧ (∀ t, (t < length tr)%nat →
         ∃ sys sys',
           alltoallv_after PN t calls = Ok sys
           ∧ alltoallv_after PN (S t) calls = Ok sys'
           ∧ ∀ i v', sys' !! i = Some v' →
               ∃ v jl vl jr vr,
                 sys !! i = Some v ∧ alltoallv_cond v = true
                 ∧ a_dist v' = a_dist v + 1
                 ∧ a_waitalls v' = S (a_waitalls v)
                 ∧ sys !! jl = Some vl
                 ∧ comm_rank (group (call vl)) = src v ∧ src v' = src vl
                 ∧ sys !! jr = Some vr
                 ∧ comm_rank (group (call vr)) = dst v ∧ dst v' = dst vr)
    ∧ (length tr = 1%nat →
         ∀ c0, calls !! O = Some c0 →
           src (alltoallv_init c0) = comm_rank (group c0)
           ∧ dst (alltoallv_init c0) = comm_rank (group c0)
           ∧ ∃ r v, res !! O = Some (r, v) ∧ a_waitalls v = 1%nat).
Proof.
  intros Hwf Hf.
  destruct (a2a_final PN c tr calls fuel Hwf Hf) as (sys & Hrun & Hinv).
  a2a_hyps Hwf. pose proof Hinv as [Hlen Hall].
  exists ((λ v, (0, v)) <$> sys). split; [done|].
  split; [by rewrite length_fmap|].
  split; [|split].
  - intros i r v Hx.
    destruct (a2a_final_lookup tr calls _ sys i _ Hinv Hx) as (_ & Hi).
    cbn in Hi. pose proof (a2a_cond_inv c tr calls Hlen0 Hclen Hgroup _ _ _ Hi)
      as Hcond.
    destruct Hi as (_ & Hd & Hw & _).
    repeat split; try done.
    rewrite Hcond. apply bool_decide_eq_false_2. lia.
  - intros t Ht.
    destruct (a2a_rounds_inv PN c tr calls) with (t := t)
      as (s0 & Hs0 & Hinv0); try done; [lia|].
    destruct (a2a_rounds_inv PN c tr calls) with (t := S t)
      as (s1 & Hs1 & Hinv1); try done.
    exists s0, s1. split; [done|]. split; [done|].
    intros i v' Hv'. destruct Hinv0 as [Hl0 Hall0]. destruct Hinv1 as [Hl1 Hall1].
    pose proof (lookup_lt_Some _ _ _ Hv') as Hi.
    destruct (s0 !! i) as [v|] eqn:Hv.
    2:{ apply lookup_ge_None in Hv. lia. }
    pose proof (Hall0 i v Hv) as Hiv. pose proof (Hall1 i v' Hv') as Hiv'.
    pose proof (a2a_cond_inv c tr calls Hlen0 Hclen Hgroup _ _ _ Hiv) as Hcond.
    destruct (a2a_sys_at tr calls Hlen0 Hclen t s0
                (Z.of_nat i - 2 ^ Z.of_nat t) (conj Hl0 Hall0))
      as (vl & Hvl & Hil).
    destruct (a2a_sys_at tr calls Hlen0 Hclen t s0
                (Z.of_nat i + 2 ^ Z.of_nat t) (conj Hl0 Hall0))
      as (vr & Hvr & Hir).
    destruct Hiv as (_ & Hd & Hw & Hs & Hdst & _).
    destruct Hiv' as (_ & Hd' & Hw' & Hs' & Hdst' & _).
    destruct Hil as (Hcl & _ & _ & Hsl & _).
    destruct Hir as (Hcr & _ & _ & _ & Hdr & _).
    destruct (ring_call_group c tr calls Hlen0 Hclen Hgroup _ _ Hcl) as (Hrl & _).
    destruct (ring_call_group c tr calls Hlen0 Hclen Hgroup _ _ Hcr) as (Hrr & _).
    eexists v, _, vl, _, vr.
    split; [done|]. split; [rewrite Hcond; apply bool_decide_eq_true_2; lia|].
    split; [rewrite Hd, Hd'; lia|]. split; [by rewrite Hw, Hw'|].
    split; [exact Hvl|]. split; [by rewrite Hrl, Hs|].
    split.
    { rewrite Hs', Hsl. apply ring_at_congr. f_equal.
      rewrite Nat2Z.inj_succ, Z.pow_succ_r by lia. lia. }
    split; [exact Hvr|]. split; [by rewrite Hrr, Hdst|].
    rewrite Hdst', Hdr. apply ring_at_congr. f_equal.
    rewrite Nat2Z.inj_succ, Z.pow_succ_r by lia. lia.
  - intros Hone c0 Hc0.
    assert (Hrc : ring_call tr calls 0 = Some c0).
    { destruct (ring_call_nat tr calls Hlen0 Hclen O) as [E|E]; [|congruence].
      change (Z.of_nat 0) with 0 in E. by rewrite E. }
    destruct (ring_call_group c tr calls Hlen0 Hclen Hgroup _ _ Hrc)
      as (Hr & HL & HR & _).
    cbn [alltoallv_init src dst]. rewrite HL, HR, Hr.
    split; [apply ring_at_congr; by rewrite Hone, !Z.mod_1_r|].
    split; [apply ring_at_congr; by rewrite Hone, !Z.mod_1_r|].
    destruct (sys !! O) as [v|] eqn:Hv.
    2:{ apply lookup_ge_None in Hv. lia. }
    exists 0, v. split; [by rewrite list_lookup_fmap, Hv|].
    destruct (Hall O v Hv) as (_ & _ & -> & _). done.
Qed.

(** The one caller of a ring of one, its own neighbor on both sides, at
    transport rank 5. *)
Definition a2a_self : alltoallv_call (T := Z) :=
  {| sendbuf := [42];
     sendcounts := [0; 0; 0; 0; 0; 1]; senddispls := [0; 0; 0; 0; 0; 0];
     recvbuf := [-1];
     recvcounts := [0; 0; 0; 0; 0; 1]; recvdispls := [0; 0; 0; 0; 0; 0];
     group := ring_member 5 [5] 0;
     junk_src_next := 0; junk_dst_next := 0 |}.

Lemma a2a_self_wf : a2a_wf (-1) 5 [5] [a2a_self].
Proof.
  unfold a2a_wf, INT_MAX. repeat split.
  - apply (bool_decide_unpack _). vm_compute. exact I.
  - cbn. lia.
  - apply (bool_decide_unpack _). vm_compute. exact I.
  - cbn. lia.
  - intros i ci Hi.
    destruct i as [|i]; [injection Hi as <-; reflexivity|discriminate Hi].
  - intros i j ci cj Hi Hj.
    destruct i as [|i]; [|discriminate Hi].
    destruct j as [|j]; [|discriminate Hj].
    injection Hi as <-; injection Hj as <-.
    eexists _, _, _, _.
    do 4 (split; [cbv; reflexivity|]).
    cbv; repeat split; discriminate.
Defined.

Lemma alltoallv_rounds_witness :
  a2a_wf (-1) 5 [5] [a2a_self]
  ∧ ∃ res,
      lwgrp_ring_alltoallv_linear (-1) 1 [a2a_self] = Ok res
      ∧ length res = 1%nat
      ∧ (∀ i r v, res !! i = Some (r, v) →
           a_waitalls v = 1%nat ∧ a_dist v = 1 ∧ alltoallv_cond v = false)
      ∧ src (alltoallv_init a2a_self) = 5
      ∧ dst (alltoallv_init a2a_self) = 5.
Proof.
  split; [exact a2a_self_wf|].
  destruct (alltoallv_rounds (-1) 5 [5] [a2a_self] 1 a2a_self_wf)
    as (res & Hres & Hlen & Hfin & _ & Hone).
  - cbn. lia.
  - exists res. split; [exact Hres|]. split; [exact Hlen|].
    split; [exact Hfin|].
    destruct (Hone eq_refl a2a_self eq_refl) as (Hs & Hd & _).
    split; [exact Hs|exact Hd].
Defined.

(** ** The links of the groups that come out *)

(** The one caller of a chain of one as the specification has it, both
    neighbors NONE, declaring bin 0 of one. *)
Definition single_chain_call : split_bin_call :=
  {| arg_num_bins := 1; arg_my_bin := 0;
     arg_in := chain_member (-1) 5 [5] 0; arg_out := blank;
     arg_malloc := Some (λ _, 0) |}.

(** C3, counterexample.  From the chain of one, the caller gets rank 0
    of a group of size 1 with its own transport rank, not NONE, on both
    sides (lines 162-165).  On the ring of four at transport ranks 10 to
    13 with bins 0, 1, 0, 1, the caller at rank 10 gets rank 0 of its
    group with the other member, 12, on its left.  Neither descriptor has
    NONE on the left of rank 0. *)
Lemma split_bin_links_counterexample :
  (∃ out,
     returned (lwgrp_ring_split_bin (-1) 0 [single_chain_call])
     = Ok [(LWGRP_SUCCESS, out)]
     ∧ group_rank out = 0 ∧ group_size out = 1
     ∧ comm_left out = 5 ∧ comm_right out = 5
     ∧ ¬ chain_ends (-1) out)
  ∧ (∃ res out v,
       lwgrp_ring_split_bin (-1) 2
         (ring_calls 5 2 [10; 11; 12; 13] [0; 1; 0; 1] (λ _, blank) zeroed)
       = Ok res
       ∧ res !! O = Some (LWGRP_SUCCESS, out, v)
       ∧ group_rank out = 0 ∧ group_size out = 2
       ∧ comm_left out = 12 ∧ comm_right out = 12
       ∧ ¬ chain_ends (-1) out).
Proof.
  split.
  - eexists. split; [vm_compute; reflexivity|].
    do 4 (split; [reflexivity|]).
    intros [[_ H] _]. cbn in H. specialize (H eq_refl). discriminate H.
  - eexists _, _, _. split; [vm_compute; reflexivity|].
    split; [reflexivity|].
    do 4 (split; [reflexivity|]).
    intros [[_ H] _]. cbn in H. specialize (H eq_refl). discriminate H.
Qed.

(** C3.  The groups that come out of a ring are rings.  In a bin with
    at least two members the right neighbor of the member with chain rank
    [r] is the transport rank of the member with chain rank
    [(r + 1) mod size], that member's left neighbor is the former, and
    neither is NONE.  From a ring of one, the caller gets rank 0 of a
    group of size 1 with itself on both sides. *)
Theorem split_bin_output_links PN c nb tr mbs outs mallocs fuel :
  ring_wf PN nb tr mbs → mallocs_succeed (length tr) mallocs →
  (log2_rounds (length tr) ≤ fuel)%nat →
  ∃ res,
    lwgrp_ring_split_bin PN fuel (ring_calls c nb tr mbs outs mallocs) = Ok res
    ∧ (∀ i j b ri oi vi rj oj vj,
         mbs !! i = Some b → mbs !! j = Some b → 0 ≤ b →
         (2 ≤ same_bin b mbs)%nat →
         res !! i = Some (ri, oi, vi) → res !! j = Some (rj, oj, vj) →
         group_rank oj = (group_rank oi + 1) `mod` group_size oi →
         comm_right oi = comm_rank oj ∧ comm_left oj = comm_rank oi
         ∧ comm_right oi ≠ PN ∧ comm_left oj ≠ PN)
    ∧ (length tr = 1%nat →
       ∀ b r out v,
         mbs !! O = Some b → 0 ≤ b → res !! O = Some (r, out, v) →
         group_rank out = 0 ∧ group_size out = 1
         ∧ comm_rank out = ring_at tr 0
         ∧ comm_left out = comm_rank out ∧ comm_right out = comm_rank out
         ∧ comm_left out ≠ PN).
Proof.
  intros Hwf Hmalloc Hfuel.
  destruct (ring_links PN c nb tr mbs outs mallocs fuel Hwf Hmalloc Hfuel)
    as (res & Hres & Hlinks).
  exists res. split; [done|]. split.
  - intros i j b ri oi vi rj oj vj Hi Hj Hb Hsz Hri Hrj Hrk.
    destruct (Hlinks i j b ri oi vi rj oj vj Hi Hj Hb Hsz Hri Hrj Hrk)
      as (? & ? & ? & ? & _). done.
  - intros Hone b r out v Hb Hsign Hr. ring_hyps Hwf.
    rewrite <- round_count_log2 in * by done.
    edestruct (split_bin_ring_result PN c nb tr mbs outs mallocs)
      as (_ & sys & res' & _ & _ & _ & Hres' & _ & Hpt); [done..|].
    rewrite Hres in Hres'. injection Hres' as <-.
    destruct (Hpt O _ Hr) as (v' & _ & [= -> -> <-]).
    unfold final_out, bin_of. rewrite Hb. cbn [default].
    rewrite decide_True by done.
    rewrite !(decide_True (P := Z.of_nat (length tr) = 1)) by lia.
    cbn [comm comm_rank comm_left comm_right group_rank group_size].
    assert (Hm : mbs = [b]).
    { destruct mbs as [|x [|y l]]; cbn in Hmlen, Hb; try lia.
      by injection Hb as ->. }
    rewrite Hm. cbn [take]. unfold same_bin.
    rewrite filter_cons_True, filter_nil by done.
    repeat split; try done.
    apply (ring_at_not_none PN tr); done.
Qed.

Lemma split_bin_output_links_witness :
  ring_wf (-1) 2 [10; 11; 12; 13] [0; 1; 0; 1]
  ∧ ∃ res,
      lwgrp_ring_split_bin (-1) 2
        (ring_calls 5 2 [10; 11; 12; 13] [0; 1; 0; 1] (λ _, blank) zeroed) = Ok res
      ∧ ∀ i j b ri oi vi rj oj vj,
          [0; 1; 0; 1] !! i = Some b → [0; 1; 0; 1] !! j = Some b → 0 ≤ b →
          (2 ≤ same_bin b [0; 1; 0; 1]%Z)%nat →
          res !! i = Some (ri, oi, vi) → res !! j = Some (rj, oj, vj) →
          group_rank oj = (group_rank oi + 1) `mod` group_size oi →
          comm_right oi = comm_rank oj ∧ comm_left oj = comm_rank oi
          ∧ comm_right oi ≠ -1 ∧ comm_left oj ≠ -1.
Proof.
  assert (Hwf : ring_wf (-1) 2 [10; 11; 12; 13] [0; 1; 0; 1]) by solve_wf.
  split; [exact Hwf|].
  destruct (split_bin_output_links (-1) 5 2 [10; 11; 12; 13] [0; 1; 0; 1]
              (λ _, blank) zeroed 2 Hwf) as (res & Hres & Hlinks & _).
  - intros i _. unfold zeroed. eauto.
  - vm_compute. lia.
  - exists res. split; [exact Hres|exact Hlinks].
Defined.

(** ** The merge of a round and what the scans gather *)

(** C4, counterexample.  On the chain of four at transport ranks 10 to
    13 with bins 0, 1, 0, 1, ending in NONE, the head has nobody on its
    left; after the first round the closest rank of its right-going buffer
    for bin 1 is 7, what the block held, which is no process at all, and
    so is the left neighbor it noted.  On the ring of the same processes
    that closest rank is 13, the tail: the nearest member going left
    around the ring, not one to the left of the head in the chain. *)
Lemma split_bin_scan_counterexample :
  (∃ sys v,
     split_bin_after (-1) 1
       (chain_calls (-1) 5 2 [10; 11; 12; 13] [0; 1; 0; 1] (λ _, blank) sevens)
     = Ok sys
     ∧ sys !! O = Some v
     ∧ cell v (send_right_bins v) 1 INDEX_CLOSEST = Some 7
     ∧ my_left v = 7
     ∧ 7 ∉ [10; 11; 12; 13] ∧ 7 ≠ -1)
  ∧ (∃ sys v,
       split_bin_after (-1) 1
         (ring_calls 5 2 [10; 11; 12; 13] [0; 1; 0; 1] (λ _, blank) sevens)
       = Ok sys
       ∧ sys !! O = Some v
       ∧ cell v (send_right_bins v) 1 INDEX_CLOSEST = Some 13).
Proof.
  split.
  - eexists _, _. split; [vm_compute; reflexivity|].
    split; [reflexivity|]. split; [reflexivity|]. split; [reflexivity|].
    split; [|done].
    apply (bool_decide_unpack _). vm_compute. exact I.
  - eexists _, _. split; [vm_compute; reflexivity|].
    split; reflexivity.
Qed.

(** C4.  On a ring, after [k] rounds the caller at position [i] is at
    chain rank [i] with [dist = 2 ^ k], and for every bin the closest rank
    of its right-going buffer is the first member met going left around
    the ring from [i], itself included, within [2 ^ k] positions, or NONE,
    the same to the right for the left-going buffer, and the counts are
    those of the members among these positions that lie on the chain: a
    count never exceeds the number of members on that side.  The merge of
    a round adds the count received from the left only when
    [rank - dist >= 0] and the one received from the right only when
    [rank + dist < ranks], and takes a closest rank from the message only
    where the buffer holds NONE. *)
Theorem split_bin_merge_scan PN c nb tr mbs outs mallocs k :
  ring_wf PN nb tr mbs → mallocs_succeed (length tr) mallocs →
  (k ≤ log2_rounds (length tr))%nat →
  (∃ sys,
     split_bin_after PN k (ring_calls c nb tr mbs outs mallocs) = Ok sys
     ∧ length sys = length tr
     ∧ ∀ i v, sys !! i = Some v →
         vars_wf v ∧ num_bins v = nb
         ∧ rank v = Z.of_nat i ∧ ranks v = Z.of_nat (length tr)
         ∧ dist v = Z.of_nat (2 ^ k)
         ∧ ∀ b, 0 ≤ b < nb →
             cell v (send_right_bins v) b INDEX_CLOSEST =
               Some (nearest PN tr mbs b (-1) (Z.of_nat i) (2 ^ k))
             ∧ cell v (send_left_bins v) b INDEX_CLOSEST =
                 Some (nearest PN tr mbs b 1 (Z.of_nat i) (2 ^ k))
             ∧ cell v (send_right_bins v) b INDEX_COUNT =
                 Some (count_from mbs b (Z.of_nat i - Z.of_nat (2 ^ k) + 1)
                         (2 ^ k))
             ∧ cell v (send_left_bins v) b INDEX_COUNT =
                 Some (count_from mbs b (Z.of_nat i) (2 ^ k))
             ∧ count_from mbs b (Z.of_nat i - Z.of_nat (2 ^ k) + 1) (2 ^ k)
               ≤ Z.of_nat (same_bin b (take (S i) mbs))
             ∧ count_from mbs b (Z.of_nat i) (2 ^ k)
               ≤ Z.of_nat (same_bin b (drop i mbs)))
  ∧ (∀ v from_left from_right,
       vars_wf v →
       Z.of_nat (length from_left) = elements v →
       Z.of_nat (length from_right) = elements v →
       ∃ v',
         split_bin_wait PN v (Some from_left) (Some from_right) = Ok v'
         ∧ vars_wf v'
         ∧ dist v' = wrap (Z.shiftl (dist v) 1)
         ∧ ∀ b, 0 ≤ b < num_bins v →
             ∃ cr or cl ol,
               cell v (send_right_bins v) b INDEX_COUNT = Some cr
               ∧ cell v (send_right_bins v) b INDEX_CLOSEST = Some or
               ∧ cell v (send_left_bins v) b INDEX_COUNT = Some cl
               ∧ cell v (send_left_bins v) b INDEX_CLOSEST = Some ol
               ∧ cell v' (send_right_bins v') b INDEX_COUNT =
                   Some (if decide (0 ≤ wrap (rank v - dist v))
                         then wrap (cr + gz from_left (2 * b + INDEX_COUNT))
                         else cr)
               ∧ cell v' (send_right_bins v') b INDEX_CLOSEST =
                   Some (if decide (or = PN)
                         then gz from_left (2 * b + INDEX_CLOSEST) else or)
               ∧ cell v' (send_left_bins v') b INDEX_COUNT =
                   Some (if decide (wrap (rank v + dist v) < ranks v)
                         then wrap (cl + gz from_right (2 * b + INDEX_COUNT))
                         else cl)
               ∧ cell v' (send_left_bins v') b INDEX_CLOSEST =
                   Some (if decide (ol = PN)
                         then gz from_right (2 * b + INDEX_CLOSEST) else ol)).
Proof.
  intros Hwf Hmalloc Hk. split.
  - destruct (scan_invariant PN c nb tr mbs outs mallocs k Hwf Hmalloc Hk)
      as (sys & Hafter & Hlen & Hcells).
    exists sys. split; [done|]. split; [done|].
    intros i v Hv. ring_hyps Hwf.
    rewrite <- round_count_log2 in Hk by done.
    edestruct (rounds_inv PN c nb tr mbs outs mallocs)
      as (sys0 & sys' & Hinit & Hrounds & [Hl Hinv]); [done..|exact Hk|].
    unfold split_bin_after in Hafter.
    rewrite Hinit, bind_Ok, Hrounds in Hafter. injection Hafter as ->.
    destruct (Hinv i v Hv) as (Hnb & Hmb & Hin & _ & _ & _ & _ & _ & Hdist
                               & _ & l & Hb & Hll & _).
    split.
    { unfold vars_wf. rewrite Hnb, Hmb. split; [done|]. split; [done|].
      split; [by apply (bin_of_range nb tr mbs)|eauto]. }
    split; [done|]. unfold rank, ranks. rewrite Hin. cbn.
    split; [done|]. split; [done|]. split; [done|].
    intros b Hbb. by apply Hcells.
  - intros v from_left from_right Hv HA HB.
    destruct (wait_merge PN v from_left from_right Hv HA HB)
      as (v' & Hw & Hwf' & _ & _ & _ & _ & Hd & _ & _ & _ & _ & _ & Hm).
    exists v'. done.
Qed.

Lemma split_bin_merge_scan_witness :
  ring_wf (-1) 2 [10; 11; 12; 13] [0; 1; 0; 1]
  ∧ ∃ sys,
      split_bin_after (-1) 1
        (ring_calls 5 2 [10; 11; 12; 13] [0; 1; 0; 1] (λ _, blank) zeroed) = Ok sys
      ∧ length sys = 4%nat
      ∧ ∀ i v, sys !! i = Some v →
          vars_wf v ∧ rank v = Z.of_nat i ∧ dist v = 2
          ∧ cell v (send_right_bins v) 1 INDEX_CLOSEST =
              Some (nearest (-1) [10; 11; 12; 13] [0; 1; 0; 1] 1 (-1)
                      (Z.of_nat i) 2).
Proof.
  assert (Hwf : ring_wf (-1) 2 [10; 11; 12; 13] [0; 1; 0; 1]) by solve_wf.
  split; [exact Hwf|].
  destruct (split_bin_merge_scan (-1) 5 2 [10; 11; 12; 13] [0; 1; 0; 1]
              (λ _, blank) zeroed 1 Hwf) as ((sys & Hsys & Hlen & Hall) & _).
  - intros i _. unfold zeroed. eauto.
  - vm_compute. lia.
  - exists sys. split; [exact Hsys|]. split; [exact Hlen|].
    intros i v Hv.
    destruct (Hall i v Hv) as (Hv1 & _ & Hr & _ & Hd & Hc).
    split; [exact Hv1|]. split; [exact Hr|]. split; [exact Hd|].
    exact (proj1 (Hc 1 ltac:(lia))).
Defined.

(** ** A process that opts out *)






